(** * A-Star_Pathfinder: a shallow embedding of [astar.py]

    The development follows the source file function by function:
    [Node] and its setters, [Node.update_neighbors], the heuristic [h],
    [reconstruct_path], [find_path] and [make_level].

    - A node object is identified with its position [(row, col)] in
      [level], which is what [make_level] stores in [Node.row] and
      [Node.col]; the dictionaries and the set keyed by nodes are finite
      maps and a finite set keyed by positions, and a method call that
      mutates a node updates the level at that position.
    - The callback [draw] shows the colours of all nodes; the calls made
      during a search are recorded as the list of frames they show.
    - What [pygame.event.get()] returns in each iteration of the search
      loop is an input of the model.
    - The two [while] loops take a number of iterations as fuel; the
      number that [find_path] passes on is shown to suffice.

    The definitions come first, the proofs after them. *)

From Stdlib Require Import ZArith Lia Ascii.
From stdpp Require Import gmap strings list relations.

(* ===================================================================== *)
(** ** Data model *)
(* ===================================================================== *)

(** [ROW_LIMIT] and [COL_LIMIT]. *)
Definition ROW_LIMIT : nat := 100.
Definition COL_LIMIT : nat := 100.

(** The colours of the display. *)
Inductive Color :=
  RED | GREEN | BLUE | WHITE | BLACK | ORANGE | GRAY | TURQUOISE.

(** [class NodeType(Enum)]. *)
Inductive NodeType :=
  CLOSED | OPEN | UNVISITED | OBSTACLE | PATH | START | GOAL.

#[global] Instance NodeType_eq_dec : EqDecision NodeType.
Proof. solve_decision. Defined.

#[global] Instance Color_eq_dec : EqDecision Color.
Proof. solve_decision. Defined.

(** The value of each [NodeType] member, a one-character string. *)
Definition NodeType_value (t : NodeType) : ascii :=
  match t with
  | CLOSED => "C" | OPEN => "O" | UNVISITED => "." | OBSTACLE => "#"
  | PATH => "P" | START => "S" | GOAL => "G"
  end%char.

Abbreviation coord := (nat * nat)%type.

(** [class Node].  The fields [row] and [col] are the position of the node
    in [level]; [width], [x] and [y] only serve the drawing and are left
    out. *)
Record Node := mkNode {
  color : Color;
  neighbors : list coord;
  totalRows : nat;
  totalCols : nat;
  type : NodeType
}.

(** [Node.__init__]. *)
Definition Node_init (totalRows totalCols : nat) : Node :=
  mkNode WHITE [] totalRows totalCols UNVISITED.

Definition is_obstacle (n : Node) : bool := bool_decide (type n = OBSTACLE).
Definition is_start (n : Node) : bool := bool_decide (type n = START).
Definition is_goal (n : Node) : bool := bool_decide (type n = GOAL).

Definition set_mark (t : NodeType) (c : Color) (n : Node) : Node :=
  mkNode c (neighbors n) (totalRows n) (totalCols n) t.

Definition set_start : Node → Node := set_mark START ORANGE.
Definition set_closed : Node → Node := set_mark CLOSED RED.
Definition set_open : Node → Node := set_mark OPEN BLUE.
Definition set_obstacle : Node → Node := set_mark OBSTACLE BLACK.
Definition set_goal : Node → Node := set_mark GOAL TURQUOISE.
Definition set_path : Node → Node := set_mark PATH GREEN.

(** [level[row][col]]; [None] stands for Python's [IndexError]. *)
Definition node_at (level : list (list Node)) (c : coord) : option Node :=
  level !! c.1 ≫= λ line, line !! c.2.

(** A method call [level[row][col].f()] that mutates the node in place. *)
Definition update_node (f : Node → Node) (c : coord)
    (level : list (list Node)) : list (list Node) :=
  alter (alter f c.2) c.1 level.

Definition node_type (level : list (list Node)) (c : coord) : option NodeType :=
  type <$> node_at level c.

Definition node_neighbors (level : list (list Node)) (c : coord) : list coord :=
  from_option neighbors [] (node_at level c).

(** All positions of [level], row by row. *)
Definition row_cells (i : nat) (line : list Node) : list coord :=
  (λ j, (i, j)) <$> seq 0 (length line).

Definition cells (level : list (list Node)) : list coord :=
  mjoin (imap row_cells level).

(* ===================================================================== *)
(** ** [Node.update_neighbors] *)
(* ===================================================================== *)

(** One of the four [if ... and not level[r][c].is_obstacle(): append].
    The result is [inr] of the neighbours collected so far, or [inl] of
    them when indexing [level] raised: the [except: pass] then leaves
    [self.neighbors] as it was at that point. *)
Definition look (level : list (list Node)) (guard : bool) (c : coord)
    (acc : list coord) : list coord + list coord :=
  if guard then
    match node_at level c with
    | None => inl acc
    | Some n => if is_obstacle n then inr acc else inr (acc ++ [c])
    end
  else inr acc.

Definition try_bind (r : list coord + list coord)
    (k : list coord → list coord + list coord) : list coord + list coord :=
  match r with inl acc => inl acc | inr acc => k acc end.

Definition try_result (r : list coord + list coord) : list coord :=
  match r with inl acc => acc | inr acc => acc end.

Definition neighbors_of (level : list (list Node)) (self : coord)
    (n : Node) : list coord :=
  let row := self.1 in
  let col := self.2 in
  try_result
    (try_bind (look level (0 <? Z.of_nat row)%Z (row - 1, col) []) (λ acc,
     try_bind (look level (Z.of_nat row <? Z.of_nat (totalRows n) - 1)%Z
                 (row + 1, col) acc) (λ acc,
     try_bind (look level (0 <? Z.of_nat col)%Z (row, col - 1) acc) (λ acc,
     look level (Z.of_nat col <? Z.of_nat (totalCols n) - 1)%Z
       (row, col + 1) acc)))).

Definition update_neighbors (level : list (list Node)) (self : coord)
    (n : Node) : Node :=
  mkNode (color n) (neighbors_of level self n) (totalRows n) (totalCols n)
    (type n).

(** [for row in level: for node in row: node.update_neighbors(level)], as
    [main] runs it before every search.  The method reads only the types of
    the other nodes, which it does not change, so every call sees the same
    [level]. *)
Definition update_all_neighbors (level : list (list Node)) : list (list Node) :=
  imap (λ i line, imap (λ j n, update_neighbors level (i, j) n) line) level.

(* ===================================================================== *)
(** ** The heuristic *)
(* ===================================================================== *)

Definition h (node1 node2 : coord) : nat :=
  let '(x1, y1) := node1 in
  let '(x2, y2) := node2 in
  Z.to_nat (Z.abs (Z.of_nat x2 - Z.of_nat x1) + Z.abs (Z.of_nat y2 - Z.of_nat y1)).

(* ===================================================================== *)
(** ** Scores and the priority queue *)
(* ===================================================================== *)

(** A score is an integer or [float("inf")]. *)
Inductive score := Finite (n : nat) | Infinity.

#[global] Instance score_eq_dec : EqDecision score.
Proof. solve_decision. Defined.

Definition score_add (s : score) (k : nat) : score :=
  match s with Finite n => Finite (n + k) | Infinity => Infinity end.

Definition score_ltb (a b : score) : bool :=
  match a, b with
  | Finite x, Finite y => x <? y
  | Finite _, Infinity => true
  | Infinity, _ => false
  end.

(** [gScore[node]]; every node of [level] is a key of the dictionary, and
    an absent key reads as the initial value. *)
Definition get_score (m : gmap coord score) (c : coord) : score :=
  default Infinity (m !! c).

(** An entry [(priority, count, node)] of [openNodes].  Python keeps the
    entries in a binary heap; [get] returns the least tuple, and since no
    two entries of the queue compare equal ([inv_count_nodup]) what it
    returns depends on the entries alone, not on their arrangement.  The
    queue is therefore a list here, in the order of insertion. *)
Abbreviation entry := (score * nat * coord)%type.

Definition entry_node (e : entry) : coord := e.2.
Definition entry_count (e : entry) : nat := e.1.2.
Definition entry_priority (e : entry) : score := e.1.1.

(** Tuple comparison on the first two components; the counts of two
    entries of one queue differ, so the nodes are never compared. *)
Definition entry_ltb (a b : entry) : bool :=
  score_ltb (entry_priority a) (entry_priority b)
  || (bool_decide (entry_priority a = entry_priority b)
      && (entry_count a <? entry_count b)).

Fixpoint min_entry (e : entry) (q : list entry) : entry :=
  match q with
  | [] => e
  | x :: q' => min_entry (if entry_ltb x e then x else e) q'
  end.

Fixpoint remove_entry (e : entry) (q : list entry) : list entry :=
  match q with
  | [] => []
  | x :: q' => if decide (x = e) then q' else x :: remove_entry e q'
  end.

(** [PriorityQueue.put]. *)
Definition put (q : list entry) (e : entry) : list entry := q ++ [e].

(** [PriorityQueue.get] on a non-empty queue: the least entry leaves. *)
Definition get (q : list entry) : option (entry * list entry) :=
  match q with
  | [] => None
  | x :: q' => let m := min_entry x q' in Some (m, remove_entry m q)
  end.

(* ===================================================================== *)
(** ** The display and the keyboard *)
(* ===================================================================== *)

(** What one call of [draw] shows: the colour of every node. *)
Definition snapshot (level : list (list Node)) : list (list Color) :=
  map (map color) level.

Inductive Key := K_SPACE | K_ESCAPE | K_OTHER.
Inductive Event := QUIT | KEYDOWN (key : Key) | OTHER_EVENT.

(** [for event in pygame.event.get(): ...] at the head of the search loop:
    the new value of [visualize], or [None] when the program exits. *)
Fixpoint handle_events (evs : list Event) (visualize : bool) : option bool :=
  match evs with
  | [] => Some visualize
  | QUIT :: _ => None
  | KEYDOWN K_SPACE :: evs' => handle_events evs' false
  | KEYDOWN K_ESCAPE :: _ => None
  | _ :: evs' => handle_events evs' visualize
  end.

(* ===================================================================== *)
(** ** [reconstruct_path] *)
(* ===================================================================== *)

(** The body of the [if] in the loop of [reconstruct_path]. *)
Definition mark_path (n : Node) : Node :=
  if negb (is_start n) && negb (is_goal n) then set_path n else n.

(** [while current in cameFrom: ...].  The function returns the nodes that
    [current] runs through after the first, in that order, with the level
    and the frames drawn; [None] when [fuel] iterations do not end the
    loop. *)
Fixpoint reconstruct_path (fuel : nat) (cameFrom : gmap coord coord)
    (current : coord) (level : list (list Node))
    (frames : list (list (list Color)))
    : option (list coord * list (list Node) * list (list (list Color))) :=
  match cameFrom !! current with
  | None => Some ([], level, frames)
  | Some prev =>
      match fuel with
      | 0 => None
      | S fuel' =>
          let level' := update_node mark_path prev level in
          match reconstruct_path fuel' cameFrom prev level'
                  (frames ++ [snapshot level']) with
          | Some (walk, l, f) => Some (prev :: walk, l, f)
          | None => None
          end
      end
  end.

(* ===================================================================== *)
(** ** [find_path] *)
(* ===================================================================== *)

(** The local variables of [find_path], the level they act on and the
    frames drawn so far. *)
Record State := mkState {
  count : nat;
  visualize : bool;
  openNodes : list entry;
  came_from : gmap coord coord;
  gScore : gmap coord score;
  fScore : gmap coord score;
  openNodesHash : gset coord;
  level : list (list Node);
  frames : list (list (list Color))
}.

(** [{node: float("inf") for row in level for node in row}]. *)
Definition inf_scores (lvl : list (list Node)) : gmap coord score :=
  list_to_map ((λ c, (c, Infinity)) <$> cells lvl).

(** Lines 122 to 137. *)
Definition init_state (lvl : list (list Node)) (start goal : coord) : State :=
  mkState 0 true (put [] (Finite 0, 0, start)) ∅
    (<[start := Finite 0]> (inf_scores lvl))
    (<[start := Finite (h start goal)]> (inf_scores lvl))
    {[start]} lvl [].

(** The body of [for neighbor in current.neighbors]. *)
Definition relax (goal current neighbor : coord) (st : State) : State :=
  let neighborGScore := score_add (get_score (gScore st) current) 1 in
  if score_ltb neighborGScore (get_score (gScore st) neighbor) then
    let came_from' := <[neighbor := current]> (came_from st) in
    let gScore' := <[neighbor := neighborGScore]> (gScore st) in
    let fScore' :=
      <[neighbor := score_add neighborGScore (h neighbor goal)]> (fScore st) in
    if bool_decide (neighbor ∈ openNodesHash st) then
      mkState (count st) (visualize st) (openNodes st) came_from' gScore'
        fScore' (openNodesHash st) (level st) (frames st)
    else
      let count' := count st + 1 in
      mkState count' (visualize st)
        (put (openNodes st) (get_score fScore' neighbor, count', neighbor))
        came_from' gScore' fScore' ({[neighbor]} ∪ openNodesHash st)
        (update_node set_open neighbor (level st)) (frames st)
  else st.

(** [for neighbor in current.neighbors: ...]. *)
Definition expand (goal current : coord) (st : State) : State :=
  foldl (λ s neighbor, relax goal current neighbor s) st
    (node_neighbors (level st) current).

(** [if visualize: draw()]. *)
Definition draw_step (st : State) : State :=
  if visualize st then
    mkState (count st) (visualize st) (openNodes st) (came_from st)
      (gScore st) (fScore st) (openNodesHash st) (level st)
      (frames st ++ [snapshot (level st)])
  else st.

(** [if current != start: current.set_closed()]. *)
Definition close_step (start current : coord) (st : State) : State :=
  if bool_decide (current ≠ start) then
    mkState (count st) (visualize st) (openNodes st) (came_from st)
      (gScore st) (fScore st) (openNodesHash st)
      (update_node set_closed current (level st)) (frames st)
  else st.

(** [current = openNodes.get()[2]; openNodesHash.remove(current)], with the
    value of [visualize] that the events of this iteration leave. *)
Definition pop_step (vis : bool) (q' : list entry) (current : coord)
    (st : State) : State :=
  mkState (count st) vis q' (came_from st) (gScore st) (fScore st)
    (openNodesHash st ∖ {[current]}) (level st) (frames st).

(** How a call of [find_path] ends: it returns [True] after walking the
    path (given from start to goal), it returns [False], or the program
    exits on a [QUIT] event or the escape key. *)
Inductive Outcome :=
  | Found (path : list coord)
  | NotFound
  | Exited.

(** The number of cells bounds the walk of [reconstruct_path]. *)
Definition walk_fuel (lvl : list (list Node)) : nat := length (cells lvl).

(** The [while not openNodes.empty()] loop.  [events] gives, iteration by
    iteration, what [pygame.event.get()] returns (nothing once the list is
    used up).  [None] when [fuel] iterations do not end the loop. *)
Fixpoint search (fuel : nat) (events : list (list Event))
    (start goal : coord) (st : State) : option (Outcome * State) :=
  match get (openNodes st) with
  | None => Some (NotFound, st)
  | Some ((_, _, current), q') =>
      match fuel with
      | 0 => None
      | S fuel' =>
          match handle_events (default [] (head events)) (visualize st) with
          | None => Some (Exited, st)
          | Some vis =>
              let st1 := pop_step vis q' current st in
              if bool_decide (current = goal) then
                let lvl1 := update_node set_goal current (level st1) in
                match reconstruct_path (walk_fuel lvl1) (came_from st1) goal
                        lvl1 (frames st1) with
                | None => None
                | Some (walk, lvl2, frames2) =>
                    Some (Found (reverse (goal :: walk)),
                          mkState (count st1) (visualize st1) (openNodes st1)
                            (came_from st1) (gScore st1) (fScore st1)
                            (openNodesHash st1) lvl2 frames2)
                end
              else
                search fuel' (tail events) start goal
                  (close_step start current
                     (draw_step (expand goal current st1)))
          end
      end
  end.

(** A number of iterations that always suffices: the variant of the loop
    is smaller at the start ([variant_init]) and drops with every
    iteration ([search_spec]). *)
Definition search_fuel (lvl : list (list Node)) : nat :=
  2 * length (cells lvl) * (length (cells lvl) + 1) + 2.

Definition find_path (events : list (list Event)) (lvl : list (list Node))
    (start goal : coord) : option (Outcome * State) :=
  search (search_fuel lvl) events start goal (init_state lvl start goal).

(* ===================================================================== *)
(** ** [make_level] *)
(* ===================================================================== *)

(** The ways in which [make_level] ends without a level: the three
    [exit()] calls, and the unbound [j] (or [i]) at line 222 when the file
    has no line at all. *)
Inductive LevelError :=
  | InvalidCharacter (char : ascii)
  | InvalidWidth
  | InvalidHeight
  | UnboundLocal.

Definition newline : ascii := "010"%char.

(** [for line in file]: the lines of the text, each with its newline; the
    last one has none when the text does not end in one.  [text] is what
    Python's text layer delivers, so every line end is a single newline
    character. *)
Fixpoint file_lines (cur text : list ascii) : list (list ascii) :=
  match text with
  | [] => match cur with [] => [] | _ => [cur] end
  | char :: text' =>
      if decide (char = newline) then (cur ++ [char]) :: file_lines [] text'
      else file_lines (cur ++ [char]) text'
  end.

(** The [if]/[elif] chain on one character: the node and whether it is
    the start or the goal; [None] in the [else] branch. *)
Definition read_char (char : ascii) (node : Node)
    : option (Node * bool * bool) :=
  if decide (char = NodeType_value OBSTACLE) then
    Some (set_obstacle node, false, false)
  else if decide (char = NodeType_value START) then
    Some (set_start node, true, false)
  else if decide (char = NodeType_value GOAL) then
    Some (set_goal node, false, true)
  else if decide (char = NodeType_value UNVISITED ∨ char = newline) then
    Some (node, false, false)
  else None.

(** [for j, char in enumerate(line)] from column [j] on; [row] holds
    [level[i]] so far. *)
Fixpoint read_line (size : nat * nat) (i j : nat) (line : list ascii)
    (row : list Node) (start goal : option coord)
    : LevelError + (list Node * option coord * option coord) :=
  match line with
  | [] => inr (row, start, goal)
  | char :: line' =>
      match read_char char (Node_init size.1 size.2) with
      | None => inl (InvalidCharacter char)
      | Some (node, is_s, is_g) =>
          if bool_decide (COL_LIMIT < j) then inl InvalidWidth
          else
            read_line size i (S j) line' (row ++ [node])
              (if is_s then Some (i, j) else start)
              (if is_g then Some (i, j) else goal)
      end
  end.

(** [for i, line in enumerate(file)] from row [i] on; [last] is the
    length of the line read last, that is [j + 1]. *)
Fixpoint read_lines (size : nat * nat) (i : nat) (lines : list (list ascii))
    (lvl : list (list Node)) (start goal : option coord) (last : nat)
    : LevelError + (list (list Node) * option coord * option coord * nat) :=
  match lines with
  | [] => inr (lvl, start, goal, last)
  | line :: lines' =>
      match read_line size i 0 line [] start goal with
      | inl e => inl e
      | inr (row, start', goal') =>
          if bool_decide (ROW_LIMIT < i) then inl InvalidHeight
          else
            read_lines size (S i) lines' (lvl ++ [row]) start' goal'
              (length line)
      end
  end.

(** Lines 227 to 230. *)
Definition set_totals (rows cols : nat) (n : Node) : Node :=
  mkNode (color n) (neighbors n) rows cols (type n).

(** [make_level]; [size] is the dictionary as the caller passes it, and
    [text] the contents of the file. *)
Definition make_level (size : nat * nat) (text : string)
    : LevelError + (list (list Node) * option coord * option coord) :=
  let lines := file_lines [] (String.list_ascii_of_string text) in
  match lines with
  | [] => inl UnboundLocal
  | _ =>
      match read_lines size 0 lines [] None None 0 with
      | inl e => inl e
      | inr (lvl, start, goal, cols) =>
          let rows := length lines in
          inr (map (map (set_totals rows cols)) lvl, start, goal)
      end
  end.

(** A text built from its rows, a newline between two rows. *)
Definition rows_text (rows : list string) : string :=
  String.concat (String newline EmptyString) rows.

(** The level that [make_level] reads from [text], for examples; the
    empty level when the text is rejected. *)
Definition level_of (text : string) : list (list Node) :=
  match make_level (0, 0) text with
  | inr (lvl, _, _) => lvl
  | inl _ => []
  end.

(** What [main] does with a freshly read level when the space bar starts
    the search: it updates the neighbours of every node and calls
    [find_path]. *)
Definition run_search (events : list (list Event)) (size : nat * nat)
    (text : string) : option (Outcome * State) :=
  match make_level size text with
  | inr (lvl, Some start, Some goal) =>
      find_path events (update_all_neighbors lvl) start goal
  | _ => None
  end.

(* ===================================================================== *)
(** ** The grid and its paths *)
(* ===================================================================== *)

(** Two positions are 4-adjacent: one step up, down, left or right. *)
Definition adjacent4 (a b : coord) : bool :=
  bool_decide (a.1 = b.1 ∧ (a.2 = S b.2 ∨ b.2 = S a.2))
  || bool_decide (a.2 = b.2 ∧ (a.1 = S b.1 ∨ b.1 = S a.1)).

(** A position of the level whose node is not an obstacle. *)
Definition passable (lvl : list (list Node)) (c : coord) : bool :=
  match node_at lvl c with
  | Some n => negb (is_obstacle n)
  | None => false
  end.

(** The neighbour lists only hold passable 4-adjacent positions. *)
Definition neighbors_ok (lvl : list (list Node)) : Prop :=
  ∀ c n, n ∈ node_neighbors lvl c → adjacent4 c n = true ∧ passable lvl n = true.

(** The graph that the search walks: an edge leads from a node to each
    member of its neighbour list. *)
Definition linked (lvl : list (list Node)) (a b : coord) : Prop :=
  b ∈ node_neighbors lvl a.

(** A level as [make_level] means it: all rows have the same length, and
    every node knows the number of rows and of columns. *)
Definition rectangular (lvl : list (list Node)) : Prop :=
  ∃ cols, ∀ line, line ∈ lvl →
    length line = cols
    ∧ ∀ n, n ∈ line → totalRows n = length lvl ∧ totalCols n = cols.

(** One step on the grid: from a cell of the level to a 4-adjacent cell of
    the level that is not an obstacle. *)
Definition grid_step (lvl : list (list Node)) (a b : coord) : Prop :=
  is_Some (node_at lvl a) ∧ adjacent4 a b = true ∧ passable lvl b = true.

(* ===================================================================== *)
(** ** The invariant of the search loop *)
(* ===================================================================== *)

Definition is_finite (s : score) : bool :=
  match s with Finite _ => true | Infinity => false end.

(** The number of cells of the level that a score table has reached. *)
Definition discovered (lvl0 : list (list Node)) (g : gmap coord score) : nat :=
  sum_list_with (λ c, if is_finite (get_score g c) then 1 else 0) (cells lvl0).

(** The sum of the scores, an unreached cell counting for the number of
    cells; every relaxation makes it smaller. *)
Definition slack (lvl0 : list (list Node)) (g : gmap coord score) : nat :=
  sum_list_with
    (λ c, match get_score g c with
          | Finite k => k
          | Infinity => length (cells lvl0)
          end) (cells lvl0).

(** The variant of the loop: it drops with every iteration. *)
Definition variant (lvl0 : list (list Node)) (st : State) : nat :=
  length (openNodes st) + 2 * slack lvl0 (gScore st).

(** The colour that a frame shows at a position. *)
Definition frame_at (frame : list (list Color)) (c : coord) : option Color :=
  frame !! c.1 ≫= λ line, line !! c.2.

(** The invariant.  [lvl0] is the level when [find_path] is called and
    [cur] the node under expansion, [None] at the head of the loop. *)
Record inv (lvl0 : list (list Node)) (start goal : coord) (cur : option coord)
    (st : State) : Prop := mk_inv {
  inv_cells : cells (level st) = cells lvl0;
  inv_nbrs : ∀ c, node_neighbors (level st) c = node_neighbors lvl0 c;
  inv_members : ∀ c, c ∈ openNodesHash st ↔ c ∈ entry_node <$> openNodes st;
  inv_nodup : NoDup (entry_node <$> openNodes st);
  inv_counts : ∀ e, e ∈ openNodes st → entry_count e ≤ count st;
  inv_count_nodup : NoDup (entry_count <$> openNodes st);
  inv_start : get_score (gScore st) start = Finite 0;
  inv_came : ∀ n p, came_from st !! n = Some p →
    ∃ gn gp, get_score (gScore st) n = Finite gn ∧
             get_score (gScore st) p = Finite gp ∧ gp < gn ∧ linked lvl0 p n;
  inv_disc : ∀ n k, get_score (gScore st) n = Finite k →
    n = start ∨ is_Some (came_from st !! n);
  inv_bound : ∀ n k, get_score (gScore st) n = Finite k →
    n ∈ cells lvl0 ∧ k < discovered lvl0 (gScore st);
  inv_reach : ∀ n k, get_score (gScore st) n = Finite k →
    rtc (linked lvl0) start n;
  inv_open : ∀ c, c ∈ openNodesHash st →
    ∃ k, get_score (gScore st) c = Finite k;
  inv_expanded : ∀ c k, get_score (gScore st) c = Finite k →
    c ∉ openNodesHash st → cur ≠ Some c →
    ∀ n, linked lvl0 c n → ∃ k', get_score (gScore st) n = Finite k';
  inv_closed : ∀ c k, get_score (gScore st) c = Finite k →
    c ∉ openNodesHash st → c ≠ start → cur ≠ Some c →
    node_type (level st) c = Some CLOSED;
  inv_frame : ∀ c, c = start ∨ passable lvl0 c = false →
    node_at (level st) c = node_at lvl0 c;
  inv_goal : ∀ k, get_score (gScore st) goal = Finite k →
    goal ∈ openNodesHash st ∨ cur = Some goal;
  inv_frames : ∀ frame c, frame ∈ frames st →
    c = start ∨ passable lvl0 c = false →
    frame_at frame c = color <$> node_at lvl0 c
}.

(** The state between the removal of [cur] from the queue and the end of
    its expansion. *)
Definition mid (lvl0 : list (list Node)) (start goal cur : coord) (st : State)
    : Prop :=
  inv lvl0 start goal (Some cur) st ∧ (cur ∉ openNodesHash st) ∧
  (∃ k, get_score (gScore st) cur = Finite k).

(** [walk] is the chain of predecessors of [cur] in [cameFrom], up to the
    first node that is not a key. *)
Fixpoint is_walk (cameFrom : gmap coord coord) (cur : coord)
    (walk : list coord) : Prop :=
  match walk with
  | [] => cameFrom !! cur = None
  | prev :: walk' => cameFrom !! cur = Some prev ∧ is_walk cameFrom prev walk'
  end.

(** The marks that [reconstruct_path] leaves on a walk. *)
Definition mark_walk (walk : list coord) (lvl : list (list Node))
    : list (list Node) :=
  foldl (λ l prev, update_node mark_path prev l) lvl walk.

(** The frames that [reconstruct_path] draws on a walk. *)
Fixpoint walk_frames (walk : list coord) (lvl : list (list Node))
    : list (list (list Color)) :=
  match walk with
  | [] => []
  | prev :: walk' =>
      let lvl' := update_node mark_path prev lvl in
      snapshot lvl' :: walk_frames walk' lvl'
  end.

(** Every step of a path leads to a 4-adjacent position. *)
Fixpoint steps_ok (path : list coord) : bool :=
  match path with
  | a :: rest => match rest with
                 | b :: _ => adjacent4 a b && steps_ok rest
                 | [] => true
                 end
  | [] => true
  end.

(** A path of the level from [start] to [goal]: it starts and ends there,
    moves by 4-adjacent steps and meets no obstacle. *)
Definition valid_path (lvl : list (list Node)) (start goal : coord)
    (path : list coord) : bool :=
  bool_decide (head path = Some start)
  && bool_decide (last path = Some goal)
  && steps_ok path
  && forallb (passable lvl) path.

(** The events of one iteration end the program. *)
Definition quits (evs : list Event) : bool :=
  existsb (λ e, match e with
                | QUIT | KEYDOWN K_ESCAPE => true
                | _ => false
                end) evs.

(** No iteration receives a [QUIT] event or the escape key. *)
Definition no_exit (events : list (list Event)) : Prop :=
  Forall (λ evs, quits evs = false) events.

(** What holds when the search loop ends with outcome [o] in state [st']. *)
Definition post (lvl0 : list (list Node)) (start goal : coord)
    (o : Outcome) (st' : State) : Prop :=
  match o with
  | NotFound => inv lvl0 start goal None st' ∧ openNodes st' = []
  | Exited => inv lvl0 start goal None st'
  | Found path =>
      ∃ st1 walk,
        mid lvl0 start goal goal st1 ∧
        is_walk (came_from st1) goal walk ∧
        last (goal :: walk) = Some start ∧
        path = reverse (goal :: walk) ∧
        came_from st' = came_from st1 ∧
        gScore st' = gScore st1 ∧
        level st' = mark_walk walk (update_node set_goal goal (level st1)) ∧
        frames st' =
          frames st1 ++ walk_frames walk (update_node set_goal goal (level st1)) ∧
        openNodes st' = openNodes st1
  end.

(* ===================================================================== *)
(** ** Two runs of the search *)
(* ===================================================================== *)

(** Two event streams act alike on [find_path]: iteration by iteration
    they leave the same [visualize] flag and agree on whether to exit. *)
Definition same_keys (ev1 ev2 : list (list Event)) : Prop :=
  ∀ i vis,
    handle_events (default [] (ev1 !! i)) vis
    = handle_events (default [] (ev2 !! i)) vis.

(** A state without what only concerns the display: the flag is reset and
    the frames are dropped. *)
Definition core (st : State) : State :=
  mkState (count st) true (openNodes st) (came_from st) (gScore st)
    (fScore st) (openNodesHash st) (level st) [].

(** The result of a search without what only concerns the display. *)
Definition result_core (r : option (Outcome * State))
    : option (Outcome * State) :=
  prod_map id core <$> r.

(* ===================================================================== *)
(** ** Reading a level: what the text is like *)
(* ===================================================================== *)

(** The lines that [make_level] reads from the text of a file. *)
Definition text_lines (text : string) : list (list ascii) :=
  file_lines [] (String.list_ascii_of_string text).

(** The characters of a map file: the four cell symbols and the newline. *)
Definition valid_char (char : ascii) : bool :=
  bool_decide (char ∈ [NodeType_value OBSTACLE; NodeType_value START;
                       NodeType_value GOAL; NodeType_value UNVISITED;
                       newline]).

(** The number of cells of a line: its characters without the newline. *)
Definition row_width (line : list ascii) : nat :=
  length (filter (λ char, char ≠ newline) line).

(** The type of the node that a valid character gives. *)
Definition char_type (char : ascii) : NodeType :=
  if decide (char = NodeType_value OBSTACLE) then OBSTACLE
  else if decide (char = NodeType_value START) then START
  else if decide (char = NodeType_value GOAL) then GOAL
  else UNVISITED.

(* ===================================================================== *)
(** ** Further notions: neighbour positions, the nodes of a text, marks *)
(* ===================================================================== *)

(** The positions that [Node.update_neighbors] looks at from [(row, col)],
    in the order of its four [if]s: up, down, left, right; the position
    above row 0 and the one left of column 0 are never looked at. *)
Definition around (c : coord) : list coord :=
  (if bool_decide (0 < c.1) then [(c.1 - 1, c.2)] else [])
  ++ [(c.1 + 1, c.2)]
  ++ (if bool_decide (0 < c.2) then [(c.1, c.2 - 1)] else [])
  ++ [(c.1, c.2 + 1)].

(** The colour that goes with a type: the one its setter gives, and the
    one of [Node.__init__] for [UNVISITED]. *)
Definition NodeType_color (t : NodeType) : Color :=
  match t with
  | CLOSED => RED | OPEN => BLUE | UNVISITED => WHITE | OBSTACLE => BLACK
  | PATH => GREEN | START => ORANGE | GOAL => TURQUOISE
  end.

(** The node that a character of the text stands for, in a level of
    [rows] rows and [cols] columns. *)
Definition char_node (rows cols : nat) (char : ascii) : Node :=
  mkNode (NodeType_color (char_type char)) [] rows cols (char_type char).

(** The positions at which [char] occurs in a line, from column [j] on,
    and in the lines of a text, from row [i] on, in reading order. *)
Fixpoint line_cells (char : ascii) (i j : nat) (line : list ascii)
    : list coord :=
  match line with
  | [] => []
  | ch :: line' =>
      (if decide (ch = char) then [(i, j)] else [])
      ++ line_cells char i (S j) line'
  end.

Fixpoint text_cells (char : ascii) (i : nat) (lines : list (list ascii))
    : list coord :=
  match lines with
  | [] => []
  | line :: lines' => line_cells char i 0 line ++ text_cells char (S i) lines'
  end.

(** The last position of a list, or what was there before. *)
Definition pick (l : list coord) (before : option coord) : option coord :=
  match last l with Some c => Some c | None => before end.

(** Every node of the level has the colour of its type. *)
Definition well_colored (lvl : list (list Node)) : Prop :=
  ∀ c nd, node_at lvl c = Some nd → color nd = NodeType_color (type nd).

(** What the loop of [find_path] keeps besides [inv]: the marks, the
    scores and the queue go together. *)
Record marks (lvl0 : list (list Node)) (start goal : coord) (st : State)
    : Prop := mk_marks {
  marks_untouched : ∀ c, get_score (gScore st) c = Infinity →
    node_at (level st) c = node_at lvl0 c;
  marks_open : ∀ c, c ∈ openNodesHash st → c ≠ start →
    node_type (level st) c = Some OPEN;
  marks_fscore : ∀ c,
    get_score (fScore st) c = score_add (get_score (gScore st) c) (h c goal);
  marks_priority : ∀ e, e ∈ openNodes st →
    e = (Finite 0, 0, start)
    ∨ ∃ k p, get_score (gScore st) (entry_node e) = Finite k
             ∧ entry_priority e = Finite p
             ∧ k + h (entry_node e) goal ≤ p;
  marks_steps : ∀ c k, get_score (gScore st) c = Finite k →
    nsteps (linked lvl0) k start c
}.

(** What holds when the search loop ends with outcome [o] in state [st']:
    [post] with the final state in full, and [marks]. *)
Definition post_marks (lvl0 : list (list Node)) (start goal : coord)
    (o : Outcome) (st' : State) : Prop :=
  match o with
  | NotFound =>
      inv lvl0 start goal None st' ∧ marks lvl0 start goal st'
      ∧ openNodes st' = []
  | Exited => inv lvl0 start goal None st' ∧ marks lvl0 start goal st'
  | Found path =>
      ∃ st1 walk,
        mid lvl0 start goal goal st1 ∧ marks lvl0 start goal st1 ∧
        is_walk (came_from st1) goal walk ∧
        last (goal :: walk) = Some start ∧
        path = reverse (goal :: walk) ∧
        st' = mkState (count st1) (visualize st1) (openNodes st1)
                (came_from st1) (gScore st1) (fScore st1) (openNodesHash st1)
                (mark_walk walk (update_node set_goal goal (level st1)))
                (frames st1
                 ++ walk_frames walk (update_node set_goal goal (level st1)))
  end.

(** The space bar is among the events of one iteration. *)
Definition space_pressed (evs : list Event) : bool :=
  existsb (λ e, match e with KEYDOWN K_SPACE => true | _ => false end) evs.

(** The path that an outcome carries. *)
Definition outcome_path (o : Outcome) : list coord :=
  match o with Found path => path | _ => [] end.

(** Two nodes differ at most in their mark, that is in type and colour. *)
Definition same_but_mark (n' n : Node) : Prop :=
  neighbors n' = neighbors n ∧ totalRows n' = totalRows n
  ∧ totalCols n' = totalCols n.

(** Two levels have the same positions, and differ at most in the marks
    of their nodes. *)
Definition only_marks (lvl' lvl : list (list Node)) : Prop :=
  ∀ c, option_Forall2 same_but_mark (node_at lvl' c) (node_at lvl c).

(** What an error of [make_level] says about the text. *)
Definition error_cause (text : string) (e : LevelError) : Prop :=
  match e with
  | InvalidCharacter char =>
      char ∈ String.list_ascii_of_string text ∧ valid_char char = false
  | InvalidWidth => Exists (λ line, S COL_LIMIT < length line) (text_lines text)
  | InvalidHeight => S ROW_LIMIT < length (text_lines text)
  | UnboundLocal => text = EmptyString
  end.

(** What the search holds about one node [n]: its predecessor, its two
    scores, whether it is in [openNodesHash], the node itself, and the
    priorities of its entries in the queue, in the order of the queue. *)
Definition node_view (n : coord) (st : State)
    : option coord * score * score * bool * option Node * list score :=
  (came_from st !! n, get_score (gScore st) n, get_score (fScore st) n,
   bool_decide (n ∈ openNodesHash st), node_at (level st) n,
   entry_priority <$> filter (λ e, entry_node e = n) (openNodes st)).

(* ===================================================================== *)
(** ** The level as an array of nodes *)
(* ===================================================================== *)

Section level_facts.
Implicit Types (lvl : list (list Node)) (c : coord) (f : Node → Node).

Lemma node_at_update_node f c c' lvl :
  node_at (update_node f c lvl) c' =
    if decide (c = c') then f <$> node_at lvl c' else node_at lvl c'.
Proof.
  unfold node_at, update_node. destruct c as [i j], c' as [i' j']; simpl.
  destruct (decide (i = i')) as [->|Hi].
  - rewrite list_lookup_alter_eq. destruct (lvl !! i') as [line|]; simpl.
    + destruct (decide (j = j')) as [->|Hj].
      * rewrite list_lookup_alter_eq, decide_True by done. done.
      * rewrite list_lookup_alter_ne by done.
        rewrite decide_False by congruence. done.
    + by destruct (decide _).
  - rewrite list_lookup_alter_ne by done.
    rewrite decide_False by congruence. done.
Qed.

Lemma node_at_update_node_eq f c lvl :
  node_at (update_node f c lvl) c = f <$> node_at lvl c.
Proof. rewrite node_at_update_node, decide_True; done. Qed.

Lemma node_at_update_node_ne f c c' lvl :
  c ≠ c' → node_at (update_node f c lvl) c' = node_at lvl c'.
Proof. intros. rewrite node_at_update_node, decide_False; done. Qed.

Lemma node_neighbors_update_node f c c' lvl :
  (∀ n, neighbors (f n) = neighbors n) →
  node_neighbors (update_node f c lvl) c' = node_neighbors lvl c'.
Proof.
  intros Hf. unfold node_neighbors. rewrite node_at_update_node.
  destruct (decide _); [|done]. destruct (node_at lvl c'); simpl; auto.
Qed.

Lemma elem_of_cells lvl c : c ∈ cells lvl ↔ is_Some (node_at lvl c).
Proof.
  unfold cells, node_at, row_cells. rewrite list_elem_of_join. split.
  - intros (l & Hc & Hl). apply elem_of_lookup_imap in Hl as (i & line & -> & Hi).
    apply list_elem_of_fmap in Hc as (j & -> & Hj). simpl. rewrite Hi. simpl.
    apply elem_of_seq in Hj. apply lookup_lt_is_Some. lia.
  - destruct c as [i j]; simpl. intros [n Hn].
    destruct (lvl !! i) as [line|] eqn:Hi; [|done]. simpl in Hn.
    exists ((λ j, (i, j)) <$> seq 0 (length line)). split.
    + apply list_elem_of_fmap. exists j. split; [done|].
      apply elem_of_seq. apply lookup_lt_Some in Hn. lia.
    + apply elem_of_lookup_imap. eauto.
Qed.

Lemma cells_update_node f c lvl : cells (update_node f c lvl) = cells lvl.
Proof.
  unfold cells, update_node. f_equal.
  apply list_eq. intros i. rewrite !list_lookup_imap.
  destruct (decide (c.1 = i)) as [<-|Hne].
  - rewrite list_lookup_alter_eq. destruct (lvl !! c.1); simpl; [|done].
    unfold row_cells. by rewrite length_alter.
  - by rewrite list_lookup_alter_ne.
Qed.

Lemma cells_from_spec k lvl :
  NoDup (mjoin (imap (λ i, row_cells (k + i)) lvl)) ∧
  ∀ c, c ∈ mjoin (imap (λ i, row_cells (k + i)) lvl) → k ≤ c.1.
Proof.
  revert k. induction lvl as [|line lvl IH]; intros k.
  - split; [constructor|]. intros c Hc. by apply elem_of_nil in Hc.
  - rewrite imap_cons. simpl.
    assert (Heq : imap ((λ i, row_cells (k + i)) ∘ S) lvl
                  = imap (λ i, row_cells (S k + i)) lvl).
    { apply imap_ext. intros i x _. simpl. f_equal. lia. }
    rewrite Heq. destruct (IH (S k)) as [IH1 IH2]. split.
    + apply NoDup_app. split; [|split; [|done]].
      * unfold row_cells. apply NoDup_fmap_2; [|apply NoDup_seq].
        intros x y; congruence.
      * intros c Hc Hc'. apply IH2 in Hc'. unfold row_cells in Hc.
        apply list_elem_of_fmap in Hc as (j & -> & _). simpl in Hc'. lia.
    + intros c [Hc|Hc]%elem_of_app.
      * unfold row_cells in Hc.
        apply list_elem_of_fmap in Hc as (j & -> & _). simpl. lia.
      * apply IH2 in Hc. lia.
Qed.

Lemma NoDup_cells lvl : NoDup (cells lvl).
Proof. apply (cells_from_spec 0 lvl). Qed.
End level_facts.

Section update_neighbors_facts.
Implicit Types (lvl : list (list Node)) (c : coord).

(** What holds of the neighbours collected so far, and of the node looked
    at when it is appended, holds of the list after the look, whether it
    raised or not. *)
Lemma look_sound lvl (P : coord → Prop) guard c acc :
  (∀ m, m ∈ acc → P m) →
  (guard = true → passable lvl c = true → P c) →
  ∀ m, m ∈ try_result (look lvl guard c acc) → P m.
Proof.
  unfold look, passable. intros Hacc Hc m.
  destruct guard; simpl; [|by apply Hacc].
  destruct (node_at lvl c) as [nd|]; simpl; [|by apply Hacc].
  destruct (is_obstacle nd); simpl in *; [by apply Hacc|].
  intros [Hm|Hm%list_elem_of_singleton]%elem_of_app; [by apply Hacc|].
  subst m. by apply Hc.
Qed.

Lemma try_bind_sound (P : coord → Prop) r k :
  (∀ m, m ∈ try_result r → P m) →
  (∀ acc, (∀ m, m ∈ acc → P m) → ∀ m, m ∈ try_result (k acc) → P m) →
  ∀ m, m ∈ try_result (try_bind r k) → P m.
Proof. destruct r as [acc|acc]; simpl; [auto|]. intros Hacc Hk. by apply Hk. Qed.

Lemma neighbors_of_spec lvl c nd n :
  n ∈ neighbors_of lvl c nd → adjacent4 c n = true ∧ passable lvl n = true.
Proof.
  unfold neighbors_of. destruct c as [row col]; simpl.
  set (P := λ m : coord, adjacent4 (row, col) m = true ∧ passable lvl m = true).
  assert (Hrow : ∀ i, i = row - 1 ∧ 0 < row ∨ i = row + 1 →
            adjacent4 (row, col) (i, col) = true).
  { intros i Hi. unfold adjacent4. simpl. apply orb_true_iff. right.
    apply bool_decide_eq_true. lia. }
  assert (Hcol : ∀ j, j = col - 1 ∧ 0 < col ∨ j = col + 1 →
            adjacent4 (row, col) (row, j) = true).
  { intros j Hj. unfold adjacent4. simpl. apply orb_true_iff. left.
    apply bool_decide_eq_true. lia. }
  revert n. apply (try_bind_sound P); [|intros acc1 H1].
  { apply look_sound; [by intros m ?%elem_of_nil|].
    intros Hg%Z.ltb_lt Hp. split; [apply Hrow; lia|done]. }
  apply (try_bind_sound P); [|intros acc2 H2].
  { apply look_sound; [done|]. intros _ Hp. split; [apply Hrow; lia|done]. }
  apply (try_bind_sound P); [|intros acc3 H3].
  { apply look_sound; [done|].
    intros Hg%Z.ltb_lt Hp. split; [apply Hcol; lia|done]. }
  apply look_sound; [done|]. intros _ Hp. split; [apply Hcol; lia|done].
Qed.

Lemma node_at_update_all_neighbors lvl c :
  node_at (update_all_neighbors lvl) c = update_neighbors lvl c <$> node_at lvl c.
Proof.
  unfold node_at, update_all_neighbors. destruct c as [i j]; simpl.
  rewrite list_lookup_imap. destruct (lvl !! i) as [line|]; simpl; [|done].
  by rewrite list_lookup_imap.
Qed.

Lemma node_type_update_all_neighbors lvl c :
  node_type (update_all_neighbors lvl) c = node_type lvl c.
Proof.
  unfold node_type. rewrite node_at_update_all_neighbors.
  by destruct (node_at lvl c).
Qed.

Lemma passable_update_all_neighbors lvl c :
  passable (update_all_neighbors lvl) c = passable lvl c.
Proof.
  unfold passable. rewrite node_at_update_all_neighbors.
  by destruct (node_at lvl c).
Qed.

Lemma neighbors_ok_update_all lvl : neighbors_ok (update_all_neighbors lvl).
Proof.
  intros c n. unfold node_neighbors. rewrite node_at_update_all_neighbors.
  destruct (node_at lvl c) as [nd|]; simpl; [|by intros ?%elem_of_nil].
  rewrite passable_update_all_neighbors. apply neighbors_of_spec.
Qed.

Lemma passable_cells lvl c : passable lvl c = true → c ∈ cells lvl.
Proof.
  unfold passable. intros H. apply elem_of_cells.
  destruct (node_at lvl c); [eauto|done].
Qed.

Lemma passable_type lvl c :
  passable lvl c = true ↔ ∃ t, node_type lvl c = Some t ∧ t ≠ OBSTACLE.
Proof.
  unfold passable, node_type, is_obstacle.
  destruct (node_at lvl c) as [nd|]; simpl.
  - rewrite negb_true_iff, bool_decide_eq_false. split; [eauto|].
    intros (t & [= <-] & ?). done.
  - split; [done|]. intros (t & [=] & _).
Qed.
End update_neighbors_facts.

(* ===================================================================== *)
(** ** The priority queue *)
(* ===================================================================== *)

Section queue_facts.
Implicit Types (e x : entry) (q : list entry).

Lemma score_ltb_irrefl (s : score) : score_ltb s s = false.
Proof. destruct s; simpl; [apply Nat.ltb_irrefl|done]. Qed.

Lemma entry_ltb_irrefl e : entry_ltb e e = false.
Proof.
  unfold entry_ltb. rewrite score_ltb_irrefl, Nat.ltb_irrefl.
  by rewrite andb_false_r.
Qed.

Lemma entry_ltb_spec a b :
  entry_ltb a b = true ↔
    score_ltb (entry_priority a) (entry_priority b) = true
    ∨ (entry_priority a = entry_priority b ∧ entry_count a < entry_count b).
Proof.
  unfold entry_ltb.
  by rewrite orb_true_iff, andb_true_iff, bool_decide_eq_true, Nat.ltb_lt.
Qed.

Lemma score_ltb_spec (a b : score) :
  score_ltb a b = true ↔
    match a, b with
    | Finite x, Finite y => x < y
    | Finite _, Infinity => True
    | Infinity, _ => False
    end.
Proof. destruct a, b; simpl; rewrite ?Nat.ltb_lt; split; done. Qed.

(** [entry_ltb b a = false] reads "[a] is at most [b]"; it is a total
    preorder. *)
Lemma entry_le_trans a b c :
  entry_ltb b a = false → entry_ltb c b = false → entry_ltb c a = false.
Proof.
  rewrite <- !not_true_iff_false, !entry_ltb_spec, !score_ltb_spec.
  destruct a as [[pa ka] na], b as [[pb kb] nb], c as [[pc kc] nc].
  unfold entry_priority, entry_count; simpl.
  assert (HF : ∀ u v : nat, Finite u = Finite v ↔ u = v) by (split; congruence).
  destruct pa as [a|], pb as [b|], pc as [c|]; simpl; rewrite ?HF;
    intuition (try lia; try congruence).
Qed.

Lemma entry_le_total a b : entry_ltb a b = true → entry_ltb b a = false.
Proof.
  rewrite <- !not_true_iff_false, !entry_ltb_spec, !score_ltb_spec.
  destruct a as [[pa ka] na], b as [[pb kb] nb].
  unfold entry_priority, entry_count; simpl.
  assert (HF : ∀ u v : nat, Finite u = Finite v ↔ u = v) by (split; congruence).
  destruct pa as [a|], pb as [b|]; simpl; rewrite ?HF;
    intuition (try lia; try congruence).
Qed.

Lemma min_entry_elem e q : min_entry e q ∈ e :: q.
Proof.
  revert e. induction q as [|x q IH]; intros e; simpl.
  - apply list_elem_of_here.
  - pose proof (IH (if entry_ltb x e then x else e)) as IH'.
    destruct (entry_ltb x e).
    + by apply list_elem_of_further.
    + apply elem_of_cons in IH' as [->|IH'].
      * apply list_elem_of_here.
      * by do 2 apply list_elem_of_further.
Qed.

Lemma min_entry_least e q x :
  x ∈ e :: q → entry_ltb x (min_entry e q) = false.
Proof.
  revert e x. induction q as [|y q IH]; intros e x Hx; simpl.
  - apply list_elem_of_singleton in Hx as ->. apply entry_ltb_irrefl.
  - set (e' := if entry_ltb y e then y else e).
    assert (He' : entry_ltb e' (min_entry e' q) = false).
    { apply IH. apply list_elem_of_here. }
    assert (He : entry_ltb e e' = false).
    { unfold e'. destruct (entry_ltb y e) eqn:E;
        [by apply entry_le_total|apply entry_ltb_irrefl]. }
    assert (Hy : entry_ltb y e' = false).
    { unfold e'. destruct (entry_ltb y e) eqn:E; [apply entry_ltb_irrefl|done]. }
    apply elem_of_cons in Hx as [->|[->|Hx]%elem_of_cons].
    + by apply entry_le_trans with e'.
    + by apply entry_le_trans with e'.
    + apply IH. by apply list_elem_of_further.
Qed.

Lemma remove_entry_perm e q : e ∈ q → q ≡ₚ e :: remove_entry e q.
Proof.
  induction q as [|x q IH]; simpl.
  - by intros ?%elem_of_nil.
  - intros Hin. destruct (decide (x = e)) as [->|Hne]; [done|].
    apply elem_of_cons in Hin as [->|Hin]; [done|].
    rewrite (IH Hin) at 1. apply Permutation_swap.
Qed.

Lemma get_None q : get q = None ↔ q = [].
Proof. by destruct q. Qed.

Lemma get_perm q e q' : get q = Some (e, q') → q ≡ₚ e :: q'.
Proof.
  destruct q as [|x q]; simpl; [done|]. intros [= <- <-].
  apply (remove_entry_perm (min_entry x q) (x :: q)), min_entry_elem.
Qed.

Lemma get_least q e q' x :
  get q = Some (e, q') → x ∈ q → entry_ltb x e = false.
Proof.
  destruct q as [|y q]; simpl; [done|]. intros [= <- _]. apply min_entry_least.
Qed.
End queue_facts.

(* ===================================================================== *)
(** ** Sums over the cells *)
(* ===================================================================== *)

Section sums.
Context {A : Type}.
Implicit Types (f g : A → nat) (l : list A).

Lemma sum_list_with_ext_in f g l :
  (∀ x, x ∈ l → f x = g x) → sum_list_with f l = sum_list_with g l.
Proof.
  induction l as [|a l IH]; simpl; [done|]. intros H.
  rewrite H by apply list_elem_of_here. rewrite IH; [done|].
  intros x Hx. apply H. by apply list_elem_of_further.
Qed.

Lemma sum_list_with_update f g l a :
  NoDup l → a ∈ l → (∀ x, x ≠ a → g x = f x) →
  sum_list_with g l + f a = sum_list_with f l + g a.
Proof.
  intros Hnd Ha Hfg. induction Hnd as [|x l Hx Hnd IH]; simpl.
  - by apply elem_of_nil in Ha.
  - apply elem_of_cons in Ha as [->|Ha].
    + rewrite (sum_list_with_ext_in g f l); [lia|].
      intros y Hy. apply Hfg. intros ->. done.
    + rewrite (Hfg x) by (intros ->; done). specialize (IH Ha). lia.
Qed.

Lemma sum_list_with_le f l k :
  (∀ x, x ∈ l → f x ≤ k) → sum_list_with f l ≤ length l * k.
Proof.
  induction l as [|a l IH]; simpl; [lia|]. intros H.
  specialize (H a (list_elem_of_here _ _)) as Ha.
  assert (sum_list_with f l ≤ length l * k); [|lia].
  apply IH. intros x Hx. apply H. by apply list_elem_of_further.
Qed.
End sums.

Lemma frame_at_snapshot (lvl : list (list Node)) (c : coord) :
  frame_at (snapshot lvl) c = color <$> node_at lvl c.
Proof.
  unfold frame_at, snapshot, node_at. rewrite list_lookup_fmap.
  destruct (lvl !! c.1) as [line|]; simpl; [|done].
  by rewrite list_lookup_fmap.
Qed.

Section score_facts.
Implicit Types (g : gmap coord score) (c n : coord) (lvl : list (list Node)).

Lemma get_score_insert g n s c :
  get_score (<[n := s]> g) c = if decide (n = c) then s else get_score g c.
Proof.
  unfold get_score. rewrite lookup_insert. by destruct (decide (n = c)).
Qed.

Lemma get_score_insert_eq g n s : get_score (<[n := s]> g) n = s.
Proof. rewrite get_score_insert, decide_True; done. Qed.

Lemma get_score_insert_ne g n s c :
  n ≠ c → get_score (<[n := s]> g) c = get_score g c.
Proof. intros. rewrite get_score_insert, decide_False; done. Qed.

Lemma score_ltb_Finite k s :
  score_ltb (Finite k) s = true ↔ s = Infinity ∨ ∃ k', s = Finite k' ∧ k < k'.
Proof.
  destruct s as [k'|]; simpl; rewrite ?Nat.ltb_lt.
  - split; [intros H; right; eauto|]. intros [[=]|(? & [= <-] & ?)]. done.
  - split; [auto|done].
Qed.

Lemma discovered_le lvl g : discovered lvl g ≤ length (cells lvl).
Proof.
  unfold discovered.
  etransitivity; [apply (sum_list_with_le _ _ 1)|lia].
  intros x _. destruct (is_finite _); lia.
Qed.

Lemma discovered_insert_new lvl g n k :
  n ∈ cells lvl → get_score g n = Infinity →
  discovered lvl (<[n := Finite k]> g) = S (discovered lvl g).
Proof.
  intros Hn Hg. unfold discovered.
  pose proof (sum_list_with_update
    (λ c, if is_finite (get_score g c) then 1 else 0)
    (λ c, if is_finite (get_score (<[n := Finite k]> g) c) then 1 else 0)
    (cells lvl) n (NoDup_cells lvl) Hn) as H. simpl in H.
  rewrite get_score_insert_eq, Hg in H. simpl in H.
  rewrite Nat.add_0_r in H. rewrite H; [lia|].
  intros x Hx. by rewrite get_score_insert_ne.
Qed.

Lemma discovered_insert_old lvl g n k k' :
  get_score g n = Finite k' →
  discovered lvl (<[n := Finite k]> g) = discovered lvl g.
Proof.
  intros Hg. unfold discovered. apply sum_list_with_ext_in. intros x _.
  rewrite get_score_insert. destruct (decide (n = x)) as [->|]; [|done].
  by rewrite Hg.
Qed.

Lemma slack_insert lvl g n k :
  n ∈ cells lvl →
  k < match get_score g n with
      | Finite k' => k'
      | Infinity => length (cells lvl)
      end →
  slack lvl (<[n := Finite k]> g) < slack lvl g.
Proof.
  intros Hn Hk. unfold slack.
  pose proof (sum_list_with_update
    (λ c, match get_score g c with
          | Finite k => k | Infinity => length (cells lvl) end)
    (λ c, match get_score (<[n := Finite k]> g) c with
          | Finite k => k | Infinity => length (cells lvl) end)
    (cells lvl) n (NoDup_cells lvl) Hn) as H. simpl in H.
  rewrite get_score_insert_eq in H.
  assert (Hext : ∀ x, x ≠ n →
    match get_score (<[n := Finite k]> g) x with
    | Finite k => k | Infinity => length (cells lvl) end =
    match get_score g x with
    | Finite k => k | Infinity => length (cells lvl) end).
  { intros x Hx. by rewrite get_score_insert_ne. }
  specialize (H Hext). lia.
Qed.

Lemma slack_le lvl g :
  (∀ c k, get_score g c = Finite k → k ≤ length (cells lvl)) →
  slack lvl g ≤ length (cells lvl) * length (cells lvl).
Proof.
  intros H. unfold slack. apply sum_list_with_le. intros x _.
  destruct (get_score g x) eqn:E; [by eapply H|done].
Qed.
End score_facts.

Section walk_facts.
Implicit Types (cf : gmap coord coord) (g : gmap coord score).

Lemma reconstruct_path_walk cf g :
  (∀ n p, cf !! n = Some p →
     ∃ gn gp, get_score g n = Finite gn ∧ get_score g p = Finite gp ∧ gp < gn) →
  ∀ fuel cur k lvl fr, get_score g cur = Finite k → k ≤ fuel →
  ∃ walk,
    reconstruct_path fuel cf cur lvl fr
      = Some (walk, mark_walk walk lvl, fr ++ walk_frames walk lvl)
    ∧ is_walk cf cur walk ∧ length walk ≤ k.
Proof.
  intros Hcame fuel. induction fuel as [|fuel IH]; intros cur k lvl fr Hk Hle.
  - simpl. destruct (cf !! cur) as [p|] eqn:Hp.
    + destruct (Hcame _ _ Hp) as (gn & gp & Hgn & _ & Hlt).
      rewrite Hk in Hgn. injection Hgn as <-. lia.
    + exists []. simpl. rewrite app_nil_r. split; [done|]. split; [done|lia].
  - simpl. destruct (cf !! cur) as [p|] eqn:Hp.
    + destruct (Hcame _ _ Hp) as (gn & gp & Hgn & Hgp & Hlt).
      rewrite Hk in Hgn. injection Hgn as <-.
      destruct (IH p gp (update_node mark_path p lvl)
                  (fr ++ [snapshot (update_node mark_path p lvl)]) Hgp)
        as (walk & -> & Hw & Hlen); [lia|].
      exists (p :: walk). simpl. rewrite <- app_assoc. simpl.
      split; [done|]. split; [by split|lia].
    + exists []. simpl. rewrite app_nil_r. split; [done|]. split; [done|lia].
Qed.

Lemma reconstruct_path_is_walk fuel cf cur lvl fr walk lvl' fr' :
  reconstruct_path fuel cf cur lvl fr = Some (walk, lvl', fr') →
  is_walk cf cur walk ∧ lvl' = mark_walk walk lvl.
Proof.
  revert cur lvl fr walk lvl' fr'.
  induction fuel as [|fuel IH]; intros cur lvl fr walk lvl' fr'; simpl.
  - destruct (cf !! cur) eqn:Hp; [done|]. intros [= <- <- <-]. done.
  - destruct (cf !! cur) as [p|] eqn:Hp; [|intros [= <- <- <-]; done].
    destruct (reconstruct_path fuel cf p _ _) as [[[w l] f]|] eqn:Hr; [|done].
    intros [= <- <- <-]. apply IH in Hr as [? ->]. done.
Qed.

Lemma walk_ends cf g start :
  (∀ n p, cf !! n = Some p → ∃ gp, get_score g p = Finite gp) →
  (∀ n k, get_score g n = Finite k → n = start ∨ is_Some (cf !! n)) →
  ∀ walk cur k, get_score g cur = Finite k → is_walk cf cur walk →
  last (cur :: walk) = Some start.
Proof.
  intros Hcame Hdisc walk.
  induction walk as [|p walk IH]; intros cur k Hk Hw; simpl in Hw.
  - destruct (Hdisc _ _ Hk) as [->|[p Hp]]; [done|]. congruence.
  - destruct Hw as [Hp Hw]. destruct (Hcame _ _ Hp) as [gp Hgp].
    rewrite <- (IH p gp Hgp Hw). done.
Qed.
End walk_facts.

(* ===================================================================== *)
(** ** The search loop keeps its invariant and ends *)
(* ===================================================================== *)

Section search.
Variables (lvl0 : list (list Node)) (start goal : coord).
Hypothesis Hok : neighbors_ok lvl0.
Hypothesis Hstart : start ∈ cells lvl0.

Lemma linked_passable a b : linked lvl0 a b → passable lvl0 b = true.
Proof. intros H. by apply Hok in H as [_ ?]. Qed.

Lemma linked_cells a b : linked lvl0 a b → b ∈ cells lvl0.
Proof. intros H. by apply passable_cells, (linked_passable a). Qed.

Lemma inv_init : inv lvl0 start goal None (init_state lvl0 start goal).
Proof.
  assert (Hg : ∀ c k, get_score (<[start:=Finite 0]> (inf_scores lvl0)) c = Finite k →
                 c = start ∧ k = 0).
  { intros c k. rewrite get_score_insert. destruct (decide (start = c)) as [->|Hne].
    - by intros [= <-].
    - unfold get_score, inf_scores.
      destruct (list_to_map _ !! c) as [s|] eqn:E; simpl; [|done].
      apply elem_of_list_to_map_2, list_elem_of_fmap in E as (c' & [= -> ->] & _).
      done. }
  constructor; simpl.
  - done.
  - done.
  - intros c. rewrite elem_of_singleton. unfold put. simpl.
    rewrite list_elem_of_singleton. done.
  - unfold put; simpl. apply NoDup_singleton.
  - unfold put; simpl. intros e ->%list_elem_of_singleton. done.
  - unfold put; simpl. apply NoDup_singleton.
  - apply get_score_insert_eq.
  - intros n p. by rewrite lookup_empty.
  - intros n k [-> ->]%Hg. by left.
  - intros n k [-> ->]%Hg. split; [done|].
    unfold discovered.
    pose proof (sum_list_with_in start
      (λ c, if is_finite (get_score (<[start:=Finite 0]> (inf_scores lvl0)) c)
            then 1 else 0) (cells lvl0) Hstart) as H.
    simpl in H. rewrite get_score_insert_eq in H. simpl in H. lia.
  - intros n k [-> ->]%Hg. done.
  - intros c ->%elem_of_singleton. exists 0. apply get_score_insert_eq.
  - intros c k [-> ->]%Hg Hc. exfalso. apply Hc. by apply elem_of_singleton.
  - intros c k [-> ->]%Hg _ Hc. done.
  - done.
  - intros k [-> ->]%Hg. left. by apply elem_of_singleton.
  - intros frame c Hf. by apply elem_of_nil in Hf.
Qed.

Lemma relax_mid cur n st :
  mid lvl0 start goal cur st → linked lvl0 cur n →
  mid lvl0 start goal cur (relax goal cur n st)
  ∧ variant lvl0 (relax goal cur n st) ≤ variant lvl0 st
  ∧ (∃ k, get_score (gScore (relax goal cur n st)) n = Finite k)
  ∧ (∀ c k, get_score (gScore st) c = Finite k →
       ∃ k', get_score (gScore (relax goal cur n st)) c = Finite k' ∧ k' ≤ k).
Proof.
  intros (I & Hcur & kc & Hkc) Hn. unfold relax. rewrite Hkc. simpl score_add.
  destruct (score_ltb (Finite (kc + 1)) (get_score (gScore st) n)) eqn:Hlt.
  2:{ split; [exact (conj I (conj Hcur (ex_intro _ kc Hkc)))|].
      split; [done|]. split; [|eauto].
      destruct (get_score (gScore st) n) as [kn|]; [eauto|done]. }
  apply score_ltb_Finite in Hlt.
  set (g' := <[n := Finite (kc + 1)]> (gScore st)).
  assert (Hncur : n ≠ cur).
  { intros ->. rewrite Hkc in Hlt. destruct Hlt as [[=]|(? & [= <-] & ?)]. lia. }
  assert (Hnstart : n ≠ start).
  { intros ->. rewrite (inv_start _ _ _ _ _ I) in Hlt.
    destruct Hlt as [[=]|(? & [= <-] & ?)]. lia. }
  assert (Hncell : n ∈ cells lvl0) by (by eapply linked_cells).
  assert (Hnpass : passable lvl0 n = true) by (by eapply linked_passable).
  assert (Hmono : ∀ c k, get_score (gScore st) c = Finite k →
            ∃ k', get_score g' c = Finite k' ∧ k' ≤ k).
  { intros c k Hc. unfold g'. rewrite get_score_insert.
    destruct (decide (n = c)) as [->|]; [|eauto].
    rewrite Hc in Hlt. destruct Hlt as [[=]|(? & [= <-] & ?)].
    exists (kc + 1). split; [done|lia]. }
  assert (Hdisc : discovered lvl0 (gScore st) ≤ discovered lvl0 g'
                  ∧ kc + 1 < discovered lvl0 g').
  { pose proof (inv_bound _ _ _ _ _ I cur kc Hkc) as [_ Hb].
    destruct Hlt as [Hinf|(kn & Hkn & Hlt)].
    - unfold g'. rewrite discovered_insert_new by done. lia.
    - unfold g'. rewrite (discovered_insert_old _ _ _ _ kn) by done.
      pose proof (inv_bound _ _ _ _ _ I n kn Hkn) as [_ Hb']. lia. }
  assert (Hslack : slack lvl0 g' < slack lvl0 (gScore st)).
  { apply slack_insert; [done|].
    destruct Hlt as [->|(kn & -> & Hlt)]; [|done].
    pose proof (discovered_le lvl0 g'). lia. }
  assert (Ig_start : get_score g' start = Finite 0).
  { unfold g'. rewrite get_score_insert_ne by done. eapply inv_start, I. }
  assert (Ig_cur : get_score g' cur = Finite kc).
  { unfold g'. by rewrite get_score_insert_ne. }
  assert (Ig_n : get_score g' n = Finite (kc + 1)).
  { unfold g'. by rewrite get_score_insert_eq. }
  assert (Ig_came : ∀ m p, <[n := cur]> (came_from st) !! m = Some p →
    ∃ gn gp, get_score g' m = Finite gn ∧ get_score g' p = Finite gp
             ∧ gp < gn ∧ linked lvl0 p m).
  { intros m p. rewrite lookup_insert. destruct (decide (n = m)) as [<-|Hne].
    - intros [= <-]. exists (kc + 1), kc. repeat split; [done|done|lia|done].
    - intros Hm. destruct (inv_came _ _ _ _ _ I m p Hm) as (gn & gp & Hgn & Hgp & Hlt' & Hl).
      destruct (Hmono _ _ Hgp) as (gp' & Hgp' & Hle).
      exists gn, gp'. repeat split; [|done|lia|done].
      unfold g'. by rewrite get_score_insert_ne. }
  assert (Ig_disc : ∀ m k, get_score g' m = Finite k →
    m = start ∨ is_Some (<[n := cur]> (came_from st) !! m)).
  { intros m k. unfold g'. rewrite get_score_insert, lookup_insert.
    destruct (decide (n = m)) as [<-|Hne]; [eauto|].
    apply (inv_disc _ _ _ _ _ I). }
  assert (Ig_bound : ∀ m k, get_score g' m = Finite k →
    m ∈ cells lvl0 ∧ k < discovered lvl0 g').
  { intros m k. unfold g' at 1. rewrite get_score_insert.
    destruct (decide (n = m)) as [<-|Hne].
    - intros [= <-]. split; [done|lia].
    - intros Hm. destruct (inv_bound _ _ _ _ _ I m k Hm). split; [done|lia]. }
  assert (Ig_reach : ∀ m k, get_score g' m = Finite k → rtc (linked lvl0) start m).
  { intros m k. unfold g'. rewrite get_score_insert.
    destruct (decide (n = m)) as [<-|Hne].
    - intros _. eapply rtc_r; [|exact Hn]. eapply inv_reach; eauto.
    - apply (inv_reach _ _ _ _ _ I). }
  assert (Ig_exp : ∀ (X : gset coord), openNodesHash st ⊆ X → n ∈ X →
    ∀ c k, get_score g' c = Finite k → c ∉ X → Some cur ≠ Some c →
    ∀ m, linked lvl0 c m → ∃ k', get_score g' m = Finite k').
  { intros X HX HnX c k Hc HcX Hcc m Hm.
    assert (c ≠ n) by (intros ->; done).
    unfold g' in Hc. rewrite get_score_insert_ne in Hc by done.
    destruct (inv_expanded _ _ _ _ _ I c k Hc) with m as [k' Hk'];
      [by intros ?%HX|done|done|].
    destruct (Hmono _ _ Hk') as (k'' & ? & _). eauto. }
  split; [|split; [|split]].
  - destruct (bool_decide (n ∈ openNodesHash st)) eqn:Hmem.
    + apply bool_decide_eq_true in Hmem.
      split; [|split; [done|by exists kc]].
      constructor; simpl; try (by destruct I).
      * intros c [k Hk]%(inv_open _ _ _ _ _ I).
        destruct (Hmono _ _ Hk) as (k' & ? & _). eauto.
      * by apply (Ig_exp (openNodesHash st)).
      * intros c k Hc Hco Hcs Hcc.
        assert (c ≠ n) by (intros ->; done).
        unfold g' in Hc. rewrite get_score_insert_ne in Hc by done.
        eapply inv_closed; eauto.
      * intros k. unfold g'. rewrite get_score_insert.
        destruct (decide (n = goal)) as [<-|Hne]; [auto|].
        apply (inv_goal _ _ _ _ _ I).
    + apply bool_decide_eq_false in Hmem.
      split; [|split; [|by exists kc]].
      2:{ intros [H%elem_of_singleton|H]%elem_of_union; [congruence|done]. }
      constructor; simpl.
      * rewrite cells_update_node. apply I.
      * intros c. rewrite node_neighbors_update_node by done. apply I.
      * intros c. unfold put. rewrite fmap_app, elem_of_app, elem_of_union.
        simpl. rewrite list_elem_of_singleton, elem_of_singleton.
        rewrite (inv_members _ _ _ _ _ I). unfold entry_node at 2. simpl. tauto.
      * unfold put. rewrite fmap_app. apply NoDup_app.
        split; [apply I|]. split; [|apply NoDup_singleton].
        intros c Hc Hc'%list_elem_of_singleton. subst c.
        apply Hmem. by apply (inv_members _ _ _ _ _ I).
      * unfold put. intros e [He|He%list_elem_of_singleton]%elem_of_app.
        -- apply (inv_counts _ _ _ _ _ I) in He. lia.
        -- subst e. unfold entry_count. simpl. lia.
      * unfold put. rewrite fmap_app. apply NoDup_app.
        split; [apply I|]. split; [|apply NoDup_singleton].
        intros k (e & -> & He)%list_elem_of_fmap Hk.
        apply list_elem_of_singleton in Hk.
        apply (inv_counts _ _ _ _ _ I) in He. unfold entry_count in Hk at 2.
        simpl in Hk. lia.
      * done.
      * done.
      * done.
      * done.
      * done.
      * intros c [Hc%elem_of_singleton|Hc]%elem_of_union; [subst c; eauto|].
        apply (inv_open _ _ _ _ _ I) in Hc as [k Hk].
        destruct (Hmono _ _ Hk) as (k' & ? & _). eauto.
      * apply Ig_exp; [apply union_subseteq_r|].
        apply elem_of_union_l. by apply elem_of_singleton.
      * intros c k Hc Hco Hcs Hcc.
        assert (c ≠ n).
        { intros ->. apply Hco, elem_of_union_l. by apply elem_of_singleton. }
        unfold g' in Hc. rewrite get_score_insert_ne in Hc by done.
        unfold node_type. rewrite node_at_update_node_ne by done.
        eapply (inv_closed _ _ _ _ _ I); eauto.
        intros ?. by apply Hco, elem_of_union_r.
      * intros c Hc. rewrite node_at_update_node_ne; [by apply I|].
        intros <-. destruct Hc as [?|Hc]; [done|]. congruence.
      * intros k. unfold g'. rewrite get_score_insert.
        destruct (decide (n = goal)) as [<-|Hne].
        -- intros _. left. apply elem_of_union_l. by apply elem_of_singleton.
        -- intros Hk. destruct (inv_goal _ _ _ _ _ I k Hk) as [?|?]; [|auto].
           left. by apply elem_of_union_r.
      * apply I.
  - unfold variant.
    destruct (bool_decide (n ∈ openNodesHash st)); simpl; fold g'.
    + lia.
    + unfold put. rewrite length_app. simpl. lia.
  - destruct (bool_decide (n ∈ openNodesHash st)); simpl; eauto.
  - destruct (bool_decide (n ∈ openNodesHash st)); simpl; eauto.
Qed.

Lemma expand_list cur l st :
  mid lvl0 start goal cur st → (∀ n, n ∈ l → linked lvl0 cur n) →
  let st' := foldl (λ s n, relax goal cur n s) st l in
  mid lvl0 start goal cur st'
  ∧ variant lvl0 st' ≤ variant lvl0 st
  ∧ (∀ n, n ∈ l → ∃ k, get_score (gScore st') n = Finite k)
  ∧ (∀ c k, get_score (gScore st) c = Finite k →
       ∃ k', get_score (gScore st') c = Finite k' ∧ k' ≤ k).
Proof.
  revert st. induction l as [|n l IH]; intros st Hmid Hl; simpl.
  - split; [done|]. split; [done|]. split; [|eauto].
    intros n Hn. by apply elem_of_nil in Hn.
  - destruct (relax_mid cur n st Hmid) as (M1 & V1 & F1 & G1).
    { apply Hl, list_elem_of_here. }
    destruct (IH (relax goal cur n st) M1) as (M2 & V2 & F2 & G2).
    { intros m Hm. by apply Hl, list_elem_of_further. }
    split; [done|]. split; [lia|]. split.
    + intros m [->|Hm]%elem_of_cons; [|by apply F2].
      destruct F1 as [k Hk]. destruct (G2 _ _ Hk) as (k' & ? & _). eauto.
    + intros c k Hc. destruct (G1 _ _ Hc) as (k1 & H1 & ?).
      destruct (G2 _ _ H1) as (k2 & H2 & ?). exists k2. split; [done|lia].
Qed.

Lemma finite_passable cur st c k :
  inv lvl0 start goal cur st → get_score (gScore st) c = Finite k → c ≠ start →
  passable lvl0 c = true.
Proof.
  intros I Hc Hne. destruct (inv_disc _ _ _ _ _ I c k Hc) as [?|[p Hp]]; [done|].
  destruct (inv_came _ _ _ _ _ I c p Hp) as (_ & _ & _ & _ & _ & Hl).
  by apply Hok in Hl as [_ ?].
Qed.

Lemma pop_mid vis st e q' :
  inv lvl0 start goal None st → get (openNodes st) = Some (e, q') →
  mid lvl0 start goal (entry_node e) (pop_step vis q' (entry_node e) st)
  ∧ S (variant lvl0 (pop_step vis q' (entry_node e) st)) = variant lvl0 st.
Proof.
  intros I Hget. apply get_perm in Hget.
  assert (Hnodes : entry_node <$> openNodes st ≡ₚ entry_node e :: (entry_node <$> q')).
  { by rewrite Hget. }
  assert (Hcounts : entry_count <$> openNodes st ≡ₚ entry_count e :: (entry_count <$> q')).
  { by rewrite Hget. }
  pose proof (inv_nodup _ _ _ _ _ I) as Hnd. rewrite Hnodes in Hnd.
  apply NoDup_cons in Hnd as [Hnotin Hnd'].
  pose proof (inv_count_nodup _ _ _ _ _ I) as Hcd. rewrite Hcounts in Hcd.
  apply NoDup_cons in Hcd as [_ Hcd'].
  assert (Hmem : ∀ c, c ∈ openNodesHash st ↔ c = entry_node e ∨ c ∈ entry_node <$> q').
  { intros c. rewrite (inv_members _ _ _ _ _ I), Hnodes. apply elem_of_cons. }
  split; [split; [|split]|].
  - constructor; simpl; try (by destruct I).
    + intros c. rewrite elem_of_difference, elem_of_singleton, Hmem.
      split; [tauto|]. intros Hc. split; [auto|]. intros ->. done.
    + intros x Hx. apply (inv_counts _ _ _ _ _ I). rewrite Hget.
      by apply list_elem_of_further.
    + intros c [Hc _]%elem_of_difference. by apply (inv_open _ _ _ _ _ I).
    + intros c k Hc Hco Hcc. apply (inv_expanded _ _ _ _ _ I c k Hc); [|done].
      intros Hin. apply Hco. apply elem_of_difference. split; [done|].
      intros ->%elem_of_singleton. done.
    + intros c k Hc Hco Hcs Hcc. apply (inv_closed _ _ _ _ _ I c k Hc); [|done|done].
      intros Hin. apply Hco. apply elem_of_difference. split; [done|].
      intros ->%elem_of_singleton. done.
    + intros k Hk. destruct (inv_goal _ _ _ _ _ I k Hk) as [Hin|?]; [|done].
      destruct (decide (goal = entry_node e)) as [->|Hne]; [by right|].
      left. apply elem_of_difference. split; [done|].
      by intros ?%elem_of_singleton.
  - simpl. intros [_ H]%elem_of_difference. apply H. by apply elem_of_singleton.
  - simpl. apply (inv_open _ _ _ _ _ I). apply Hmem. by left.
  - unfold variant. simpl. rewrite Hget. simpl. lia.
Qed.

Lemma close_inv cur st :
  mid lvl0 start goal cur st → cur ≠ goal →
  (∀ n, linked lvl0 cur n → ∃ k, get_score (gScore st) n = Finite k) →
  inv lvl0 start goal None (close_step start cur (draw_step st))
  ∧ variant lvl0 (close_step start cur (draw_step st)) = variant lvl0 st.
Proof.
  intros (I & Hcur & kc & Hkc) Hcg Hexp.
  assert (Hdraw : ∀ st', st' = draw_step st →
    close_step start cur st' =
      mkState (count st) (visualize st) (openNodes st) (came_from st)
        (gScore st) (fScore st) (openNodesHash st)
        (if bool_decide (cur ≠ start)
         then update_node set_closed cur (level st) else level st)
        (frames st')).
  { intros st' ->. unfold close_step, draw_step.
    destruct (visualize st) eqn:Hv, (bool_decide (cur ≠ start)); simpl;
      try done; destruct st; simpl in *; by subst. }
  rewrite (Hdraw _ eq_refl). split; [|done].
  assert (Hfr : ∀ frame c, frame ∈ frames (draw_step st) →
    c = start ∨ passable lvl0 c = false →
    frame_at frame c = color <$> node_at lvl0 c).
  { intros frame c Hf Hc. unfold draw_step in Hf.
    destruct (visualize st); simpl in Hf; [|by eapply inv_frames].
    apply elem_of_app in Hf as [Hf|Hf%list_elem_of_singleton];
      [by eapply inv_frames|].
    subst frame. rewrite frame_at_snapshot. f_equal. by apply I. }
  destruct (bool_decide (cur ≠ start)) eqn:Hne.
  - apply bool_decide_eq_true in Hne.
    constructor; simpl; try (by destruct I).
    + rewrite cells_update_node. apply I.
    + intros c. rewrite node_neighbors_update_node by done. apply I.
    + intros c k Hc Hco _ n Hn.
      destruct (decide (c = cur)) as [->|Hcc]; [by apply Hexp|].
      eapply (inv_expanded _ _ _ _ _ I); eauto. congruence.
    + intros c k Hc Hco Hcs _. unfold node_type.
      rewrite node_at_update_node. destruct (decide (cur = c)) as [<-|Hcc].
      * destruct (inv_bound _ _ _ _ _ I cur kc Hkc) as [Hcell _].
        rewrite <- (inv_cells _ _ _ _ _ I) in Hcell.
        apply elem_of_cells in Hcell as [nd ->]. done.
      * eapply (inv_closed _ _ _ _ _ I); eauto. congruence.
    + intros c Hc. rewrite node_at_update_node_ne; [by apply I|].
      intros <-. destruct Hc as [?|Hc]; [done|].
      rewrite (finite_passable _ _ _ _ I Hkc Hne) in Hc. done.
    + intros k Hk. destruct (inv_goal _ _ _ _ _ I k Hk) as [?|?]; [auto|].
      congruence.
  - apply bool_decide_eq_false in Hne. apply dec_stable in Hne. subst cur.
    constructor; simpl; try (by destruct I).
    + intros c k Hc Hco _ n Hn.
      destruct (decide (c = start)) as [->|Hcc]; [by apply Hexp|].
      eapply (inv_expanded _ _ _ _ _ I); eauto. congruence.
    + intros c k Hc Hco Hcs _.
      eapply (inv_closed _ _ _ _ _ I); eauto. congruence.
    + intros k Hk. destruct (inv_goal _ _ _ _ _ I k Hk) as [?|?]; [auto|].
      congruence.
Qed.

Lemma handle_events_quits evs vis :
  handle_events evs vis = None ↔ quits evs = true.
Proof.
  revert vis. induction evs as [|[|[]|] evs IH]; intros vis; simpl; try done.
  all: apply IH.
Qed.

Lemma no_exit_head events vis :
  no_exit events → handle_events (default [] (head events)) vis ≠ None.
Proof.
  intros H. rewrite handle_events_quits. destruct H as [|evs rest Hq _]; simpl.
  - done.
  - by rewrite Hq.
Qed.

Lemma no_exit_tail events : no_exit events → no_exit (tail events).
Proof. intros [|evs rest _ H]; simpl; [constructor|done]. Qed.

Lemma search_spec fuel events st :
  inv lvl0 start goal None st → variant lvl0 st < fuel →
  ∃ o st', search fuel events start goal st = Some (o, st')
           ∧ post lvl0 start goal o st'
           ∧ (no_exit events → o ≠ Exited).
Proof.
  revert events st. induction fuel as [|fuel IH]; intros events st I Hv; [lia|].
  simpl. destruct (get (openNodes st)) as [[[[p k] cur] q']|] eqn:Hget.
  2:{ exists NotFound, st. split; [done|]. split; [|done].
      split; [done|]. by apply get_None. }
  destruct (handle_events (default [] (head events)) (visualize st))
    as [vis|] eqn:Hev.
  2:{ exists Exited, st. split; [done|]. split; [done|].
      intros Hne. by apply no_exit_head with (vis := visualize st) in Hne. }
  destruct (pop_mid vis st _ q' I Hget) as [M1 V1].
  unfold entry_node in M1, V1. simpl in M1, V1.
  set (st1 := pop_step vis q' cur st) in *.
  destruct (bool_decide (cur = goal)) eqn:Hg.
  - apply bool_decide_eq_true in Hg. subst cur.
    destruct M1 as (I1 & Hc1 & kc & Hkc).
    destruct (inv_bound _ _ _ _ _ I1 goal kc Hkc) as [_ Hb].
    pose proof (discovered_le lvl0 (gScore st1)) as Hd.
    destruct (reconstruct_path_walk (came_from st) (gScore st)) with
      (fuel := walk_fuel (update_node set_goal goal (level st)))
      (cur := goal) (k := kc)
      (lvl := update_node set_goal goal (level st)) (fr := frames st)
      as (walk & Hrec & Hw & Hlen).
    { intros n q Hq. destruct (inv_came _ _ _ _ _ I1 n q Hq)
        as (gn & gp & ? & ? & ? & _). eauto. }
    { done. }
    { unfold walk_fuel. rewrite cells_update_node.
      rewrite (inv_cells _ _ _ _ _ I). simpl in Hb, Hd. lia. }
    rewrite Hrec. eexists _, _. split; [done|]. split; [|done].
    exists st1, walk. simpl.
    split; [exact (conj I1 (conj Hc1 (ex_intro _ kc Hkc)))|].
    split; [done|]. split; [|done].
    eapply (walk_ends (came_from st1) (gScore st1)); eauto.
    + intros n q Hq. destruct (inv_came _ _ _ _ _ I1 n q Hq)
        as (gn & gp & ? & ? & ? & _). eauto.
    + apply (inv_disc _ _ _ _ _ I1).
  - unfold expand.
    assert (Hn : node_neighbors (level st1) cur = node_neighbors lvl0 cur).
    { destruct M1 as (I1 & _). apply (inv_nbrs _ _ _ _ _ I1). }
    rewrite Hn.
    destruct (expand_list cur (node_neighbors lvl0 cur) st1 M1)
      as (M2 & V2 & F2 & _); [done|].
    destruct (close_inv cur _ M2) as [I4 V4];
      [by apply bool_decide_eq_false in Hg|done|].
    destruct (IH (tail events) _ I4) as (o & st' & Hs & Hp & Hx); [lia|].
    exists o, st'. split; [done|]. split; [done|].
    intros Hne. by apply Hx, no_exit_tail.
Qed.

Lemma variant_init : variant lvl0 (init_state lvl0 start goal) < search_fuel lvl0.
Proof.
  unfold variant, search_fuel. simpl.
  pose proof (slack_le lvl0 (<[start:=Finite 0]> (inf_scores lvl0))) as H.
  assert (slack lvl0 (<[start:=Finite 0]> (inf_scores lvl0))
          ≤ length (cells lvl0) * length (cells lvl0)); [|lia].
  apply H. intros c k Hc.
  destruct (inv_bound _ _ _ _ _ (inv_init) c k Hc) as [_ Hb].
  pose proof (discovered_le lvl0 (<[start:=Finite 0]> (inf_scores lvl0))).
  simpl in Hb. lia.
Qed.

Lemma find_path_spec events :
  ∃ o st', find_path events lvl0 start goal = Some (o, st')
           ∧ post lvl0 start goal o st'
           ∧ (no_exit events → o ≠ Exited).
Proof.
  unfold find_path. apply search_spec; [apply inv_init|apply variant_init].
Qed.

(** The tables of the final state satisfy the invariant. *)
Lemma post_tables o st' :
  post lvl0 start goal o st' →
  ∃ cur st1, inv lvl0 start goal cur st1
             ∧ came_from st' = came_from st1 ∧ gScore st' = gScore st1.
Proof.
  destruct o as [path| |]; simpl.
  - intros (st1 & walk & (I & _) & _ & _ & _ & ? & ? & _). eauto.
  - intros [I _]. eauto.
  - intros I. eauto.
Qed.

(** No two entries of the queue carry the same insertion count. *)
Lemma post_counts o st' :
  post lvl0 start goal o st' → NoDup (entry_count <$> openNodes st').
Proof.
  destruct o as [path| |]; simpl.
  - intros (st1 & walk & (I & _) & _ & _ & _ & _ & _ & _ & _ & ->).
    apply (inv_count_nodup _ _ _ _ _ I).
  - intros [I _]. apply (inv_count_nodup _ _ _ _ _ I).
  - intros I. apply (inv_count_nodup _ _ _ _ _ I).
Qed.

Lemma steps_ok_snoc l p c :
  steps_ok l = true → last l = Some p → adjacent4 p c = true →
  steps_ok (l ++ [c]) = true.
Proof.
  intros Hl Hp Hpc. induction l as [|a [|b l] IH]; simpl in *.
  - done.
  - injection Hp as ->. by rewrite Hpc.
  - apply andb_true_iff in Hl as [-> Hl]. simpl. apply IH; done.
Qed.

Lemma walk_valid cur st1 walk c k :
  inv lvl0 start goal cur st1 → passable lvl0 start = true →
  get_score (gScore st1) c = Finite k → is_walk (came_from st1) c walk →
  steps_ok (reverse (c :: walk)) = true
  ∧ Forall (λ x, passable lvl0 x = true) (c :: walk).
Proof.
  intros I Hps. revert c k.
  assert (Hpass : ∀ x j, get_score (gScore st1) x = Finite j →
            passable lvl0 x = true).
  { intros x j Hx. destruct (decide (x = start)) as [->|Hne]; [done|].
    by eapply finite_passable. }
  induction walk as [|p walk IH]; intros c k Hc Hw; simpl in Hw.
  - split; [done|]. constructor; [by eapply Hpass|constructor].
  - destruct Hw as [Hp Hw].
    destruct (inv_came _ _ _ _ _ I c p Hp) as (gn & gp & _ & Hgp & _ & Hl).
    destruct (IH p gp Hgp Hw) as [IH1 IH2]. split.
    + rewrite reverse_cons. eapply steps_ok_snoc; [done| |].
      * rewrite last_reverse. done.
      * by apply Hok in Hl as [? _].
    + constructor; [by eapply Hpass|done].
Qed.

Lemma found_valid path st' :
  passable lvl0 start = true → post lvl0 start goal (Found path) st' →
  valid_path lvl0 start goal path = true.
Proof.
  intros Hps (st1 & walk & (I & _ & k & Hk) & Hw & Hlast & -> & _).
  destruct (walk_valid _ _ _ _ _ I Hps Hk Hw) as [Hs Hf].
  unfold valid_path. rewrite head_reverse, last_reverse, Hlast, Hs.
  repeat (apply andb_true_iff; split);
    try (by apply bool_decide_eq_true_2); try done.
  apply forallb_forall. intros x Hx. apply list_elem_of_In in Hx.
  rewrite elem_of_reverse in Hx. by apply (proj1 (Forall_forall _ _) Hf).
Qed.

(** Everything the finished search has reached is linked to the start,
    and when the queue has run empty everything linked to the start has
    been reached and closed. *)
Lemma exhausted st' c :
  inv lvl0 start goal None st' → openNodes st' = [] →
  rtc (linked lvl0) start c →
  (∃ k, get_score (gScore st') c = Finite k)
  ∧ (c ≠ start → node_type (level st') c = Some CLOSED).
Proof.
  intros I Hq Hr.
  assert (Hempty : ∀ x, x ∉ openNodesHash st').
  { intros x Hx. apply (inv_members _ _ _ _ _ I) in Hx.
    rewrite Hq in Hx. by apply elem_of_nil in Hx. }
  assert (Hfin : ∃ k, get_score (gScore st') c = Finite k).
  { refine (rtc_ind_r (λ c, ∃ k, get_score (gScore st') c = Finite k)
              start _ _ c Hr).
    - exists 0. apply (inv_start _ _ _ _ _ I).
    - intros y z _ Hyz [k Hk].
      eapply (inv_expanded _ _ _ _ _ I y k); eauto. }
  split; [done|]. intros Hne. destruct Hfin as [k Hk].
  eapply (inv_closed _ _ _ _ _ I); eauto.
Qed.

Lemma found_reachable path st' :
  post lvl0 start goal (Found path) st' → rtc (linked lvl0) start goal.
Proof.
  intros (st1 & walk & (I & _ & k & Hk) & _). by eapply inv_reach.
Qed.

Lemma not_found_unreachable st' :
  post lvl0 start goal NotFound st' → ¬ rtc (linked lvl0) start goal.
Proof.
  intros [I Hq] Hr. destruct (exhausted _ _ I Hq Hr) as [[k Hk] _].
  destruct (inv_goal _ _ _ _ _ I k Hk) as [Hin|?]; [|done].
  apply (inv_members _ _ _ _ _ I) in Hin. rewrite Hq in Hin.
  by apply elem_of_nil in Hin.
Qed.

Lemma mark_walk_frame walk lvl c :
  (c ∈ walk → ∃ nd, node_at lvl c = Some nd ∧ mark_path nd = nd) →
  node_at (mark_walk walk lvl) c = node_at lvl c.
Proof.
  revert lvl. induction walk as [|p walk IH]; intros lvl Hc; simpl; [done|].
  assert (Hstep : node_at (update_node mark_path p lvl) c = node_at lvl c).
  { rewrite node_at_update_node. destruct (decide (p = c)) as [->|]; [|done].
    destruct Hc as (nd & -> & Hnd); [apply list_elem_of_here|]. simpl.
    by rewrite Hnd. }
  unfold mark_walk in *. simpl. rewrite IH; [done|].
  intros Hin. rewrite Hstep. apply Hc. by apply list_elem_of_further.
Qed.

Lemma walk_frames_frame walk lvl c frame :
  (c ∈ walk → ∃ nd, node_at lvl c = Some nd ∧ mark_path nd = nd) →
  frame ∈ walk_frames walk lvl → frame_at frame c = color <$> node_at lvl c.
Proof.
  revert lvl. induction walk as [|p walk IH]; intros lvl Hc; simpl.
  - by intros ?%elem_of_nil.
  - assert (Hstep : node_at (update_node mark_path p lvl) c = node_at lvl c).
    { rewrite node_at_update_node. destruct (decide (p = c)) as [->|]; [|done].
      destruct Hc as (nd & -> & Hnd); [apply list_elem_of_here|]. simpl.
      by rewrite Hnd. }
    intros [->|Hf]%elem_of_cons.
    + by rewrite frame_at_snapshot, Hstep.
    + rewrite <- Hstep. apply IH; [|done].
      intros Hin. rewrite Hstep. apply Hc. by apply list_elem_of_further.
Qed.

Lemma is_walk_finite cur st1 walk c p :
  inv lvl0 start goal cur st1 → is_walk (came_from st1) c walk → p ∈ walk →
  ∃ k, get_score (gScore st1) p = Finite k.
Proof.
  intros I. revert c. induction walk as [|q walk IH]; intros c Hw Hp; simpl in Hw.
  - by apply elem_of_nil in Hp.
  - destruct Hw as [Hq Hw]. apply elem_of_cons in Hp as [->|Hp]; [|by eapply IH].
    destruct (inv_came _ _ _ _ _ I c q Hq) as (_ & gp & _ & ? & _). eauto.
Qed.

(** The cells that the search leaves alone: the obstacles (and whatever
    lies outside the level), and the start cell as long as it is not the
    goal as well. *)
Lemma post_frame o st' c :
  node_type lvl0 start = Some START →
  post lvl0 start goal o st' →
  (c = start ∧ start ≠ goal) ∨ passable lvl0 c = false →
  node_at (level st') c = node_at lvl0 c
  ∧ ∀ frame, frame ∈ frames st' → frame_at frame c = color <$> node_at lvl0 c.
Proof.
  intros Hty Hpost Hc.
  assert (Hc' : c = start ∨ passable lvl0 c = false) by tauto.
  assert (Hps : passable lvl0 start = true).
  { apply passable_type. eauto. }
  destruct o as [path| |]; simpl in Hpost.
  - destruct Hpost as (st1 & walk & (I & _ & kg & Hkg) & Hw & _ & _ & _ & _ & Hl & Hf & _).
    assert (Hcg : c ≠ goal).
    { intros ->. destruct Hc as [[? ?]|Hc]; [done|].
      destruct (decide (goal = start)) as [->|Hne]; [congruence|].
      rewrite (finite_passable _ _ _ _ I Hkg Hne) in Hc. done. }
    assert (Hgoal : node_at (update_node set_goal goal (level st1)) c
                    = node_at lvl0 c).
    { rewrite node_at_update_node_ne by done. by apply I. }
    assert (Hwalk : c ∈ walk →
      ∃ nd, node_at (update_node set_goal goal (level st1)) c = Some nd
            ∧ mark_path nd = nd).
    { intros Hin. rewrite Hgoal.
      destruct (is_walk_finite _ _ _ _ _ I Hw Hin) as [k Hk].
      destruct (decide (c = start)) as [->|Hne].
      - unfold node_type in Hty. destruct (node_at lvl0 start) as [nd|]; [|done].
        injection Hty as Hty. exists nd. split; [done|].
        unfold mark_path, is_start. rewrite Hty. done.
      - destruct Hc as [[? ?]|Hc]; [done|].
        rewrite (finite_passable _ _ _ _ I Hk Hne) in Hc. done. }
    split.
    + rewrite Hl, mark_walk_frame; done.
    + intros frame. rewrite Hf. intros [Hin|Hin]%elem_of_app.
      * by eapply inv_frames.
      * rewrite <- Hgoal. by eapply walk_frames_frame.
  - destruct Hpost as [I _]. split; [by apply I|].
    intros frame Hin. by eapply inv_frames.
  - split; [by apply Hpost|]. intros frame Hin. by eapply inv_frames.
Qed.
End search.


(* ===================================================================== *)
(** ** The search on a level whose neighbours [main] has updated *)
(* ===================================================================== *)

Section prepared_level.
Variables (lvl : list (list Node)) (start goal : coord).

Lemma elem_of_cells_update_all c :
  c ∈ cells (update_all_neighbors lvl) ↔ is_Some (node_at lvl c).
Proof.
  rewrite elem_of_cells, node_at_update_all_neighbors.
  destruct (node_at lvl c); simpl; split; intros [? ?]; eauto; done.
Qed.

Lemma valid_path_update_all path :
  valid_path (update_all_neighbors lvl) start goal path
  = valid_path lvl start goal path.
Proof.
  unfold valid_path. f_equal.
  induction path as [|c path IH]; simpl; [done|].
  by rewrite passable_update_all_neighbors, IH.
Qed.

Lemma passable_in_level c : passable lvl c = true → is_Some (node_at lvl c).
Proof. unfold passable. destruct (node_at lvl c); [eauto|done]. Qed.

Lemma typed_in_level c t : node_type lvl c = Some t → is_Some (node_at lvl c).
Proof. unfold node_type. destruct (node_at lvl c); [eauto|done]. Qed.

(** When the goal can be reached and nobody quits, the search returns
    [True]. *)
Lemma find_path_found events :
  no_exit events → is_Some (node_at lvl start) →
  rtc (linked (update_all_neighbors lvl)) start goal →
  ∃ path st,
    find_path events (update_all_neighbors lvl) start goal
      = Some (Found path, st).
Proof.
  intros Hne Hs Hr.
  destruct (find_path_spec (update_all_neighbors lvl) start goal
              (neighbors_ok_update_all lvl)
              (proj2 (elem_of_cells_update_all start) Hs) events)
    as (o & st & Hfp & Hpost & Hx).
  destruct o as [path| |].
  - eauto.
  - exfalso. eapply not_found_unreachable; eauto using neighbors_ok_update_all.
  - by destruct (Hx Hne).
Qed.
End prepared_level.

(* ===================================================================== *)
(** ** The neighbour lists of a rectangular level *)
(* ===================================================================== *)

Section rectangular_level.
Variable lvl : list (list Node).

(** On every level the neighbour lists only follow steps of the grid. *)
Lemma linked_grid_step a b :
  linked (update_all_neighbors lvl) a b → grid_step lvl a b.
Proof.
  intros H. pose proof (neighbors_ok_update_all lvl a b H) as [Ha Hp].
  rewrite passable_update_all_neighbors in Hp. split; [|done].
  unfold linked, node_neighbors in H. rewrite node_at_update_all_neighbors in H.
  destruct (node_at lvl a); [eauto|]. by apply elem_of_nil in H.
Qed.

Lemma look_total guard c acc :
  (guard = true → is_Some (node_at lvl c)) →
  look lvl guard c acc
  = inr (if guard && passable lvl c then acc ++ [c] else acc).
Proof.
  unfold look, passable. destruct guard; simpl; [|done].
  intros [n ->]; [done|]. by destruct (is_obstacle n).
Qed.

Lemma snoc_if_keep (b : bool) (acc : list coord) (x y : coord) :
  x ∈ acc → x ∈ (if b then acc ++ [y] else acc).
Proof. destruct b; [|done]. intros ?. apply elem_of_app. by left. Qed.

Lemma snoc_if_add (b : bool) (acc : list coord) (y : coord) :
  b = true → y ∈ (if b then acc ++ [y] else acc).
Proof. intros ->. apply elem_of_app. right. apply list_elem_of_here. Qed.

Hypothesis Hrect : rectangular lvl.

(** On a rectangular level they follow all of them: the search walks the
    4-connected grid of the cells that are not obstacles. *)
Lemma grid_step_linked a b :
  grid_step lvl a b → linked (update_all_neighbors lvl) a b.
Proof.
  destruct Hrect as [cols Hcols]. intros ([nd Hnd] & Hadj & Hp).
  assert (Hat : ∀ r c, r < length lvl → c < cols → is_Some (node_at lvl (r, c))).
  { intros r c Hr Hc. unfold node_at. simpl.
    destruct (lookup_lt_is_Some_2 lvl r Hr) as [line Hline]. rewrite Hline. simpl.
    apply lookup_lt_is_Some_2.
    destruct (Hcols line) as [-> _]; [|done]. by eapply list_elem_of_lookup_2. }
  assert (Hin : ∀ r c, is_Some (node_at lvl (r, c)) → r < length lvl ∧ c < cols).
  { intros r c [n Hn]. unfold node_at in Hn. simpl in Hn.
    destruct (lvl !! r) as [line|] eqn:Hline; [|done]. simpl in Hn.
    split; [by eapply lookup_lt_Some|].
    destruct (Hcols line) as [<- _]; [by eapply list_elem_of_lookup_2|].
    by eapply lookup_lt_Some. }
  destruct a as [row col].
  assert (Hnd' : totalRows nd = length lvl ∧ totalCols nd = cols).
  { unfold node_at in Hnd. simpl in Hnd.
    destruct (lvl !! row) as [line|] eqn:Hline; [|done]. simpl in Hnd.
    destruct (Hcols line) as [_ Hn]; [by eapply list_elem_of_lookup_2|].
    apply Hn. by eapply list_elem_of_lookup_2. }
  destruct Hnd' as [Hrows Hcolsn].
  destruct (Hin row col) as [Hrow Hcol]; [eauto|].
  assert (Hb : is_Some (node_at lvl b)).
  { unfold passable in Hp. destruct (node_at lvl b); [eauto|done]. }
  destruct b as [row' col']. destruct (Hin row' col' Hb) as [Hrow' Hcol'].
  unfold linked, node_neighbors. rewrite node_at_update_all_neighbors, Hnd.
  simpl. unfold neighbors_of. simpl. rewrite Hrows, Hcolsn.
  rewrite (look_total _ (row - 1, col)); simpl.
  2:{ intros H%Z.ltb_lt. apply Hat; lia. }
  rewrite (look_total _ (row + 1, col)); simpl.
  2:{ intros H%Z.ltb_lt. apply Hat; lia. }
  rewrite (look_total _ (row, col - 1)); simpl.
  2:{ intros H%Z.ltb_lt. apply Hat; lia. }
  rewrite (look_total _ (row, col + 1)); simpl.
  2:{ intros H%Z.ltb_lt. apply Hat; lia. }
  unfold adjacent4 in Hadj. simpl in Hadj.
  apply orb_true_iff in Hadj as [H|H]; apply bool_decide_eq_true in H;
    destruct H as [<- [-> | ->]].
  - (* left *)
    apply snoc_if_keep. replace (S col' - 1) with col' by lia.
    apply snoc_if_add. rewrite Hp, andb_true_r. apply Z.ltb_lt. lia.
  - (* right *)
    replace (col + 1) with (S col) by lia.
    apply snoc_if_add. rewrite Hp, andb_true_r. apply Z.ltb_lt. lia.
  - (* up *)
    do 3 apply snoc_if_keep. replace (S row' - 1) with row' by lia.
    apply (snoc_if_add _ [] (row', col)).
    rewrite Hp, andb_true_r. apply Z.ltb_lt. lia.
  - (* down *)
    do 2 apply snoc_if_keep. replace (row + 1) with (S row) by lia.
    apply snoc_if_add. rewrite Hp, andb_true_r. apply Z.ltb_lt. lia.
Qed.

Lemma rtc_linked_grid_step a b :
  rtc (linked (update_all_neighbors lvl)) a b ↔ rtc (grid_step lvl) a b.
Proof.
  split; apply rtc_subrel; intros x y;
    [apply linked_grid_step|apply grid_step_linked].
Qed.
End rectangular_level.

(* ===================================================================== *)
(** ** Properties of [find_path] *)
(* ===================================================================== *)

(** C8.  When start and goal are the same node, [find_path] returns [True]
    in its first iteration (unless that very iteration receives a quit
    event), and the path it walks is the single node. *)
Theorem find_path_start_is_goal (events : list (list Event))
    (lvl : list (list Node)) (start : coord) :
  quits (default [] (head events)) = false →
  ∃ st, find_path events lvl start start = Some (Found [start], st).
Proof.
  intros Hq. unfold find_path, search_fuel.
  rewrite Nat.add_comm. simpl.
  destruct (handle_events (default [] (head events)) true) as [vis|] eqn:Hev.
  2:{ apply handle_events_quits in Hev. congruence. }
  rewrite decide_True by done. simpl.
  rewrite bool_decide_eq_true_2 by done.
  assert (Hrec : ∀ fuel l f,
    reconstruct_path fuel (∅ : gmap coord coord) start l f = Some ([], l, f)).
  { intros [|fuel] l f; simpl; by rewrite lookup_empty. }
  rewrite Hrec. eauto.
Qed.

Lemma find_path_start_is_goal_witness :
  ∃ st, find_path [[OTHER_EVENT]] (level_of "S.#") (0, 0) (0, 0)
        = Some (Found [(0, 0)], st).
Proof.
  apply (find_path_start_is_goal [[OTHER_EVENT]] (level_of "S.#") (0, 0)).
  reflexivity.
Defined.

(** C7.  The path of a successful search starts at start, ends at goal,
    moves between 4-adjacent positions and meets no obstacle; the search
    itself always ends. *)
Theorem found_path_valid (events : list (list Event))
    (lvl : list (list Node)) (start goal : coord) :
  passable lvl start = true →
  ∃ o st,
    find_path events (update_all_neighbors lvl) start goal = Some (o, st)
    ∧ ∀ path, o = Found path → valid_path lvl start goal path = true.
Proof.
  intros Hps.
  destruct (find_path_spec (update_all_neighbors lvl) start goal
              (neighbors_ok_update_all lvl)
              (proj2 (elem_of_cells_update_all lvl start)
                 (passable_in_level lvl start Hps)) events)
    as (o & st & Hfp & Hpost & _).
  exists o, st. split; [done|]. intros path ->.
  rewrite <- valid_path_update_all.
  eapply found_valid; eauto using neighbors_ok_update_all.
  by rewrite passable_update_all_neighbors.
Qed.

Lemma found_path_valid_witness :
  ∃ o st,
    find_path [] (update_all_neighbors (level_of (rows_text ["S#G"; "..."])))
      (0, 0) (0, 2) = Some (o, st)
    ∧ ∀ path, o = Found path →
        valid_path (level_of (rows_text ["S#G"; "..."])) (0, 0) (0, 2) path
        = true.
Proof.
  apply (found_path_valid [] (level_of (rows_text ["S#G"; "..."]))
           (0, 0) (0, 2)).
  reflexivity.
Defined.

(** C6.  In every state the search can end in, also when it is interrupted
    in the middle, each predecessor recorded in [came_from] has a strictly
    smaller gScore than its successor.  Hence the loop of
    [reconstruct_path], started at any node that the search has reached,
    ends after at most gScore-many steps, and it ends at start; when the
    search returns [True] the goal is such a node. *)
Theorem came_from_walk_ends (events : list (list Event))
    (lvl : list (list Node)) (start goal : coord) :
  is_Some (node_at lvl start) →
  ∃ o st,
    find_path events (update_all_neighbors lvl) start goal = Some (o, st)
    ∧ (∀ n p, came_from st !! n = Some p →
         ∃ gn gp, get_score (gScore st) n = Finite gn
                  ∧ get_score (gScore st) p = Finite gp ∧ gp < gn)
    ∧ (∀ c k l f, get_score (gScore st) c = Finite k →
         ∃ walk,
           reconstruct_path k (came_from st) c l f
             = Some (walk, mark_walk walk l, f ++ walk_frames walk l)
           ∧ last (c :: walk) = Some start ∧ length walk ≤ k)
    ∧ (∀ path, o = Found path →
         ∃ k walk, get_score (gScore st) goal = Finite k
                   ∧ is_walk (came_from st) goal walk
                   ∧ last (goal :: walk) = Some start
                   ∧ path = reverse (goal :: walk)).
Proof.
  intros Hs.
  destruct (find_path_spec (update_all_neighbors lvl) start goal
              (neighbors_ok_update_all lvl)
              (proj2 (elem_of_cells_update_all lvl start) Hs) events)
    as (o & st & Hfp & Hpost & _).
  exists o, st. split; [done|].
  destruct (post_tables _ _ _ _ _ Hpost) as (cur & st1 & I & Hcf & Hg).
  rewrite Hcf, Hg.
  assert (Hcame : ∀ n p, came_from st1 !! n = Some p →
    ∃ gn gp, get_score (gScore st1) n = Finite gn
             ∧ get_score (gScore st1) p = Finite gp ∧ gp < gn).
  { intros n p Hp. destruct (inv_came _ _ _ _ _ I n p Hp)
      as (gn & gp & ? & ? & ? & _). eauto. }
  split; [done|]. split.
  - intros c k l f Hk.
    destruct (reconstruct_path_walk _ _ Hcame k c k l f Hk) as (walk & Hr & Hw & Hlen);
      [done|].
    exists walk. split; [done|]. split; [|done].
    eapply (walk_ends (came_from st1) (gScore st1)); eauto.
    + intros n p Hp. destruct (Hcame n p Hp) as (_ & gp & _ & ? & _). eauto.
    + apply (inv_disc _ _ _ _ _ I).
  - intros path ->. simpl in Hpost.
    destruct Hpost as (st2 & walk & (_ & _ & k & Hk) & Hw & Hl & -> & Hcf' & Hg' & _).
    exists k, walk. rewrite <- Hcf, <- Hg, Hcf', Hg'. done.
Qed.

Lemma came_from_walk_ends_witness :
  ∃ o st,
    find_path [] (update_all_neighbors (level_of "S.G")) (0, 0) (0, 2)
      = Some (o, st)
    ∧ (∀ n p, came_from st !! n = Some p →
         ∃ gn gp, get_score (gScore st) n = Finite gn
                  ∧ get_score (gScore st) p = Finite gp ∧ gp < gn)
    ∧ (∀ c k l f, get_score (gScore st) c = Finite k →
         ∃ walk,
           reconstruct_path k (came_from st) c l f
             = Some (walk, mark_walk walk l, f ++ walk_frames walk l)
           ∧ last (c :: walk) = Some (0, 0) ∧ length walk ≤ k)
    ∧ (∀ path, o = Found path →
         ∃ k walk, get_score (gScore st) (0, 2) = Finite k
                   ∧ is_walk (came_from st) (0, 2) walk
                   ∧ last ((0, 2) :: walk) = Some (0, 0)
                   ∧ path = reverse ((0, 2) :: walk)).
Proof.
  apply (came_from_walk_ends [] (level_of "S.G") (0, 0) (0, 2)).
  vm_compute. eauto.
Defined.




(** In terms of the neighbour lists that [update_neighbors] has built:
    when the goal cannot be reached along them and nobody quits, the
    search returns [False], and every cell read as ['.'] that can be
    reached along them is marked closed at the end. *)
Lemma unreachable_not_found (events : list (list Event))
    (lvl : list (list Node)) (start goal : coord) :
  no_exit events →
  node_type lvl start = Some START →
  ¬ rtc (linked (update_all_neighbors lvl)) start goal →
  ∃ st,
    find_path events (update_all_neighbors lvl) start goal
      = Some (NotFound, st)
    ∧ ∀ c, rtc (linked (update_all_neighbors lvl)) start c →
           node_type lvl c = Some UNVISITED →
           node_type (level st) c = Some CLOSED.
Proof.
  intros Hne Hty Hun. set (lvl0 := update_all_neighbors lvl) in *.
  assert (Hok : neighbors_ok lvl0) by apply neighbors_ok_update_all.
  assert (Hs : start ∈ cells lvl0).
  { apply elem_of_cells_update_all. by eapply typed_in_level. }
  destruct (find_path_spec lvl0 start goal Hok Hs events)
    as (o & st & Hfp & Hpost & Hx).
  destruct o as [path| |].
  - destruct Hun. by eapply found_reachable.
  - exists st. split; [done|]. intros c Hr Hc.
    destruct Hpost as [I Hq].
    destruct (exhausted lvl0 start goal st c I Hq Hr) as [_ Hcl].
    apply Hcl. intros ->. congruence.
  - by destruct (Hx Hne).
Qed.

Lemma unreachable_not_found_example :
  ∃ st,
    find_path [] (update_all_neighbors (level_of ".S#G")) (0, 1) (0, 3)
      = Some (NotFound, st)
    ∧ ∀ c, rtc (linked (update_all_neighbors (level_of ".S#G"))) (0, 1) c →
           node_type (level_of ".S#G") c = Some UNVISITED →
           node_type (level st) c = Some CLOSED.
Proof.
  apply (unreachable_not_found [] (level_of ".S#G") (0, 1) (0, 3)).
  - constructor.
  - reflexivity.
  - intros H.
    assert (Hall : ∀ c, rtc (linked (update_all_neighbors (level_of ".S#G")))
                          (0, 1) c → c = (0, 1) ∨ c = (0, 0)).
    { intros c Hc.
      refine (rtc_ind_r (λ c, c = (0, 1) ∨ c = (0, 0)) (0, 1) _ _ c Hc);
        [by left|].
      intros y z _ Hyz [->| ->]; vm_compute in Hyz;
        apply list_elem_of_singleton in Hyz as ->; auto. }
    destruct (Hall _ H) as [[=]|[=]].
Qed.

(** C2.  The grid is the level itself: a step leads from a cell of the
    level to a 4-adjacent cell of the level that is not an obstacle
    ([grid_step]).  When the goal cannot be reached from start by such
    steps and nobody quits, the search returns [False]; and on a
    rectangular level every cell that can be reached from start by such
    steps, start apart (line 179), is marked closed at the end.  The
    cells reached are never obstacles, so these are the passable cells. *)
Theorem not_found_on_grid (events : list (list Event))
    (lvl : list (list Node)) (start goal : coord) :
  no_exit events →
  is_Some (node_at lvl start) →
  ¬ rtc (grid_step lvl) start goal →
  ∃ st,
    find_path events (update_all_neighbors lvl) start goal
      = Some (NotFound, st)
    ∧ (rectangular lvl →
       ∀ c, rtc (grid_step lvl) start c → c ≠ start →
            passable lvl c = true
            ∧ node_type (level st) c = Some CLOSED).
Proof.
  intros Hne Hin Hun. set (lvl0 := update_all_neighbors lvl).
  assert (Hok : neighbors_ok lvl0) by apply neighbors_ok_update_all.
  assert (Hs : start ∈ cells lvl0) by by apply elem_of_cells_update_all.
  destruct (find_path_spec lvl0 start goal Hok Hs events)
    as (o & st & Hfp & Hpost & Hx).
  destruct o as [path| |].
  - destruct Hun. eapply rtc_subrel; [|by eapply found_reachable].
    intros x y. apply linked_grid_step.
  - exists st. split; [done|]. intros Hrect c Hr Hc. split.
    + apply rtc_inv_r in Hr as [->|(b & _ & _ & _ & Hp)]; done.
    + apply rtc_linked_grid_step in Hr; [|done].
      destruct Hpost as [I Hq].
      destruct (exhausted lvl0 start goal st c I Hq Hr) as [_ Hcl].
      by apply Hcl.
  - by destruct (Hx Hne).
Qed.

Lemma not_found_on_grid_witness :
  ∃ st,
    find_path [] (update_all_neighbors (level_of ".S#G")) (0, 1) (0, 3)
      = Some (NotFound, st)
    ∧ ∀ c, rtc (grid_step (level_of ".S#G")) (0, 1) c → c ≠ (0, 1) →
           passable (level_of ".S#G") c = true
           ∧ node_type (level st) c = Some CLOSED.
Proof.
  destruct (not_found_on_grid [] (level_of ".S#G") (0, 1) (0, 3))
    as (st & Hf & Hc).
  - constructor.
  - eexists. reflexivity.
  - intros H.
    assert (Hall : ∀ c, rtc (grid_step (level_of ".S#G")) (0, 1) c →
                        c = (0, 1) ∨ c = (0, 0)).
    { intros c Hc.
      refine (rtc_ind_r (λ c, c = (0, 1) ∨ c = (0, 0)) (0, 1) _ _ c Hc);
        [by left|].
      intros y z _ (_ & Hadj & Hp) Hy.
      pose proof (passable_cells _ _ Hp) as Hz. vm_compute in Hz.
      repeat (apply elem_of_cons in Hz as [->|Hz]);
        [by right|by left|discriminate Hp| |by apply elem_of_nil in Hz].
      destruct Hy as [-> | ->]; discriminate Hadj. }
    destruct (Hall _ H) as [[=]|[=]].
  - exists st. split; [exact Hf|]. apply Hc.
    exists 4. intros line Hl. vm_compute in Hl.
    apply list_elem_of_singleton in Hl as ->. split; [reflexivity|].
    intros n Hn.
    repeat (apply elem_of_cons in Hn as [->|Hn]); try (split; reflexivity).
    by apply elem_of_nil in Hn.
Defined.

(** The body of the neighbour loop, for one neighbour [n] of the node [c]
    under expansion: what it sets when the candidate score is strictly
    smaller, and that it leaves the state alone otherwise. *)
Lemma relax_spec (goal c n : coord) (st : State) :
  let cand := score_add (get_score (gScore st) c) 1 in
  let st' := relax goal c n st in
  (score_ltb cand (get_score (gScore st) n) = true →
     came_from st' = <[n := c]> (came_from st)
     ∧ gScore st' = <[n := cand]> (gScore st)
     ∧ fScore st' = <[n := score_add cand (h n goal)]> (fScore st)
     ∧ (n ∈ openNodesHash st →
          openNodes st' = openNodes st
          ∧ openNodesHash st' = openNodesHash st
          ∧ level st' = level st ∧ count st' = count st)
     ∧ (n ∉ openNodesHash st →
          openNodes st'
            = put (openNodes st) (score_add cand (h n goal), count st + 1, n)
          ∧ openNodesHash st' = {[n]} ∪ openNodesHash st
          ∧ level st' = update_node set_open n (level st)
          ∧ count st' = count st + 1))
  ∧ (score_ltb cand (get_score (gScore st) n) = false → st' = st)
  ∧ (get_score (gScore st) n = cand → st' = st).
Proof.
  intros cand st'. unfold st', relax. fold cand.
  split; [|split].
  - intros ->.
    destruct (bool_decide (n ∈ openNodesHash st)) eqn:Hmem; simpl.
    + apply bool_decide_eq_true in Hmem. repeat split; done.
    + apply bool_decide_eq_false in Hmem.
      split; [done|]. split; [done|]. split; [done|]. split; [done|].
      intros _. by rewrite get_score_insert_eq.
  - by intros ->.
  - intros ->. by rewrite score_ltb_irrefl.
Qed.

Section expansion.
Implicit Types (st s : State) (c n m goal : coord).

Lemma score_ltb_succ (g : score) : score_ltb (score_add g 1) g = false.
Proof. destruct g as [k|]; simpl; [|done]. apply Nat.ltb_ge. lia. Qed.

Lemma relax_self goal c st : relax goal c c st = st.
Proof. unfold relax. by rewrite score_ltb_succ. Qed.

(** Relaxing [m] leaves the score of [c] as it is. *)
Lemma relax_gScore_current goal c m st :
  get_score (gScore (relax goal c m st)) c = get_score (gScore st) c.
Proof.
  destruct (decide (m = c)) as [->|Hne]; [by rewrite relax_self|].
  unfold relax. destruct (score_ltb _ _); [|done].
  destruct (bool_decide _); simpl; by rewrite get_score_insert_ne.
Qed.

(** Relaxing [m] touches nothing that the search holds about another
    node. *)
Lemma relax_other goal c m n st :
  m ≠ n → node_view n (relax goal c m st) = node_view n st.
Proof.
  intros Hne. unfold relax. destruct (score_ltb _ _); [|done].
  unfold node_view.
  destruct (bool_decide (m ∈ openNodesHash st)); simpl;
    rewrite ?lookup_insert_ne, ?get_score_insert_ne by done; [done|].
  rewrite node_at_update_node_ne by done.
  unfold put. rewrite filter_app, filter_cons_False, filter_nil, app_nil_r
    by (simpl; congruence).
  repeat f_equal.
  apply bool_decide_ext. rewrite elem_of_union, elem_of_singleton.
  split; [intros [?|?]; [congruence|done]|auto].
Qed.

(** What relaxing [n] makes of what the search holds about [n] depends
    only on that and on the score of [c]. *)
Lemma relax_view goal c n s1 s2 :
  node_view n s1 = node_view n s2 →
  get_score (gScore s1) c = get_score (gScore s2) c →
  node_view n (relax goal c n s1) = node_view n (relax goal c n s2).
Proof.
  intros Hv Hc. pose proof Hv as Hv'. unfold node_view in Hv'.
  injection Hv' as Hcf Hg Hf Hh Hl Hq.
  unfold relax. rewrite Hc, Hg.
  destruct (score_ltb _ _); [|done].
  assert (bool_decide (n ∈ openNodesHash s1) = bool_decide (n ∈ openNodesHash s2))
    as Hh' by done.
  rewrite Hh'. unfold node_view.
  destruct (bool_decide (n ∈ openNodesHash s2)) eqn:E; simpl;
    rewrite !lookup_insert_eq, !get_score_insert_eq.
  - rewrite Hh', E, Hl, Hq. done.
  - rewrite !node_at_update_node_eq, Hl.
    unfold put. rewrite !filter_app, !fmap_app, Hq.
    rewrite !filter_cons_True, !filter_nil by done. simpl.
    repeat f_equal.
    apply bool_decide_ext. rewrite !elem_of_union, !elem_of_singleton. tauto.
Qed.

(** Relaxing [n] a second time changes nothing. *)
Lemma relax_twice goal c n st :
  relax goal c n (relax goal c n st) = relax goal c n st.
Proof.
  destruct (decide (n = c)) as [->|Hne]; [by rewrite !relax_self|].
  unfold relax at 1. rewrite relax_gScore_current.
  unfold relax at 1 2 3.
  destruct (score_ltb (score_add (get_score (gScore st) c) 1)
              (get_score (gScore st) n)) eqn:Hlt.
  - destruct (bool_decide (n ∈ openNodesHash st)); simpl;
      rewrite get_score_insert_eq, score_ltb_irrefl; done.
  - by rewrite Hlt.
Qed.

Lemma expand_list_view goal c n l st :
  node_view n (foldl (λ s m, relax goal c m s) st l)
  = node_view n (if bool_decide (n ∈ l) then relax goal c n st else st)
  ∧ get_score (gScore (foldl (λ s m, relax goal c m s) st l)) c
    = get_score (gScore st) c.
Proof.
  revert st. induction l as [|m l IH]; intros st; simpl; [done|].
  destruct (IH (relax goal c m st)) as [-> ->].
  split; [|apply relax_gScore_current].
  destruct (decide (m = n)) as [->|Hne].
  - rewrite (bool_decide_eq_true_2 (n ∈ n :: l)) by apply list_elem_of_here.
    case_bool_decide; [by rewrite relax_twice|done].
  - case_bool_decide as Hin.
    + rewrite (bool_decide_eq_true_2 (n ∈ m :: l))
        by by apply list_elem_of_further.
      apply relax_view; [by apply relax_other|apply relax_gScore_current].
    + rewrite (bool_decide_eq_false_2 (n ∈ m :: l)).
      * by apply relax_other.
      * intros [?|?]%elem_of_cons; [congruence|done].
Qed.

Lemma relax_prefix goal c m st :
  openNodes st `prefix_of` openNodes (relax goal c m st).
Proof.
  unfold relax. destruct (score_ltb _ _); [|done].
  destruct (bool_decide _); simpl; [done|]. by apply prefix_app_r.
Qed.

Lemma expand_list_prefix goal c l st :
  openNodes st `prefix_of` openNodes (foldl (λ s m, relax goal c m s) st l).
Proof.
  revert st. induction l as [|m l IH]; intros st; simpl; [done|].
  etrans; [apply relax_prefix|apply IH].
Qed.

End expansion.

(** C5.  The expansion of a node [c] (lines 161 to 175).  What the
    search holds about a node [n] after the expansion is what one pass of
    the loop body for [n] makes of it when [n] is in the neighbour list of
    [c], and what it was when [n] is not; the entries that were in the
    queue stay where they are.  The loop body for [n], with the candidate
    score [gScore[c] + 1]: if it is strictly smaller than [gScore[n]],
    then [came_from[n]], [gScore[n]] and [fScore[n]] are set from it, and
    [n] is pushed, added to [openNodesHash] and marked open exactly when it
    is not in [openNodesHash]; otherwise, in particular when the scores
    are equal, nothing changes at all. *)
Theorem expand_relaxes_neighbours (goal c : coord) (st : State) :
  (∀ n, node_view n (expand goal c st)
        = node_view n (if bool_decide (n ∈ node_neighbors (level st) c)
                       then relax goal c n st else st))
  ∧ openNodes st `prefix_of` openNodes (expand goal c st)
  ∧ (∀ n,
       let cand := score_add (get_score (gScore st) c) 1 in
       let st' := relax goal c n st in
       (score_ltb cand (get_score (gScore st) n) = true →
          came_from st' = <[n := c]> (came_from st)
          ∧ gScore st' = <[n := cand]> (gScore st)
          ∧ fScore st' = <[n := score_add cand (h n goal)]> (fScore st)
          ∧ (n ∈ openNodesHash st →
               openNodes st' = openNodes st
               ∧ openNodesHash st' = openNodesHash st
               ∧ level st' = level st ∧ count st' = count st)
          ∧ (n ∉ openNodesHash st →
               openNodes st'
                 = put (openNodes st)
                     (score_add cand (h n goal), count st + 1, n)
               ∧ openNodesHash st' = {[n]} ∪ openNodesHash st
               ∧ level st' = update_node set_open n (level st)
               ∧ count st' = count st + 1))
       ∧ (score_ltb cand (get_score (gScore st) n) = false → st' = st)
       ∧ (get_score (gScore st) n = cand → st' = st)).
Proof.
  split; [|split].
  - intros n. unfold expand. apply expand_list_view.
  - unfold expand. apply expand_list_prefix.
  - intros n. apply relax_spec.
Qed.

(** C4, amended.  At initialization [gScore[start]] is 0,
    [fScore[start]] is [h(start, goal)], the counter is 0 and the queue
    holds the one entry [(0, 0, start)], with priority 0.  Every step of
    the expansion either leaves counter and queue alone or adds one to the
    counter and pushes one entry that carries the new value; no other step
    of the loop changes the counter. *)
Theorem init_and_counter (lvl : list (list Node)) (start goal : coord) :
  let st0 := init_state lvl start goal in
  get_score (gScore st0) start = Finite 0
  ∧ get_score (fScore st0) start = Finite (h start goal)
  ∧ openNodes st0 = [(Finite 0, 0, start)]
  ∧ count st0 = 0
  ∧ (∀ c n st,
       (count (relax goal c n st) = count st
        ∧ openNodes (relax goal c n st) = openNodes st)
       ∨ (count (relax goal c n st) = S (count st)
          ∧ ∃ f, openNodes (relax goal c n st)
                 = openNodes st ++ [(f, S (count st), n)]))
  ∧ (∀ vis q c st, count (pop_step vis q c st) = count st)
  ∧ (∀ c st, count (close_step start c (draw_step st)) = count st).
Proof.
  simpl. rewrite !get_score_insert_eq. repeat split; try done.
  - intros c n st. unfold relax.
    destruct (score_ltb _ _); [|by left].
    destruct (bool_decide _); simpl; [by left|right].
    rewrite Nat.add_1_r. split; [done|]. unfold put. eauto.
  - intros c st. unfold close_step, draw_step.
    by destruct (bool_decide _), (visualize st).
Qed.

(** C4 as stated fails: with start at [(0, 0)] and goal at
    [(0, 2)] the value of [fScore[start]] is 2, and the queue does not hold
    the entry [(2, 0, start)]. *)
Lemma init_entry_counterexample :
  let st0 := init_state (level_of "S.G") (0, 0) (0, 2) in
  get_score (fScore st0) (0, 0) = Finite 2
  ∧ ¬ (get_score (fScore st0) (0, 0), 0, (0, 0)) ∈ openNodes st0.
Proof.
  split; [reflexivity|]. vm_compute.
  intros H. apply list_elem_of_singleton in H. discriminate H.
Qed.

(* ===================================================================== *)
(** ** Determinism *)
(* ===================================================================== *)

Section two_runs.
Implicit Types (st : State) (events : list (list Event)).

Lemma same_keys_tail ev1 ev2 :
  same_keys ev1 ev2 → same_keys (tail ev1) (tail ev2).
Proof.
  intros H i vis. rewrite !lookup_tail. apply H.
Qed.

Lemma search_same_keys fuel ev1 ev2 start goal st :
  same_keys ev1 ev2 →
  search fuel ev1 start goal st = search fuel ev2 start goal st.
Proof.
  revert ev1 ev2 st. induction fuel as [|fuel IH]; intros ev1 ev2 st H; simpl.
  - done.
  - destruct (get (openNodes st)) as [[[[p k] cur] q']|]; [|done].
    rewrite !head_lookup, (H 0 (visualize st)).
    destruct (handle_events _ _) as [vis|]; [|done].
    destruct (bool_decide (cur = goal)); [done|].
    by apply IH, same_keys_tail.
Qed.

Lemma core_relax goal c n st :
  core (relax goal c n st) = relax goal c n (core st).
Proof.
  unfold relax. simpl. destruct (score_ltb _ _); [|done].
  by destruct (bool_decide _).
Qed.

Lemma core_expand_list goal c l st :
  core (foldl (λ s n, relax goal c n s) st l)
  = foldl (λ s n, relax goal c n s) (core st) l.
Proof.
  revert st. induction l as [|n l IH]; intros st; simpl; [done|].
  by rewrite IH, core_relax.
Qed.

Lemma core_iteration start goal c q vis vis' st :
  core (close_step start c (draw_step (expand goal c (pop_step vis q c st))))
  = core (close_step start c
            (draw_step (expand goal c (pop_step vis' q c (core st))))).
Proof.
  assert (Hclose : ∀ s, core (close_step start c (draw_step s))
                        = close_step start c (core s)).
  { intros s. unfold close_step, draw_step.
    by destruct (bool_decide _), (visualize s). }
  rewrite !Hclose. f_equal. unfold expand. by rewrite !core_expand_list.
Qed.

Lemma reconstruct_path_frames fuel cf cur lvl f1 f2 :
  prod_map id (λ _, ()) <$> reconstruct_path fuel cf cur lvl f1
  = prod_map id (λ _, ()) <$> reconstruct_path fuel cf cur lvl f2.
Proof.
  revert cur lvl f1 f2. induction fuel as [|fuel IH]; intros cur lvl f1 f2; simpl.
  - by destruct (cf !! cur).
  - destruct (cf !! cur) as [p|]; [|done].
    specialize (IH p (update_node mark_path p lvl)
      (f1 ++ [snapshot (update_node mark_path p lvl)])
      (f2 ++ [snapshot (update_node mark_path p lvl)])).
    destruct (reconstruct_path fuel cf p _ (f1 ++ _)) as [[[w1 l1] g1]|],
             (reconstruct_path fuel cf p _ (f2 ++ _)) as [[[w2 l2] g2]|];
      simpl in *; try done.
    by injection IH as -> ->.
Qed.

Lemma search_core fuel events start goal st :
  no_exit events →
  result_core (search fuel events start goal st)
  = result_core (search fuel [] start goal (core st)).
Proof.
  revert events st. induction fuel as [|fuel IH]; intros events st Hne; simpl.
  - by destruct (get (openNodes st)) as [[[[p k] cur] q']|].
  - destruct (get (openNodes st)) as [[[[p k] cur] q']|]; [|done].
    destruct (handle_events (default [] (head events)) (visualize st))
      as [vis|] eqn:Hev; [|by apply no_exit_head in Hev].
    destruct (bool_decide (cur = goal)).
    + simpl.
      pose proof (reconstruct_path_frames
        (walk_fuel (update_node set_goal cur (level st))) (came_from st) goal
        (update_node set_goal cur (level st)) (frames st) []) as Hr.
      destruct (reconstruct_path _ _ _ _ (frames st)) as [[[w1 l1] g1]|],
               (reconstruct_path _ _ _ _ []) as [[[w2 l2] g2]|];
        simpl in *; try done.
      by injection Hr as -> ->.
    + rewrite (IH (tail events)) by by apply no_exit_tail.
      rewrite (IH [] (close_step _ _ _)) by constructor.
      by rewrite (core_iteration start goal cur q' vis true st).
Qed.
End two_runs.

Lemma entry_ltb_connex a b :
  entry_ltb a b = false →
  entry_ltb b a = true
  ∨ (entry_priority a = entry_priority b ∧ entry_count a = entry_count b).
Proof.
  intros H. apply not_true_iff_false in H.
  rewrite entry_ltb_spec in *. rewrite !score_ltb_spec in *.
  destruct (entry_priority a) as [x|], (entry_priority b) as [y|].
  - destruct (lt_eq_lt_dec x y) as [[Hp|Hp]|Hp].
    + tauto.
    + subst y.
      destruct (lt_eq_lt_dec (entry_count a) (entry_count b)) as [[Hc|Hc]|Hc].
      * exfalso. apply H. auto.
      * auto.
      * left. right. auto.
    + left. left. done.
  - tauto.
  - left. left. done.
  - destruct (lt_eq_lt_dec (entry_count a) (entry_count b)) as [[Hc|Hc]|Hc].
    + exfalso. apply H. auto.
    + auto.
    + left. right. auto.
Qed.

Lemma NoDup_fmap_elem {A B} (f : A → B) (l : list A) (x y : A) :
  NoDup (f <$> l) → x ∈ l → y ∈ l → f x = f y → x = y.
Proof.
  induction l as [|a l IH]; intros Hnd Hx Hy Hf; [by apply elem_of_nil in Hx|].
  rewrite fmap_cons in Hnd. apply NoDup_cons in Hnd as [Ha Hnd].
  apply elem_of_cons in Hx as [->|Hx]; apply elem_of_cons in Hy as [->|Hy].
  - done.
  - destruct Ha. rewrite Hf. by apply list_elem_of_fmap_2.
  - destruct Ha. rewrite <- Hf. by apply list_elem_of_fmap_2.
  - by apply IH.
Qed.

(** C3, amended.  Two calls on the same level, start and goal
    give the same result, frames drawn included, when the keyboard events
    of the two runs act alike; and whatever keys are pressed, short of
    quitting, they give the same outcome, path, marks and search tables.
    The entry that [get] takes from the queue, as every iteration of the
    loop does, is an entry of the queue, and the queue without it is what
    stays; it has the least priority, and among the entries of that
    priority the least insertion count; when no two entries have the same
    count it comes strictly before every other entry.  No two entries of
    a queue that the search leaves behind, at whatever iteration it is
    stopped, have the same count, so that the comparison of two entries
    never comes to their nodes. *)
Theorem find_path_deterministic (ev1 ev2 : list (list Event))
    (lvl : list (list Node)) (start goal : coord) :
  (same_keys ev1 ev2 →
     find_path ev1 lvl start goal = find_path ev2 lvl start goal)
  ∧ (no_exit ev1 → no_exit ev2 →
       result_core (find_path ev1 lvl start goal)
       = result_core (find_path ev2 lvl start goal))
  ∧ (∀ q e q', get q = Some (e, q') →
       e ∈ q
       ∧ q ≡ₚ e :: q'
       ∧ (∀ x, x ∈ q →
            score_ltb (entry_priority x) (entry_priority e) = false
            ∧ (entry_priority x = entry_priority e →
                 entry_count e ≤ entry_count x))
       ∧ (NoDup (entry_count <$> q) →
            ∀ x, x ∈ q → x ≠ e → entry_ltb e x = true))
  ∧ (is_Some (node_at lvl start) →
       ∃ o st,
         find_path ev1 (update_all_neighbors lvl) start goal = Some (o, st)
         ∧ NoDup (entry_count <$> openNodes st)).
Proof.
  split; [|split; [|split]].
  - apply search_same_keys.
  - intros H1 H2. unfold find_path.
    rewrite (search_core _ ev1) by done.
    by rewrite (search_core _ ev2) by done.
  - intros q e q' Hget.
    pose proof (get_perm q e q' Hget) as Hperm.
    assert (He : e ∈ q) by (rewrite Hperm; apply list_elem_of_here).
    split; [done|]. split; [done|]. split.
    + intros x Hx.
      pose proof (get_least q e q' x Hget Hx) as Hle.
      apply not_true_iff_false in Hle. rewrite entry_ltb_spec in Hle.
      split.
      * apply not_true_iff_false. tauto.
      * intros Heq. apply Nat.le_ngt. tauto.
    + intros Hnd x Hx Hne.
      destruct (entry_ltb_connex x e (get_least q e q' x Hget Hx))
        as [?|[_ Hc]]; [done|].
      destruct Hne. by eapply (NoDup_fmap_elem entry_count q).
  - intros Hs.
    destruct (find_path_spec (update_all_neighbors lvl) start goal
                (neighbors_ok_update_all lvl)
                (proj2 (elem_of_cells_update_all lvl start) Hs) ev1)
      as (o & st & Hfp & Hpost & _).
    exists o, st. split; [done|]. by eapply post_counts.
Qed.

Lemma find_path_deterministic_witness :
  find_path [[OTHER_EVENT]; []] (update_all_neighbors (level_of "S.G"))
    (0, 0) (0, 2)
  = find_path [[]; [OTHER_EVENT; OTHER_EVENT]]
      (update_all_neighbors (level_of "S.G")) (0, 0) (0, 2)
  ∧ result_core (find_path [] (update_all_neighbors (level_of "S.G"))
                   (0, 0) (0, 2))
    = result_core (find_path [[KEYDOWN K_SPACE]]
                     (update_all_neighbors (level_of "S.G")) (0, 0) (0, 2))
  ∧ (∀ e q',
       get [(Finite 4, 2, (0, 1)); (Finite 3, 4, (1, 1)); (Finite 3, 3, (2, 0))]
       = Some (e, q') →
       e ∈ [(Finite 4, 2, (0, 1)); (Finite 3, 4, (1, 1)); (Finite 3, 3, (2, 0))]
       ∧ entry_ltb e (Finite 3, 4, (1, 1)) = true)
  ∧ ∃ o st,
      find_path [[]; []; [QUIT]]
        (update_all_neighbors (level_of (rows_text ["S.."; "..."; "..G"])))
        (0, 0) (2, 2) = Some (o, st)
      ∧ NoDup (entry_count <$> openNodes st)
      ∧ length (openNodes st) = 3.
Proof.
  split; [|split; [|split]].
  - apply (proj1 (find_path_deterministic [[OTHER_EVENT]; []]
                    [[]; [OTHER_EVENT; OTHER_EVENT]]
                    (update_all_neighbors (level_of "S.G")) (0, 0) (0, 2))).
    intros [|[|[|i]]] vis; reflexivity.
  - apply (proj1 (proj2 (find_path_deterministic [] [[KEYDOWN K_SPACE]]
                    (update_all_neighbors (level_of "S.G")) (0, 0) (0, 2)))).
    + constructor.
    + repeat constructor.
  - intros e q' Hget.
    destruct (proj1 (proj2 (proj2 (find_path_deterministic [] []
                 (level_of "S.G") (0, 0) (0, 2)))) _ e q' Hget)
      as (He & _ & _ & Hstrict).
    split; [exact He|]. apply Hstrict.
    + simpl. repeat (apply NoDup_cons_2;
        [rewrite ?elem_of_cons, elem_of_nil; intros Hin;
         repeat (destruct Hin as [Hin|Hin]); try done; discriminate Hin|]).
      apply NoDup_nil_2.
    + apply list_elem_of_further, list_elem_of_here.
    + intros <-. vm_compute in Hget. discriminate Hget.
  - destruct (proj2 (proj2 (proj2 (find_path_deterministic [[]; []; [QUIT]] []
                 (level_of (rows_text ["S.."; "..."; "..G"])) (0, 0) (2, 2)))))
      as (o & st & Hf & Hnd).
    + eexists. reflexivity.
    + exists o, st. split; [exact Hf|]. split; [exact Hnd|].
      vm_compute in Hf. injection Hf as _ <-. reflexivity.
Defined.

(** C3 as stated fails: on the level [S.G] a run without
    events draws four frames, and a run in which the space bar is pressed
    at once draws two. *)
Lemma callbacks_counterexample :
  ¬ (∀ ev1 ev2 : list (list Event),
       (frames ∘ snd) <$> find_path ev1 (update_all_neighbors (level_of "S.G"))
                            (0, 0) (0, 2)
       = (frames ∘ snd) <$> find_path ev2
                              (update_all_neighbors (level_of "S.G"))
                              (0, 0) (0, 2)).
Proof.
  intros H. specialize (H [] [[KEYDOWN K_SPACE]]).
  vm_compute in H. discriminate H.
Qed.

(* ===================================================================== *)
(** ** [make_level] *)
(* ===================================================================== *)

Section make_level_facts.
Implicit Types (line cur text : list ascii) (lines : list (list ascii)).

Lemma file_lines_join cur text : mjoin (file_lines cur text) = cur ++ text.
Proof.
  revert cur. induction text as [|char text IH]; intros cur; simpl.
  - destruct cur; simpl; by rewrite ?app_nil_r.
  - destruct (decide (char = newline)); simpl.
    + rewrite IH. by rewrite <- app_assoc.
    + rewrite IH. by rewrite <- app_assoc.
Qed.

(** A line is not empty, and a newline can only be its last character. *)
Lemma file_lines_shape cur text line :
  newline ∉ cur → line ∈ file_lines cur text →
  line ≠ [] ∧ (newline ∉ line
               ∨ ∃ cells, line = cells ++ [newline] ∧ newline ∉ cells).
Proof.
  revert cur. induction text as [|char text IH]; intros cur Hcur; simpl.
  - destruct cur as [|c cur]; [by intros ?%elem_of_nil|].
    intros ->%list_elem_of_singleton. split; [done|by left].
  - destruct (decide (char = newline)) as [->|Hne].
    + intros [->|Hin]%elem_of_cons.
      * split; [by destruct cur|]. right. eauto.
      * apply (IH []); [by intros ?%elem_of_nil|done].
    + apply IH. intros [?|Hc%list_elem_of_singleton]%elem_of_app; [done|].
      congruence.
Qed.

Lemma row_width_bounds cur text line :
  newline ∉ cur → line ∈ file_lines cur text →
  row_width line ≤ length line ≤ S (row_width line).
Proof.
  intros Hcur Hin. unfold row_width.
  assert (Hno : ∀ l : list ascii, newline ∉ l →
            filter (λ char, char ≠ newline) l = l).
  { intros l Hl. induction l as [|c l IHl]; [done|].
    rewrite filter_cons_True.
    - f_equal. apply IHl. intros ?. apply Hl. by apply list_elem_of_further.
    - intros ->. apply Hl, list_elem_of_here. }
  destruct (file_lines_shape cur text line Hcur Hin) as [_ [Hl|(cells & -> & Hc)]].
  - rewrite Hno by done. lia.
  - rewrite filter_app, (Hno cells) by done.
    rewrite filter_cons_False by (intros H; by apply H).
    rewrite filter_nil, app_nil_r, length_app. simpl. lia.
Qed.

Lemma read_char_valid char node :
  valid_char char = true →
  ∃ node' s g, read_char char node = Some (node', s, g)
               ∧ type node' = if decide (char = newline) then type node
                              else if decide (char = NodeType_value UNVISITED)
                                   then type node else char_type char.
Proof.
  unfold valid_char, read_char, char_type. intros H%bool_decide_eq_true.
  repeat (apply elem_of_cons in H as [->|H]); [..|by apply elem_of_nil in H];
    simpl; eauto.
Qed.

Lemma read_char_invalid char node :
  valid_char char = false → read_char char node = None.
Proof.
  unfold valid_char, read_char. intros H%bool_decide_eq_false.
  repeat match goal with
    | |- context [decide ?P] => destruct (decide P)
    end; try done; exfalso; apply H;
    repeat match goal with
      | Hd : _ ∨ _ |- _ => destruct Hd
      end; subst; repeat constructor.
Qed.

Lemma char_type_node size char node' s g :
  read_char char (Node_init size.1 size.2) = Some (node', s, g) →
  type node' = char_type char.
Proof.
  unfold read_char, char_type.
  repeat match goal with
    | |- context [decide ?P] => destruct (decide P)
    end; intros [= <- _ _]; done.
Qed.

(** [read_line] succeeds exactly on valid characters at columns up to
    [COL_LIMIT]. *)
Lemma read_line_inr size i j line row start goal :
  Forall (λ char, valid_char char = true) line →
  (line = [] ∨ j + length line ≤ S COL_LIMIT) →
  ∃ row' start' goal',
    read_line size i j line row start goal = inr (row ++ row', start', goal')
    ∧ map type row' = map char_type line.
Proof.
  revert j row start goal.
  induction line as [|char line IH]; intros j row start goal Hv Hj; simpl.
  - exists [], start, goal. by rewrite app_nil_r.
  - apply Forall_cons in Hv as [Hc Hv].
    destruct Hj as [?|Hj]; [done|]. simpl in Hj.
    destruct (read_char_valid char (Node_init size.1 size.2) Hc)
      as (node' & s & g & Hr & _).
    rewrite Hr. rewrite bool_decide_eq_false_2 by lia.
    destruct (IH (S j) (row ++ [node'])
                (if s then Some (i, j) else start)
                (if g then Some (i, j) else goal) Hv)
      as (row' & start' & goal' & -> & Hty).
    { destruct line; [by left|right; simpl in *; lia]. }
    exists (node' :: row'), start', goal'. rewrite <- app_assoc. simpl.
    split; [done|]. f_equal; [|done]. by eapply char_type_node.
Qed.

Lemma read_line_inl size i j line row start goal :
  Exists (λ char, valid_char char = false) line
  ∨ (line ≠ [] ∧ S COL_LIMIT < j + length line) →
  ∃ e, read_line size i j line row start goal = inl e.
Proof.
  revert j row start goal.
  induction line as [|char line IH]; intros j row start goal H; simpl.
  - destruct H as [H|[H _]]; [by apply Exists_nil in H|done].
  - destruct (read_char char _) as [[[node' s] g]|] eqn:Hr; [|eauto].
    destruct (bool_decide (COL_LIMIT < j)) eqn:Hj; [eauto|].
    apply bool_decide_eq_false in Hj. apply IH.
    destruct H as [H|[_ H]].
    + apply Exists_cons in H as [H|H]; [|by left].
      apply read_char_invalid with (node := Node_init size.1 size.2) in H.
      congruence.
    + right. simpl in H. split; [|lia]. destruct line; [simpl in H; lia|done].
Qed.

Lemma read_lines_inr size i lines lvl start goal last :
  Forall (λ line, Forall (λ char, valid_char char = true) line
                  ∧ length line ≤ S COL_LIMIT) lines →
  (lines = [] ∨ i + length lines ≤ S ROW_LIMIT) →
  ∃ lvl' start' goal' last',
    read_lines size i lines lvl start goal last
      = inr (lvl ++ lvl', start', goal', last')
    ∧ map (map type) lvl' = map (map char_type) lines.
Proof.
  revert i lvl start goal last.
  induction lines as [|line lines IH]; intros i lvl start goal last Hv Hi; simpl.
  - exists [], start, goal, last. by rewrite app_nil_r.
  - apply Forall_cons in Hv as [[Hc Hw] Hv].
    destruct Hi as [?|Hi]; [done|]. simpl in Hi.
    destruct (read_line_inr size i 0 line [] start goal Hc)
      as (row' & start' & goal' & -> & Hty); [right; simpl; lia|]. simpl.
    rewrite bool_decide_eq_false_2 by lia.
    destruct (IH (S i) (lvl ++ [row']) start' goal' (length line) Hv)
      as (lvl' & start'' & goal'' & last' & -> & Hty').
    { destruct lines; [by left|right; simpl in *; lia]. }
    exists (row' :: lvl'), start'', goal'', last'. rewrite <- app_assoc. simpl.
    split; [done|]. by f_equal.
Qed.

Lemma read_lines_inl size i lines lvl start goal last :
  Forall (λ line, line ≠ []) lines →
  Exists (λ line, Exists (λ char, valid_char char = false) line
                  ∨ S COL_LIMIT < length line) lines
  ∨ (lines ≠ [] ∧ S ROW_LIMIT < i + length lines) →
  ∃ e, read_lines size i lines lvl start goal last = inl e.
Proof.
  revert i lvl start goal last.
  induction lines as [|line lines IH]; intros i lvl start goal last Hne H; simpl.
  - destruct H as [H|[H _]]; [by apply Exists_nil in H|done].
  - apply Forall_cons in Hne as [Hl Hne].
    destruct (read_line size i 0 line [] start goal)
      as [e|[[row' start'] goal']] eqn:Hr; [eauto|].
    destruct (bool_decide (ROW_LIMIT < i)) eqn:Hi; [eauto|].
    apply bool_decide_eq_false in Hi. apply IH; [done|].
    destruct H as [H|[_ H]].
    + apply Exists_cons in H as [H|H]; [|by left].
      destruct (read_line_inl size i 0 line [] start goal) as [e He];
        [|congruence].
      destruct H as [H|H]; [by left|right]. split; [done|]. simpl. lia.
    + right. simpl in H. split; [|lia]. destruct lines; [simpl in H; lia|done].
Qed.
End make_level_facts.

Lemma text_lines_chars (text : string) :
  mjoin (text_lines text) = String.list_ascii_of_string text.
Proof. unfold text_lines. by rewrite file_lines_join. Qed.

Lemma text_lines_nil (text : string) :
  text_lines text = [] → text = EmptyString.
Proof.
  intros H. pose proof (text_lines_chars text) as Hc. rewrite H in Hc.
  by destruct text.
Qed.

Lemma text_lines_invalid (text : string) :
  Exists (λ char, valid_char char = false) (String.list_ascii_of_string text) ↔
  Exists (Exists (λ char, valid_char char = false)) (text_lines text).
Proof.
  rewrite <- text_lines_chars, !Exists_exists. split.
  - intros (char & (line & Hc & Hl)%list_elem_of_join & Hv).
    exists line. split; [done|]. apply Exists_exists. eauto.
  - intros (line & Hl & (char & Hc & Hv)%Exists_exists).
    exists char. split; [|done]. apply list_elem_of_join. eauto.
Qed.

(** C9, amended.  [make_level] ends without a level when the
    text holds a character other than ['#'], ['S'], ['G'], ['.'] and the
    newline, when it has more than 101 lines, and when a line has more
    than 101 cells.  On a text that is not empty, with at most 100 lines
    of at most 100 cells each and no other character, it returns a level,
    whose nodes have the types that the characters stand for (the newline
    of a line gives a node of its own, like ['.']).  The lengths of the
    rows and the numbers of ['S'] and ['G'] play no part. *)
Theorem make_level_accepts (size : nat * nat) (text : string) :
  (Exists (λ char, valid_char char = false) (String.list_ascii_of_string text) →
     ∃ e, make_level size text = inl e)
  ∧ (S ROW_LIMIT < length (text_lines text)
     ∨ Exists (λ line, S COL_LIMIT < row_width line) (text_lines text) →
     ∃ e, make_level size text = inl e)
  ∧ (text ≠ EmptyString →
     length (text_lines text) ≤ ROW_LIMIT →
     Forall (λ line, row_width line ≤ COL_LIMIT) (text_lines text) →
     Forall (λ char, valid_char char = true) (String.list_ascii_of_string text) →
     ∃ lvl start goal,
       make_level size text = inr (lvl, start, goal)
       ∧ map (map type) lvl = map (map char_type) (text_lines text)).
Proof.
  assert (Hshape : Forall (λ line, line ≠ []) (text_lines text)).
  { apply Forall_forall. intros line Hin.
    apply (file_lines_shape [] (String.list_ascii_of_string text) line);
      [by intros ?%elem_of_nil|done]. }
  assert (Hwidth : ∀ line, line ∈ text_lines text →
            row_width line ≤ length line ≤ S (row_width line)).
  { intros line Hin.
    apply (row_width_bounds [] (String.list_ascii_of_string text));
      [by intros ?%elem_of_nil|done]. }
  assert (Hbad : Exists (λ line, Exists (λ char, valid_char char = false) line
                                 ∨ S COL_LIMIT < length line) (text_lines text)
                 ∨ (text_lines text ≠ [] ∧ S ROW_LIMIT < 0 + length (text_lines text)) →
                 ∃ e, make_level size text = inl e).
  { intros H. unfold make_level. fold (text_lines text).
    destruct (read_lines_inl size 0 (text_lines text) [] None None 0 Hshape H)
      as [e ->].
    destruct (text_lines text); eauto. }
  split; [|split].
  - intros H. apply Hbad. left. apply text_lines_invalid in H.
    eapply Exists_impl; [exact H|]. by left.
  - intros [H|H]; apply Hbad.
    + right. split; [|simpl; lia]. intros Hnil. rewrite Hnil in H. simpl in H. lia.
    + left. apply Exists_exists in H as (line & Hin & Hw).
      apply Exists_exists. exists line. split; [done|right].
      specialize (Hwidth line Hin). lia.
  - intros Hne Hrows Hcols Hvalid. unfold make_level. fold (text_lines text).
    destruct (read_lines_inr size 0 (text_lines text) [] None None 0)
      as (lvl' & start' & goal' & last' & Hr & Hty).
    { apply Forall_forall. intros line Hin. split.
      - apply Forall_forall. intros char Hc.
        apply (proj1 (Forall_forall _ _) Hvalid).
        rewrite <- text_lines_chars. apply list_elem_of_join. eauto.
      - specialize (Hwidth line Hin).
        pose proof (proj1 (Forall_forall _ _) Hcols line Hin). simpl in *. lia. }
    { right. simpl. unfold ROW_LIMIT in *. lia. }
    rewrite Hr. simpl.
    destruct (text_lines text) as [|line lines] eqn:Hl.
    { by apply text_lines_nil in Hl. }
    eexists _, _, _. split; [done|]. rewrite <- Hty.
    rewrite <- list_fmap_compose. apply list_fmap_ext. intros _ row _. simpl.
    rewrite <- list_fmap_compose. by apply list_fmap_ext.
Qed.

Lemma make_level_accepts_witness :
  (∃ e, make_level (0, 0) (rows_text ["S.G"; ".x."]) = inl e)
  ∧ (∃ e, make_level (0, 0) (rows_text (replicate 102 ".")) = inl e)
  ∧ ∃ lvl start goal,
      make_level (0, 0) (rows_text ["S#"; ".G"]) = inr (lvl, start, goal)
      ∧ map (map type) lvl
        = map (map char_type) (text_lines (rows_text ["S#"; ".G"])).
Proof.
  split; [|split].
  - apply (proj1 (make_level_accepts (0, 0) (rows_text ["S.G"; ".x."]))).
    replace (String.list_ascii_of_string (rows_text ["S.G"; ".x."]))
      with (["S"; "."; "G"; newline; "."; "x"; "."]%char) by reflexivity.
    do 5 apply Exists_cons_tl. apply Exists_cons_hd. reflexivity.
  - apply (proj1 (proj2 (make_level_accepts (0, 0)
                           (rows_text (replicate 102 "."))))).
    left. vm_compute. lia.
  - apply (proj2 (proj2 (make_level_accepts (0, 0) (rows_text ["S#"; ".G"])))).
    + discriminate.
    + vm_compute. lia.
    + replace (text_lines (rows_text ["S#"; ".G"]))
        with ([["S"; "#"; newline]; ["."; "G"]]%char) by reflexivity.
      repeat (apply Forall_cons_2; [vm_compute; lia|]). apply Forall_nil_2.
    + replace (String.list_ascii_of_string (rows_text ["S#"; ".G"]))
        with (["S"; "#"; newline; "."; "G"]%char) by reflexivity.
      repeat (apply Forall_cons_2; [reflexivity|]). apply Forall_nil_2.
Defined.

(** C9 as stated fails: a text whose rows have different
    lengths and which has neither an ['S'] nor a ['G'] is read into a
    level. *)
Lemma make_level_counterexample :
  let text := rows_text [".."; "."] in
  map row_width (text_lines text) = [2; 1]
  ∧ (NodeType_value START ∉ String.list_ascii_of_string text)
  ∧ (NodeType_value GOAL ∉ String.list_ascii_of_string text)
  ∧ ∃ lvl, make_level (0, 0) text = inr (lvl, None, None).
Proof.
  split; [reflexivity|]. split; [|split].
  - vm_compute. intros H. repeat (apply elem_of_cons in H as [H|H]; [discriminate H|]).
    by apply elem_of_nil in H.
  - vm_compute. intros H. repeat (apply elem_of_cons in H as [H|H]; [discriminate H|]).
    by apply elem_of_nil in H.
  - eexists. vm_compute. reflexivity.
Qed.

(* ===================================================================== *)
(** ** The stale priority *)
(* ===================================================================== *)

(** C1 fails on the code.  On the level below, with start at [(7, 2)] and
    goal at [(0, 0)], [find_path] returns [True] after walking a path of
    13 steps, although the path along the right-hand column takes 11.  The
    node [(2, 3)] enters the queue with priority 15 when it is first seen
    with score 10; its score later drops to 6, which means priority 11, but
    its queue entry keeps the 15, so that the goal, queued with priority
    13 behind the long way round, leaves the queue before it. *)
Theorem detour_found :
  let text := rows_text ["G..."; "##.."; "...."; "..#.";
                         ".#.."; "...."; "..#."; "..S."] in
  let lvl := level_of text in
  let short := [(7, 2); (7, 3); (6, 3); (5, 3); (4, 3); (3, 3);
                (2, 3); (1, 3); (0, 3); (0, 2); (0, 1); (0, 0)] in
  let long := [(7, 2); (7, 1); (6, 1); (5, 1); (5, 0); (4, 0); (3, 0);
               (2, 0); (2, 1); (2, 2); (1, 2); (0, 2); (0, 1); (0, 0)] in
  (λ r, (r.1, get_score (gScore r.2) (0, 0), get_score (gScore r.2) (2, 3),
         filter (λ e, entry_node e = (2, 3)) (openNodes r.2)))
    <$> run_search [] (0, 0) text
  = Some (Found long, Finite 13, Finite 6, [(Finite 15, 20, (2, 3))])
  ∧ valid_path lvl (7, 2) (0, 0) long = true
  ∧ valid_path lvl (7, 2) (0, 0) short = true
  ∧ length short < length long.
Proof.
  split; [vm_compute; reflexivity|].
  split; [vm_compute; reflexivity|].
  split; [vm_compute; reflexivity|].
  simpl. lia.
Qed.

(* ===================================================================== *)
(** ** The heuristic, further *)
(* ===================================================================== *)

Section heuristic_facts.
Implicit Types a b c : coord.

Lemma h_sym a b : h a b = h b a.
Proof. destruct a, b. unfold h. lia. Qed.

Lemma h_zero a b : h a b = 0 ↔ a = b.
Proof.
  destruct a as [x1 y1], b as [x2 y2]. unfold h. split.
  - intros H. f_equal; lia.
  - intros [= -> ->]. lia.
Qed.

Lemma h_triangle a b c : h a c ≤ h a b + h b c.
Proof. destruct a, b, c. unfold h. lia. Qed.

Lemma adjacent4_spec a b :
  adjacent4 a b = true ↔
    (a.1 = b.1 ∧ (a.2 = S b.2 ∨ b.2 = S a.2))
    ∨ (a.2 = b.2 ∧ (a.1 = S b.1 ∨ b.1 = S a.1)).
Proof.
  unfold adjacent4. rewrite orb_true_iff, !bool_decide_eq_true. reflexivity.
Qed.

Lemma adjacent4_sym a b : adjacent4 a b = adjacent4 b a.
Proof.
  apply eq_true_iff_eq. rewrite !adjacent4_spec. lia.
Qed.

Lemma adjacent4_h a b goal :
  adjacent4 a b = true → h a goal = S (h b goal) ∨ h b goal = S (h a goal).
Proof.
  rewrite adjacent4_spec. destruct a as [x1 y1], b as [x2 y2], goal as [x3 y3].
  unfold h. simpl. lia.
Qed.

Lemma steps_ok_h path c goal :
  steps_ok path = true → head path = Some c → last path = Some goal →
  h c goal < length path.
Proof.
  revert c. induction path as [|a rest IH]; intros c Hs Hh Hl; [done|].
  simpl in Hh. injection Hh as ->.
  destruct rest as [|b rest'].
  - simpl in Hl. injection Hl as ->.
    assert (h goal goal = 0) as -> by by apply h_zero. simpl. lia.
  - simpl in Hs. apply andb_true_iff in Hs as [Hadj Hs].
    specialize (IH b Hs eq_refl Hl).
    destruct (adjacent4_h _ _ goal Hadj); simpl in *; lia.
Qed.

End heuristic_facts.

(** X1.  The heuristic is consistent: a step to a member of the neighbour
    list changes the distance to the goal by exactly one, up or down. *)
Theorem h_consistent (lvl : list (list Node)) (a b goal : coord) :
  linked (update_all_neighbors lvl) a b →
  h a goal = S (h b goal) ∨ h b goal = S (h a goal).
Proof.
  intros [Hadj _]%neighbors_ok_update_all. by apply adjacent4_h.
Qed.

Lemma h_consistent_witness :
  h (0, 0) (0, 2) = S (h (0, 1) (0, 2)) ∨ h (0, 1) (0, 2) = S (h (0, 0) (0, 2)).
Proof.
  apply (h_consistent (level_of "S.G") (0, 0) (0, 1) (0, 2)).
  vm_compute. apply list_elem_of_here.
Defined.


(** X2.  The heuristic is admissible: a path of the level from a node to
    the goal has at least as many steps as [h] says. *)
Theorem h_admissible (lvl : list (list Node)) (c goal : coord)
    (path : list coord) :
  valid_path lvl c goal path = true → h c goal + 1 ≤ length path.
Proof.
  unfold valid_path. rewrite !andb_true_iff, !bool_decide_eq_true.
  intros [[[Hh Hl] Hs] _]. pose proof (steps_ok_h path c goal Hs Hh Hl). lia.
Qed.

Lemma h_admissible_witness :
  h (0, 0) (1, 1) + 1 ≤ length [(0, 0); (1, 0); (1, 1)].
Proof.
  apply (h_admissible (level_of (rows_text ["S#"; ".G"])) (0, 0) (1, 1)
           [(0, 0); (1, 0); (1, 1)]).
  reflexivity.
Defined.


(* ===================================================================== *)
(** ** The neighbour lists, further *)
(* ===================================================================== *)

Section neighbour_lists.
Implicit Types (lvl : list (list Node)) (c : coord).

Lemma look_sublist lvl guard c acc l :
  acc `sublist_of` l →
  try_result (look lvl guard c acc) `sublist_of` l ++ (if guard then [c] else []).
Proof.
  intros Hacc. unfold look. destruct guard; simpl.
  - destruct (node_at lvl c) as [nd|]; simpl.
    + destruct (is_obstacle nd); simpl.
      * by apply sublist_inserts_r.
      * by apply sublist_app.
    + by apply sublist_inserts_r.
  - by rewrite app_nil_r.
Qed.

Lemma try_bind_sublist r k l l' :
  try_result r `sublist_of` l →
  (∀ acc, acc `sublist_of` l → try_result (k acc) `sublist_of` l ++ l') →
  try_result (try_bind r k) `sublist_of` l ++ l'.
Proof.
  destruct r as [acc|acc]; simpl; intros Hacc Hk; [|by apply Hk].
  by apply sublist_inserts_r.
Qed.

Lemma NoDup_around c : NoDup (around c) ∧ c ∉ around c.
Proof.
  destruct c as [row col]. unfold around. simpl.
  split.
  - repeat case_bool_decide; simpl;
      repeat (apply NoDup_cons_2;
              [rewrite ?elem_of_cons, elem_of_nil; intros Hin;
               repeat (destruct Hin as [Hin|Hin]); try done;
               inversion Hin; lia|]);
      apply NoDup_nil_2.
  - repeat case_bool_decide; simpl;
      rewrite ?elem_of_cons, elem_of_nil; intros Hin;
      repeat (destruct Hin as [Hin|Hin]); try done; inversion Hin; lia.
Qed.

Lemma neighbors_of_sublist lvl c nd : neighbors_of lvl c nd `sublist_of` around c.
Proof.
  unfold neighbors_of, around. destruct c as [row col]; simpl.
  assert (Hg : ∀ k : nat, (0 <? Z.of_nat k)%Z = bool_decide (0 < k)).
  { intros k. case_bool_decide; [apply Z.ltb_lt|apply Z.ltb_ge]; lia. }
  rewrite !Hg.
  set (up := if bool_decide (0 < row) then [(row - 1, col)] else []).
  set (left := if bool_decide (0 < col) then [(row, col - 1)] else []).
  change (up ++ (row + 1, col) :: left ++ [(row, col + 1)])
    with (up ++ [(row + 1, col)] ++ left ++ [(row, col + 1)]).
  apply try_bind_sublist; [|intros acc1 H1].
  { apply (look_sublist lvl _ _ [] []). done. }
  rewrite (assoc_L (++)).
  apply try_bind_sublist; [|intros acc2 H2].
  { etrans; [by apply look_sublist|].
    apply sublist_app; [done|]. destruct (_ <? _)%Z; [done|apply sublist_nil_l]. }
  rewrite (assoc_L (++)).
  trans (((up ++ [(row + 1, col)]) ++ left)
         ++ (if (Z.of_nat col <? Z.of_nat (totalCols nd) - 1)%Z
             then [(row, col + 1)] else [])).
  { apply try_bind_sublist; [|intros acc3 H3].
    - by apply look_sublist.
    - by apply look_sublist. }
  apply sublist_app; [done|]. destruct (_ <? _)%Z; [done|apply sublist_nil_l].
Qed.

(** When the look down raises (the row below is too short), the looks to
    the left and to the right are not made. *)
Lemma neighbors_of_raise lvl row col nd :
  row + 1 < totalRows nd → node_at lvl (row + 1, col) = None →
  neighbors_of lvl (row, col) nd
  = if bool_decide (0 < row) && passable lvl (row - 1, col)
    then [(row - 1, col)] else [].
Proof.
  intros Hrow Hnone. unfold neighbors_of. simpl.
  assert ((Z.of_nat row <? Z.of_nat (totalRows nd) - 1)%Z = true) as ->
    by (apply Z.ltb_lt; lia).
  unfold look at 2. rewrite Hnone.
  unfold look, passable. case_bool_decide as H0.
  - assert ((0 <? Z.of_nat row)%Z = true) as -> by (apply Z.ltb_lt; lia).
    simpl. destruct (node_at lvl (row - 1, col)) as [up|]; simpl; [|done].
    by destruct (is_obstacle up).
  - assert ((0 <? Z.of_nat row)%Z = false) as -> by (apply Z.ltb_ge; lia).
    done.
Qed.

End neighbour_lists.

(** X3.  The neighbour list that [Node.update_neighbors] leaves: a selection of
    the positions up, down, left and right of the node, in that order, so
    at most four entries, none twice and never the node itself, each a
    cell of the level that is not an obstacle. *)
Theorem neighbour_list_shape (lvl : list (list Node)) (c : coord) :
  node_neighbors (update_all_neighbors lvl) c `sublist_of` around c
  ∧ NoDup (node_neighbors (update_all_neighbors lvl) c)
  ∧ length (node_neighbors (update_all_neighbors lvl) c) ≤ 4
  ∧ (c ∉ node_neighbors (update_all_neighbors lvl) c)
  ∧ (∀ n, n ∈ node_neighbors (update_all_neighbors lvl) c →
          passable lvl n = true).
Proof.
  assert (Hsub : node_neighbors (update_all_neighbors lvl) c `sublist_of` around c).
  { unfold node_neighbors. rewrite node_at_update_all_neighbors.
    destruct (node_at lvl c) as [nd|]; simpl; [|apply sublist_nil_l].
    apply neighbors_of_sublist. }
  destruct (NoDup_around c) as [Hnd Hc].
  split; [done|]. split; [by eapply sublist_NoDup|]. split.
  { etrans; [by apply sublist_length|]. destruct c as [row col].
    unfold around. simpl. repeat case_bool_decide; simpl; lia. }
  split.
  { intros Hin. apply Hc. by eapply elem_of_sublist. }
  intros n Hn. apply neighbors_ok_update_all in Hn as [_ Hp].
  by rewrite passable_update_all_neighbors in Hp.
Qed.

(** X4.  The [except: pass] of [Node.update_neighbors]: when the look down
    raises, because the row below is too short to have the column of the
    node, the looks to the left and to the right are not made, and the
    neighbour list holds at most the node above. *)
Theorem neighbours_after_raise (lvl : list (list Node)) (row col : nat)
    (nd : Node) :
  node_at lvl (row, col) = Some nd →
  row + 1 < totalRows nd →
  node_at lvl (row + 1, col) = None →
  node_neighbors (update_all_neighbors lvl) (row, col)
  = if bool_decide (0 < row) && passable lvl (row - 1, col)
    then [(row - 1, col)] else [].
Proof.
  intros Hnd Hrow Hnone. unfold node_neighbors.
  rewrite node_at_update_all_neighbors, Hnd. simpl.
  by apply neighbors_of_raise.
Qed.

Lemma neighbours_after_raise_witness :
  node_neighbors (update_all_neighbors (level_of (rows_text [".."; "."; ""])))
    (0, 2)
  = if bool_decide (0 < 0)
       && passable (level_of (rows_text [".."; "."; ""])) (0 - 1, 2)
    then [(0 - 1, 2)] else [].
Proof.
  apply (neighbours_after_raise (level_of (rows_text [".."; "."; ""])) 0 2
           (mkNode WHITE [] 2 2 UNVISITED)).
  - reflexivity.
  - simpl. lia.
  - reflexivity.
Defined.


Section rectangular_lists.
Variable lvl : list (list Node).
Hypothesis Hrect : rectangular lvl.

Lemma rectangular_at :
  ∃ cols, (∀ r c, is_Some (node_at lvl (r, c)) ↔ r < length lvl ∧ c < cols)
          ∧ ∀ c nd, node_at lvl c = Some nd →
              totalRows nd = length lvl ∧ totalCols nd = cols.
Proof.
  destruct Hrect as [cols Hcols]. exists cols. split.
  - intros r c. unfold node_at. simpl. split.
    + intros [n Hn].
      destruct (lvl !! r) as [line|] eqn:Hline; [|done]. simpl in Hn.
      split; [by eapply lookup_lt_Some|].
      destruct (Hcols line) as [<- _]; [by eapply list_elem_of_lookup_2|].
      by eapply lookup_lt_Some.
    + intros [Hr Hc].
      destruct (lookup_lt_is_Some_2 lvl r Hr) as [line Hline]. rewrite Hline.
      simpl. apply lookup_lt_is_Some_2.
      destruct (Hcols line) as [-> _]; [|done]. by eapply list_elem_of_lookup_2.
  - intros [r c] nd Hnd. unfold node_at in Hnd. simpl in Hnd.
    destruct (lvl !! r) as [line|] eqn:Hline; [|done]. simpl in Hnd.
    destruct (Hcols line) as [_ Hn]; [by eapply list_elem_of_lookup_2|].
    apply Hn. by eapply list_elem_of_lookup_2.
Qed.

End rectangular_lists.

(** Checks by computation, for examples. *)
Lemma rectangular_check (lvl : list (list Node)) (cols : nat) :
  forallb (λ line,
    (length line =? cols)
    && forallb (λ n, (totalRows n =? length lvl) && (totalCols n =? cols)) line)
    lvl = true →
  rectangular lvl.
Proof.
  intros H. exists cols. intros line Hin.
  rewrite forallb_forall in H. apply list_elem_of_In in Hin.
  apply H in Hin. apply andb_true_iff in Hin as [Hlen Hall].
  apply Nat.eqb_eq in Hlen. split; [done|]. intros n Hn.
  rewrite forallb_forall in Hall. apply list_elem_of_In in Hn.
  apply Hall in Hn. apply andb_true_iff in Hn as [H1 H2].
  by apply Nat.eqb_eq in H1, H2.
Qed.

(** X5.  On a rectangular level the neighbour list of a cell is the list of
    the cells around it that are not obstacles, in the order up, down,
    left, right. *)
Theorem neighbour_list_rectangular (lvl : list (list Node)) (c : coord) :
  rectangular lvl →
  is_Some (node_at lvl c) →
  node_neighbors (update_all_neighbors lvl) c
  = filter (λ n, passable lvl n = true) (around c).
Proof.
  intros Hrect [nd Hnd]. destruct (rectangular_at lvl Hrect) as (cols & Hat & Htot).
  destruct (Htot _ _ Hnd) as [Hrows Hcolsn].
  destruct c as [row col]. destruct (proj1 (Hat row col)) as [Hrow Hcol]; [eauto|].
  assert (Hout : ∀ r c, ¬ (r < length lvl ∧ c < cols) → passable lvl (r, c) = false).
  { intros r c Hn. unfold passable.
    destruct (node_at lvl (r, c)) eqn:E; [|done].
    exfalso. apply Hn, Hat. eauto. }
  unfold node_neighbors. rewrite node_at_update_all_neighbors, Hnd.
  simpl. unfold neighbors_of, around. simpl. rewrite Hrows, Hcolsn.
  rewrite (look_total _ _ (row - 1, col)); simpl.
  2:{ intros H%Z.ltb_lt. apply Hat; lia. }
  rewrite (look_total _ _ (row + 1, col)); simpl.
  2:{ intros H%Z.ltb_lt. apply Hat; lia. }
  rewrite (look_total _ _ (row, col - 1)); simpl.
  2:{ intros H%Z.ltb_lt. apply Hat; lia. }
  rewrite (look_total _ _ (row, col + 1)); simpl.
  2:{ intros H%Z.ltb_lt. apply Hat; lia. }
  assert (Hg : ∀ k : nat, (0 <? Z.of_nat k)%Z = bool_decide (0 < k)).
  { intros k. case_bool_decide; [apply Z.ltb_lt|apply Z.ltb_ge]; lia. }
  rewrite !Hg.
  assert (Hd : (Z.of_nat row <? Z.of_nat (length lvl) - 1)%Z
               && passable lvl (row + 1, col) = passable lvl (row + 1, col)).
  { destruct (Z.of_nat row <? _)%Z eqn:E; [done|]. apply Z.ltb_ge in E.
    symmetry. apply Hout. lia. }
  assert (Hr : (Z.of_nat col <? Z.of_nat cols - 1)%Z
               && passable lvl (row, col + 1) = passable lvl (row, col + 1)).
  { destruct (Z.of_nat col <? _)%Z eqn:E; [done|]. apply Z.ltb_ge in E.
    symmetry. apply Hout. lia. }
  rewrite Hd, Hr.
  destruct (passable lvl (row - 1, col)) eqn:E1,
    (passable lvl (row + 1, col)) eqn:E2,
    (passable lvl (row, col - 1)) eqn:E3,
    (passable lvl (row, col + 1)) eqn:E4;
    do 2 case_bool_decide; simpl;
    rewrite ?filter_cons, ?filter_nil; repeat case_decide;
    congruence.
Qed.

Lemma neighbour_list_rectangular_witness :
  node_neighbors
    (update_all_neighbors (level_of (rows_text ["S#G"; "..."; ""]))) (1, 1)
  = filter (λ n, passable (level_of (rows_text ["S#G"; "..."; ""])) n = true)
      (around (1, 1)).
Proof.
  apply (neighbour_list_rectangular (level_of (rows_text ["S#G"; "..."; ""]))
           (1, 1)).
  - apply (rectangular_check _ 4). reflexivity.
  - eexists. reflexivity.
Defined.


(** X6.  The neighbour lists of a rectangular level are symmetric between
    cells that are not obstacles. *)
Theorem neighbours_symmetric (lvl : list (list Node)) (a b : coord) :
  rectangular lvl →
  passable lvl a = true →
  linked (update_all_neighbors lvl) a b → linked (update_all_neighbors lvl) b a.
Proof.
  intros Hrect Ha (_ & Hadj & Hb)%linked_grid_step.
  apply grid_step_linked; [done|]. split; [|split].
  - by apply passable_in_level.
  - by rewrite adjacent4_sym.
  - done.
Qed.

Lemma neighbours_symmetric_witness :
  linked (update_all_neighbors (level_of (rows_text ["S#G"; "..."; ""])))
    (1, 1) (1, 0).
Proof.
  apply (neighbours_symmetric (level_of (rows_text ["S#G"; "..."; ""]))
           (1, 0) (1, 1)).
  - apply (rectangular_check _ 4). reflexivity.
  - reflexivity.
  - vm_compute. apply list_elem_of_further, list_elem_of_here.
Defined.


(* ===================================================================== *)
(** ** What [make_level] returns *)
(* ===================================================================== *)

Section reading.
Implicit Types (line : list ascii) (lines : list (list ascii)).

Lemma pick_app l1 l2 before : pick (l1 ++ l2) before = pick l2 (pick l1 before).
Proof.
  unfold pick. destruct l2 as [|x l2 _] using rev_ind.
  - by rewrite app_nil_r.
  - by rewrite (assoc_L (++)), !last_snoc.
Qed.

Lemma pick_if (char symbol : ascii) (c : coord) before :
  (if bool_decide (char = symbol) then Some c else before)
  = pick (if decide (char = symbol) then [c] else []) before.
Proof.
  case_decide; [by rewrite bool_decide_eq_true_2|by rewrite bool_decide_eq_false_2].
Qed.

Lemma read_char_node rows cols char node is_s is_g :
  read_char char (Node_init rows cols) = Some (node, is_s, is_g) →
  node = char_node rows cols char
  ∧ is_s = bool_decide (char = NodeType_value START)
  ∧ is_g = bool_decide (char = NodeType_value GOAL).
Proof.
  unfold read_char, char_node, char_type.
  repeat match goal with
    | |- context [decide ?P] => destruct (decide P)
    end; intros [= <- <- <-]; subst; try discriminate;
    (split; [reflexivity|]);
    split; symmetry;
    first [by apply bool_decide_eq_true_2
          |apply bool_decide_eq_false_2; first [congruence|discriminate]].
Qed.

Lemma read_line_result size i j line row start goal row' start' goal' :
  read_line size i j line row start goal = inr (row', start', goal') →
  row' = row ++ map (char_node size.1 size.2) line
  ∧ start' = pick (line_cells (NodeType_value START) i j line) start
  ∧ goal' = pick (line_cells (NodeType_value GOAL) i j line) goal.
Proof.
  revert j row start goal.
  induction line as [|char line IH]; intros j row start goal; simpl.
  - intros [= <- <- <-]. by rewrite app_nil_r.
  - destruct (read_char char _) as [[[node is_s] is_g]|] eqn:Hr; [|done].
    apply read_char_node in Hr as (-> & -> & ->).
    case_bool_decide; [done|]. intros (-> & -> & ->)%IH.
    rewrite <- (assoc_L (++)). split; [done|].
    by rewrite !pick_app, <- !pick_if.
Qed.

Lemma read_lines_result size i lines lvl start goal last lvl' start' goal' last' :
  read_lines size i lines lvl start goal last = inr (lvl', start', goal', last') →
  lvl' = lvl ++ map (map (char_node size.1 size.2)) lines
  ∧ start' = pick (text_cells (NodeType_value START) i lines) start
  ∧ goal' = pick (text_cells (NodeType_value GOAL) i lines) goal
  ∧ last' = from_option length last (list.last lines).
Proof.
  revert i lvl start goal last.
  induction lines as [|line lines IH]; intros i lvl start goal last; simpl.
  - intros [= <- <- <- <-]. by rewrite app_nil_r.
  - destruct (read_line size i 0 line [] start goal)
      as [e|[[row s] g]] eqn:Hr; [done|].
    apply read_line_result in Hr as (-> & -> & ->).
    case_bool_decide; [done|]. intros (-> & -> & -> & ->)%IH.
    rewrite <- (assoc_L (++)), !pick_app. simpl.
    repeat split. rewrite last_cons. by destruct (list.last lines).
Qed.

Lemma map_map_set_totals rows cols a b lines :
  map (map (set_totals rows cols)) (map (map (char_node a b)) lines)
  = map (map (char_node rows cols)) lines.
Proof.
  rewrite <- list_fmap_compose. apply list_fmap_ext. intros _ line _. simpl.
  rewrite <- list_fmap_compose. by apply list_fmap_ext.
Qed.

(** What [make_level] returns, when it returns. *)
Lemma make_level_result size text lvl start goal :
  make_level size text = inr (lvl, start, goal) →
  text_lines text ≠ []
  ∧ lvl = map (map (char_node (length (text_lines text))
                      (from_option length 0 (last (text_lines text)))))
            (text_lines text)
  ∧ start = last (text_cells (NodeType_value START) 0 (text_lines text))
  ∧ goal = last (text_cells (NodeType_value GOAL) 0 (text_lines text)).
Proof.
  unfold make_level. fold (text_lines text).
  destruct (text_lines text) as [|line lines] eqn:Hl; [done|].
  rewrite <- Hl.
  destruct (read_lines size 0 (text_lines text) [] None None 0)
    as [e|[[[lvl' s] g] cols]] eqn:Hr; [done|].
  apply read_lines_result in Hr as (-> & -> & -> & ->).
  intros [= <- <- <-]. split; [by rewrite Hl|]. simpl.
  rewrite map_map_set_totals. unfold pick.
  repeat split; by destruct (last _).
Qed.

(** The type of a node read from the text. *)
Lemma node_at_chars rows cols lines c :
  node_at (map (map (char_node rows cols)) lines) c
  = char_node rows cols <$> (lines !! c.1 ≫= λ line, line !! c.2).
Proof.
  unfold node_at. rewrite list_lookup_fmap.
  destruct (lines !! c.1) as [line|]; simpl; [|done].
  by rewrite list_lookup_fmap.
Qed.

Lemma elem_of_line_cells char i j line c :
  c ∈ line_cells char i j line ↔
  c.1 = i ∧ j ≤ c.2 ∧ line !! (c.2 - j) = Some char.
Proof.
  revert j. induction line as [|ch line IH]; intros j; simpl.
  - split; [by intros ?%elem_of_nil|]. by intros (_ & _ & [=]).
  - rewrite elem_of_app, IH. destruct c as [r k]; simpl. split.
    + intros [H|(-> & Hj & Hk)].
      * case_decide; [|by apply elem_of_nil in H].
        apply list_elem_of_singleton in H as [= -> ->]. subst.
        by rewrite Nat.sub_diag.
      * split; [done|]. split; [lia|].
        by replace (k - j) with (S (k - S j)) by lia.
    + intros (-> & Hj & Hk). destruct (decide (k = j)) as [->|Hne].
      * left. rewrite Nat.sub_diag in Hk. simpl in Hk. injection Hk as ->.
        rewrite decide_True by done. apply list_elem_of_here.
      * right. split; [done|]. split; [lia|].
        by replace (k - j) with (S (k - S j)) in Hk by lia.
Qed.

Lemma elem_of_text_cells char i lines c :
  c ∈ text_cells char i lines ↔
  i ≤ c.1 ∧ (lines !! (c.1 - i) ≫= λ line, line !! c.2) = Some char.
Proof.
  revert i. induction lines as [|line lines IH]; intros i; simpl.
  - split; [by intros ?%elem_of_nil|]. by intros (_ & [=]).
  - rewrite elem_of_app, IH, elem_of_line_cells. destruct c as [r k]; simpl.
    rewrite Nat.sub_0_r. split.
    + intros [(-> & _ & Hk)|[Hi Hk]].
      * by rewrite Nat.sub_diag.
      * split; [lia|]. by replace (r - i) with (S (r - S i)) by lia.
    + intros [Hi Hk]. destruct (decide (r = i)) as [->|Hne].
      * left. rewrite Nat.sub_diag in Hk. simpl in Hk. split; [done|].
        split; [lia|done].
      * right. split; [lia|].
        by replace (r - i) with (S (r - S i)) in Hk by lia.
Qed.

End reading.

Section make_level_more.
Implicit Types (line : list ascii) (lines : list (list ascii)).

Lemma read_line_error size i j line row start goal e :
  read_line size i j line row start goal = inl e → e ≠ UnboundLocal.
Proof.
  revert j row start goal.
  induction line as [|char line IH]; intros j row start goal; simpl; [done|].
  destruct (read_char char _) as [[[node is_s] is_g]|]; [|by intros [= <-]].
  case_bool_decide; [by intros [= <-]|]. apply IH.
Qed.

Lemma read_lines_error size i lines lvl start goal last e :
  read_lines size i lines lvl start goal last = inl e → e ≠ UnboundLocal.
Proof.
  revert i lvl start goal last.
  induction lines as [|line lines IH]; intros i lvl start goal last; simpl;
    [done|].
  destruct (read_line size i 0 line [] start goal)
    as [e'|[[row s] g]] eqn:Hr.
  - intros [= <-]. by eapply read_line_error.
  - case_bool_decide; [by intros [= <-]|]. apply IH.
Qed.

Lemma read_char_size char node1 node2 :
  match read_char char node1, read_char char node2 with
  | None, None => True
  | Some (_, s1, g1), Some (_, s2, g2) => s1 = s2 ∧ g1 = g2
  | _, _ => False
  end.
Proof.
  unfold read_char.
  repeat match goal with
    | |- context [decide ?P] => destruct (decide P)
    end; done.
Qed.

Lemma read_line_size size1 size2 i j line row1 row2 start goal :
  match read_line size1 i j line row1 start goal,
        read_line size2 i j line row2 start goal with
  | inl e1, inl e2 => e1 = e2
  | inr (_, s1, g1), inr (_, s2, g2) => s1 = s2 ∧ g1 = g2
  | _, _ => False
  end.
Proof.
  revert j row1 row2 start goal.
  induction line as [|char line IH]; intros j row1 row2 start goal; simpl;
    [done|].
  pose proof (read_char_size char (Node_init size1.1 size1.2)
                (Node_init size2.1 size2.2)) as Hc.
  destruct (read_char char (Node_init size1.1 size1.2)) as [[[n1 s1] g1]|],
    (read_char char (Node_init size2.1 size2.2)) as [[[n2 s2] g2]|];
    try done.
  destruct Hc as [-> ->]. case_bool_decide; [done|]. apply IH.
Qed.

Lemma read_lines_size size1 size2 i lines lvl1 lvl2 start goal last :
  match read_lines size1 i lines lvl1 start goal last,
        read_lines size2 i lines lvl2 start goal last with
  | inl e1, inl e2 => e1 = e2
  | inr (_, s1, g1, c1), inr (_, s2, g2, c2) => s1 = s2 ∧ g1 = g2 ∧ c1 = c2
  | _, _ => False
  end.
Proof.
  revert i lvl1 lvl2 start goal last.
  induction lines as [|line lines IH]; intros i lvl1 lvl2 start goal last; simpl;
    [done|].
  pose proof (read_line_size size1 size2 i 0 line [] [] start goal) as Hl.
  destruct (read_line size1 i 0 line [] start goal) as [e1|[[r1 s1] g1]],
    (read_line size2 i 0 line [] start goal) as [e2|[[r2 s2] g2]]; try done.
  destruct Hl as [-> ->]. case_bool_decide; [done|]. apply IH.
Qed.

Lemma text_lines_shape (text : string) line :
  line ∈ text_lines text → line ≠ [].
Proof.
  intros Hin.
  apply (file_lines_shape [] (String.list_ascii_of_string text) line);
    [by intros ?%elem_of_nil|done].
Qed.

Lemma last_elem_of {A} (l : list A) (c : A) : last l = Some c → c ∈ l.
Proof.
  destruct l as [|x l _] using rev_ind; [done|]. rewrite last_snoc.
  intros [= ->]. apply elem_of_app. right. apply list_elem_of_here.
Qed.

Lemma text_cells_nil char (text : string) :
  text_cells char 0 (text_lines text) = [] ↔
  char ∉ String.list_ascii_of_string text.
Proof.
  rewrite <- text_lines_chars. split.
  - intros Hnil (line & Hc & Hl)%list_elem_of_join.
    apply list_elem_of_lookup in Hl as [i Hi].
    apply list_elem_of_lookup in Hc as [j Hj].
    assert ((i, j) ∈ text_cells char 0 (text_lines text)) as Hin.
    { apply elem_of_text_cells. simpl. split; [lia|].
      by rewrite Nat.sub_0_r, Hi. }
    rewrite Hnil in Hin. by apply elem_of_nil in Hin.
  - intros Hno. destruct (text_cells char 0 (text_lines text)) as [|c l] eqn:E;
      [done|].
    exfalso. apply Hno.
    assert (c ∈ text_cells char 0 (text_lines text)) as Hin
      by (rewrite E; apply list_elem_of_here).
    apply elem_of_text_cells in Hin as [_ Hin]. rewrite Nat.sub_0_r in Hin.
    destruct (text_lines text !! c.1) as [line|] eqn:Hline; [|done].
    simpl in Hin. apply list_elem_of_join. exists line.
    split; by eapply list_elem_of_lookup_2.
Qed.

Lemma symbol_type rows cols lines t c :
  t = START ∨ t = GOAL →
  c ∈ text_cells (NodeType_value t) 0 lines →
  node_type (map (map (char_node rows cols)) lines) c = Some t.
Proof.
  intros Ht [_ Hc]%elem_of_text_cells. rewrite Nat.sub_0_r in Hc.
  unfold node_type. rewrite node_at_chars, Hc. simpl.
  by destruct Ht as [-> | ->].
Qed.

End make_level_more.

(** X7.  The nodes of the level that [make_level] returns: one for every
    character of the text, the newlines included, at the row of its line
    and the column of its place in the line; its colour and type are
    those of the character, its neighbour list is empty, [totalRows] is
    the number of lines and [totalCols] the length of the last line. *)
Theorem make_level_nodes (size : nat * nat) (text : string)
    (lvl : list (list Node)) (start goal : option coord) (c : coord) :
  make_level size text = inr (lvl, start, goal) →
  node_at lvl c
  = char_node (length (text_lines text))
      (from_option length 0 (last (text_lines text)))
    <$> (text_lines text !! c.1 ≫= λ line, line !! c.2).
Proof.
  intros (_ & -> & _)%make_level_result. apply node_at_chars.
Qed.

Lemma make_level_nodes_witness :
  node_at (level_of (rows_text ["S#"; ".G"])) (1, 1)
  = char_node (length (text_lines (rows_text ["S#"; ".G"])))
      (from_option length 0 (last (text_lines (rows_text ["S#"; ".G"]))))
    <$> (text_lines (rows_text ["S#"; ".G"]) !! 1 ≫= λ line, line !! 1).
Proof.
  apply (make_level_nodes (0, 0) (rows_text ["S#"; ".G"])
           (level_of (rows_text ["S#"; ".G"])) (Some (0, 0)) (Some (1, 1))
           (1, 1)).
  reflexivity.
Defined.


(** X8.  The start and the goal that [make_level] returns: the last ['S'] and
    the last ['G'] of the text in reading order, nodes of type [START]
    and [GOAL]; [None] when the text has no such character. *)
Theorem make_level_start_goal (size : nat * nat) (text : string)
    (lvl : list (list Node)) (start goal : option coord) :
  make_level size text = inr (lvl, start, goal) →
  start = last (text_cells (NodeType_value START) 0 (text_lines text))
  ∧ goal = last (text_cells (NodeType_value GOAL) 0 (text_lines text))
  ∧ (start = None ↔ NodeType_value START ∉ String.list_ascii_of_string text)
  ∧ (goal = None ↔ NodeType_value GOAL ∉ String.list_ascii_of_string text)
  ∧ (∀ s, start = Some s → node_type lvl s = Some START)
  ∧ (∀ g, goal = Some g → node_type lvl g = Some GOAL).
Proof.
  intros (_ & -> & -> & ->)%make_level_result.
  split; [done|]. split; [done|].
  split; [by rewrite last_None, text_cells_nil|].
  split; [by rewrite last_None, text_cells_nil|].
  split; intros c Hc%last_elem_of; apply symbol_type; auto.
Qed.

Lemma make_level_start_goal_witness :
  Some (0, 2)
  = last (text_cells (NodeType_value START) 0
            (text_lines (rows_text ["S.S"; "G.."])))
  ∧ Some (1, 0)
    = last (text_cells (NodeType_value GOAL) 0
              (text_lines (rows_text ["S.S"; "G.."])))
  ∧ (Some (0, 2) = None ↔
     NodeType_value START
       ∉ String.list_ascii_of_string (rows_text ["S.S"; "G.."]))
  ∧ (Some (1, 0) = None ↔
     NodeType_value GOAL
       ∉ String.list_ascii_of_string (rows_text ["S.S"; "G.."]))
  ∧ (∀ s, Some (0, 2) = Some s →
       node_type (level_of (rows_text ["S.S"; "G.."])) s = Some START)
  ∧ (∀ g, Some (1, 0) = Some g →
       node_type (level_of (rows_text ["S.S"; "G.."])) g = Some GOAL).
Proof.
  apply (make_level_start_goal (0, 0) (rows_text ["S.S"; "G.."])
           (level_of (rows_text ["S.S"; "G.."])) (Some (0, 2)) (Some (1, 0))).
  reflexivity.
Defined.


(** X9.  [make_level] returns a level exactly for the texts that are not
    empty, hold only the characters ['#'], ['S'], ['G'], ['.'] and the
    newline, and have at most [ROW_LIMIT + 1] lines of at most
    [COL_LIMIT + 1] characters each, the newline counted.  It ends in the
    unbound variable of line 222 exactly on the empty text. *)
Theorem make_level_domain (size : nat * nat) (text : string) :
  ((∃ r, make_level size text = inr r) ↔
     text ≠ EmptyString
     ∧ Forall (λ char, valid_char char = true) (String.list_ascii_of_string text)
     ∧ length (text_lines text) ≤ S ROW_LIMIT
     ∧ Forall (λ line, length line ≤ S COL_LIMIT) (text_lines text))
  ∧ (make_level size text = inl UnboundLocal ↔ text = EmptyString).
Proof.
  assert (Hshape : Forall (λ line, line ≠ []) (text_lines text)).
  { apply Forall_forall. intros line. apply text_lines_shape. }
  assert (Hbad : Exists (λ line, Exists (λ char, valid_char char = false) line
                                 ∨ S COL_LIMIT < length line) (text_lines text)
                 ∨ (text_lines text ≠ [] ∧ S ROW_LIMIT < 0 + length (text_lines text)) →
                 ∃ e, make_level size text = inl e).
  { intros H. unfold make_level. fold (text_lines text).
    destruct (read_lines_inl size 0 (text_lines text) [] None None 0 Hshape H)
      as [e ->].
    destruct (text_lines text); eauto. }
  split; [split|split].
  - intros [r Hr]. split; [|split; [|split]].
    + intros ->. done.
    + apply Forall_forall. intros char Hc.
      destruct (valid_char char) eqn:Hv; [done|].
      destruct Hbad as [e He]; [|congruence]. left.
      eapply Exists_impl; [|intros line Hl; left; exact Hl].
      apply text_lines_invalid. apply Exists_exists. eauto.
    + destruct (decide (length (text_lines text) ≤ S ROW_LIMIT)) as [|Hn]; [done|].
      destruct Hbad as [e He]; [|congruence]. right. split; [|simpl; lia].
      intros Hnil. rewrite Hnil in Hn. simpl in Hn. lia.
    + apply Forall_forall. intros line Hin.
      destruct (decide (length line ≤ S COL_LIMIT)) as [|Hn]; [done|].
      destruct Hbad as [e He]; [|congruence]. left.
      apply Exists_exists. exists line. split; [done|]. right. lia.
  - intros (Hne & Hvalid & Hrows & Hcols). unfold make_level.
    fold (text_lines text).
    destruct (read_lines_inr size 0 (text_lines text) [] None None 0)
      as (lvl' & start' & goal' & last' & Hr & _).
    { apply Forall_forall. intros line Hin. split.
      - apply Forall_forall. intros char Hc.
        apply (proj1 (Forall_forall _ _) Hvalid).
        rewrite <- text_lines_chars. apply list_elem_of_join. eauto.
      - by apply (proj1 (Forall_forall _ _) Hcols). }
    { right. simpl. lia. }
    rewrite Hr. simpl.
    destruct (text_lines text) as [|line lines] eqn:Hl; [|eauto].
    by apply text_lines_nil in Hl.
  - unfold make_level. fold (text_lines text).
    destruct (text_lines text) as [|line lines] eqn:Hl.
    { intros _. by apply text_lines_nil. }
    rewrite <- Hl.
    destruct (read_lines size 0 (text_lines text) [] None None 0)
      as [e|[[[lvl' s] g] cols]] eqn:Hr; [|done].
    intros [= ->]. by apply read_lines_error in Hr.
  - intros ->. reflexivity.
Qed.

(** X10.  What the dictionary [size] holds when [make_level] is called plays
    no part: the totals of all nodes are set from the text (lines 222 to
    230), so reading the file again, as [main] does on a reset, gives the
    same result. *)
Theorem make_level_size (size1 size2 : nat * nat) (text : string) :
  make_level size1 text = make_level size2 text.
Proof.
  unfold make_level. fold (text_lines text).
  destruct (text_lines text) as [|line lines] eqn:Hl; [done|].
  rewrite <- Hl.
  pose proof (read_lines_size size1 size2 0 (text_lines text) [] [] None None 0)
    as Hs.
  destruct (read_lines size1 0 (text_lines text) [] None None 0)
    as [e1|[[[l1 s1] g1] c1]] eqn:H1,
    (read_lines size2 0 (text_lines text) [] None None 0)
    as [e2|[[[l2 s2] g2] c2]] eqn:H2; try done.
  - congruence.
  - destruct Hs as (-> & -> & ->).
    apply read_lines_result in H1 as (-> & _).
    apply read_lines_result in H2 as (-> & _).
    simpl. by rewrite !map_map_set_totals.
Qed.

(** X11.  The level is rectangular exactly when all lines of the text have the
    same length, the newline counted. *)
Theorem make_level_rectangular (size : nat * nat) (text : string)
    (lvl : list (list Node)) (start goal : option coord) :
  make_level size text = inr (lvl, start, goal) →
  rectangular lvl ↔ ∃ n, Forall (λ line, length line = n) (text_lines text).
Proof.
  intros (Hne & -> & _)%make_level_result.
  set (rows := length (text_lines text)).
  set (cols := from_option length 0 (last (text_lines text))).
  unfold rectangular. split.
  - intros [n Hn]. exists n. apply Forall_forall. intros line Hin.
    destruct (Hn (map (char_node rows cols) line)) as [Hlen _].
    + apply list_elem_of_fmap. eauto.
    + by rewrite length_map in Hlen.
  - intros [n Hn]. exists n. intros row (line & -> & Hin)%list_elem_of_fmap.
    rewrite length_map. split; [by apply (proj1 (Forall_forall _ _) Hn)|].
    intros nd (char & -> & _)%list_elem_of_fmap. simpl.
    rewrite length_map. split; [done|]. unfold cols.
    destruct (last (text_lines text)) as [l|] eqn:Hlast.
    + simpl. apply (proj1 (Forall_forall _ _) Hn). by apply last_elem_of.
    + by apply last_None in Hlast.
Qed.

Lemma make_level_rectangular_witness :
  rectangular (level_of (rows_text ["S#G"; "..."; ""]))
  ↔ ∃ n, Forall (λ line, length line = n)
           (text_lines (rows_text ["S#G"; "..."; ""])).
Proof.
  apply (make_level_rectangular (0, 0) (rows_text ["S#G"; "..."; ""])
           (level_of (rows_text ["S#G"; "..."; ""])) (Some (0, 0))
           (Some (0, 2))).
  reflexivity.
Defined.


(* ===================================================================== *)
(** ** The marks, the scores and the queue of the search *)
(* ===================================================================== *)

Lemma get_score_inf_scores lvl c : get_score (inf_scores lvl) c = Infinity.
Proof.
  unfold get_score, inf_scores.
  destruct (list_to_map _ !! c) as [s|] eqn:E; simpl; [|done].
  by apply elem_of_list_to_map_2, list_elem_of_fmap in E as (c' & [= -> ->] & _).
Qed.

Section search_marks.
Variables (lvl0 : list (list Node)) (start goal : coord).
Hypothesis Hok : neighbors_ok lvl0.
Hypothesis Hstart : start ∈ cells lvl0.

Lemma marks_init : marks lvl0 start goal (init_state lvl0 start goal).
Proof.
  constructor; simpl.
  - done.
  - intros c ->%elem_of_singleton. done.
  - intros c. rewrite !get_score_insert.
    destruct (decide (start = c)) as [->|Hne]; [reflexivity|].
    by rewrite get_score_inf_scores.
  - unfold put. simpl. intros e ->%list_elem_of_singleton. by left.
  - intros c k. rewrite get_score_insert.
    destruct (decide (start = c)) as [->|Hne].
    + intros [= <-]. constructor.
    + by rewrite get_score_inf_scores.
Qed.

Lemma marks_relax cur n st :
  mid lvl0 start goal cur st → marks lvl0 start goal st → linked lvl0 cur n →
  marks lvl0 start goal (relax goal cur n st).
Proof.
  intros (I & Hcur & kc & Hkc) M Hl. unfold relax. rewrite Hkc.
  cbn [score_add].
  destruct (score_ltb (Finite (kc + 1)) (get_score (gScore st) n)) eqn:Hlt;
    [|done].
  assert (Hns : n ≠ start).
  { intros ->. rewrite (inv_start _ _ _ _ _ I) in Hlt. simpl in Hlt.
    apply Nat.ltb_lt in Hlt. lia. }
  assert (Hsteps : ∀ c k,
    get_score (<[n:=Finite (kc + 1)]> (gScore st)) c = Finite k →
    nsteps (linked lvl0) k start c).
  { intros c k. rewrite get_score_insert.
    destruct (decide (n = c)) as [<-|Hne]; [|apply M].
    intros [= <-]. replace (kc + 1) with (S kc) by lia.
    eapply nsteps_r; [|exact Hl]. by apply M. }
  assert (Hf : ∀ c,
    get_score (<[n:=Finite (kc + 1 + h n goal)]> (fScore st)) c
    = score_add (get_score (<[n:=Finite (kc + 1)]> (gScore st)) c) (h c goal)).
  { intros c. rewrite !get_score_insert.
    destruct (decide (n = c)) as [<-|Hne]; [reflexivity|apply M]. }
  assert (Hold : ∀ e, e ∈ openNodes st →
    e = (Finite 0, 0, start)
    ∨ ∃ k p, get_score (<[n:=Finite (kc + 1)]> (gScore st)) (entry_node e)
             = Finite k
             ∧ entry_priority e = Finite p ∧ k + h (entry_node e) goal ≤ p).
  { intros e He.
    destruct (marks_priority _ _ _ _ M e He) as [?|(k & p & Hk & Hp & Hle)];
      [by left|right].
    rewrite get_score_insert. destruct (decide (n = entry_node e)) as [->|Hne].
    - rewrite Hk in Hlt. simpl in Hlt. apply Nat.ltb_lt in Hlt.
      exists (kc + 1), p. split; [done|]. split; [done|]. lia.
    - eauto. }
  destruct (bool_decide (n ∈ openNodesHash st)) eqn:Hin.
  - constructor; simpl; try done.
    + intros c. rewrite get_score_insert.
      destruct (decide (n = c)); [done|apply M].
    + apply M.
  - apply bool_decide_eq_false in Hin.
    constructor; simpl; try done.
    + intros c. rewrite get_score_insert.
      destruct (decide (n = c)) as [|Hne]; [done|].
      intros Hc. rewrite node_at_update_node_ne by done. by apply M.
    + intros c Hc Hcs. unfold node_type. rewrite node_at_update_node.
      destruct (decide (n = c)) as [<-|Hne].
      * assert (is_Some (node_at (level st) n)) as [nd ->]; [|done].
        apply elem_of_cells. rewrite (inv_cells _ _ _ _ _ I).
        by eapply linked_cells.
      * apply M; [|done]. apply elem_of_union in Hc as [Hc|Hc]; [|done].
        by apply elem_of_singleton in Hc.
    + unfold put. intros e [He|He%list_elem_of_singleton]%elem_of_app;
        [by apply Hold|].
      subst e. right. unfold entry_node, entry_priority. simpl.
      rewrite !get_score_insert_eq. eauto.
Qed.

Lemma marks_expand_list cur l st :
  mid lvl0 start goal cur st → marks lvl0 start goal st →
  (∀ n, n ∈ l → linked lvl0 cur n) →
  marks lvl0 start goal (foldl (λ s n, relax goal cur n s) st l).
Proof.
  revert st. induction l as [|n l IH]; intros st Hm M Hl; simpl; [done|].
  apply IH.
  - apply relax_mid; [done..|]. apply Hl, list_elem_of_here.
  - apply marks_relax; [done..|]. apply Hl, list_elem_of_here.
  - intros m Hm'. by apply Hl, list_elem_of_further.
Qed.

Lemma marks_pop vis st e q' :
  marks lvl0 start goal st → get (openNodes st) = Some (e, q') →
  marks lvl0 start goal (pop_step vis q' (entry_node e) st).
Proof.
  intros M Hget. apply get_perm in Hget.
  constructor; simpl; try (by destruct M).
  - intros c [Hc _]%elem_of_difference. by apply M.
  - intros x Hx. apply M. rewrite Hget. by apply list_elem_of_further.
Qed.

Lemma marks_close cur st :
  mid lvl0 start goal cur st → marks lvl0 start goal st →
  marks lvl0 start goal (close_step start cur (draw_step st)).
Proof.
  intros (I & Hcur & kc & Hkc) M. unfold close_step, draw_step.
  destruct (visualize st), (bool_decide (cur ≠ start)) eqn:Hne; simpl;
    try (constructor; simpl; by destruct M);
    constructor; simpl; try (by destruct M).
  all: try (intros c Hc; rewrite node_at_update_node_ne; [by apply M|];
            intros <-; congruence).
  all: intros c Hc Hcs; unfold node_type;
    rewrite node_at_update_node_ne; [by apply M|]; by intros <-.
Qed.

Lemma post_marks_post o st' :
  post_marks lvl0 start goal o st' → post lvl0 start goal o st'.
Proof.
  destruct o as [path| |]; simpl.
  - intros (st1 & walk & Hm & _ & Hw & Hl & -> & ->). exists st1, walk. done.
  - tauto.
  - tauto.
Qed.

Lemma search_marks fuel events st :
  inv lvl0 start goal None st → marks lvl0 start goal st →
  variant lvl0 st < fuel →
  ∃ o st', search fuel events start goal st = Some (o, st')
           ∧ post_marks lvl0 start goal o st'
           ∧ (no_exit events → o ≠ Exited).
Proof.
  revert events st. induction fuel as [|fuel IH]; intros events st I M Hv; [lia|].
  simpl. destruct (get (openNodes st)) as [[[[p k] cur] q']|] eqn:Hget.
  2:{ exists NotFound, st. split; [done|]. split; [|done].
      split; [done|]. split; [done|]. by apply get_None. }
  destruct (handle_events (default [] (head events)) (visualize st))
    as [vis|] eqn:Hev.
  2:{ exists Exited, st. split; [done|]. split; [done|].
      intros Hne. by apply no_exit_head with (vis := visualize st) in Hne. }
  destruct (pop_mid lvl0 start goal vis st _ q' I Hget) as [M1 V1].
  pose proof (marks_pop vis st _ q' M Hget) as K1.
  unfold entry_node in M1, V1, K1. simpl in M1, V1, K1.
  set (st1 := pop_step vis q' cur st) in *.
  destruct (bool_decide (cur = goal)) eqn:Hg.
  - apply bool_decide_eq_true in Hg. subst cur.
    destruct M1 as (I1 & Hc1 & kc & Hkc).
    destruct (inv_bound _ _ _ _ _ I1 goal kc Hkc) as [_ Hb].
    pose proof (discovered_le lvl0 (gScore st1)) as Hd.
    destruct (reconstruct_path_walk (came_from st) (gScore st)) with
      (fuel := walk_fuel (update_node set_goal goal (level st)))
      (cur := goal) (k := kc)
      (lvl := update_node set_goal goal (level st)) (fr := frames st)
      as (walk & Hrec & Hw & Hlen).
    { intros n q Hq. destruct (inv_came _ _ _ _ _ I1 n q Hq)
        as (gn & gp & ? & ? & ? & _). eauto. }
    { done. }
    { unfold walk_fuel. rewrite cells_update_node.
      rewrite (inv_cells _ _ _ _ _ I). simpl in Hb, Hd. lia. }
    rewrite Hrec. eexists _, _. split; [done|]. split; [|done].
    exists st1, walk. simpl.
    split; [exact (conj I1 (conj Hc1 (ex_intro _ kc Hkc)))|].
    split; [done|]. split; [done|]. split; [|done].
    eapply (walk_ends (came_from st1) (gScore st1)); eauto.
    + intros n q Hq. destruct (inv_came _ _ _ _ _ I1 n q Hq)
        as (gn & gp & ? & ? & ? & _). eauto.
    + apply (inv_disc _ _ _ _ _ I1).
  - unfold expand.
    assert (Hn : node_neighbors (level st1) cur = node_neighbors lvl0 cur).
    { destruct M1 as (I1 & _). apply (inv_nbrs _ _ _ _ _ I1). }
    rewrite Hn.
    destruct (expand_list lvl0 start goal Hok cur (node_neighbors lvl0 cur) st1 M1)
      as (M2 & V2 & F2 & _); [done|].
    pose proof (marks_expand_list cur (node_neighbors lvl0 cur) st1 M1 K1) as K2.
    destruct (close_inv lvl0 start goal Hok cur _ M2) as [I4 V4];
      [by apply bool_decide_eq_false in Hg|done|].
    destruct (IH (tail events) _ I4) as (o & st' & Hs & Hp & Hx);
      [apply marks_close; [done|]; by apply K2|lia|].
    exists o, st'. split; [done|]. split; [done|].
    intros Hne. by apply Hx, no_exit_tail.
Qed.

Lemma find_path_marks events :
  ∃ o st', find_path events lvl0 start goal = Some (o, st')
           ∧ post_marks lvl0 start goal o st'
           ∧ (no_exit events → o ≠ Exited).
Proof.
  unfold find_path.
  apply search_marks; [by apply inv_init|apply marks_init|by apply variant_init].
Qed.

End search_marks.

Section walks.
Implicit Types (cf : gmap coord coord) (g : gmap coord score).

Lemma nsteps_h lvl k a b :
  neighbors_ok lvl → nsteps (linked lvl) k a b → h a b ≤ k.
Proof.
  intros Hok Hn. induction Hn as [x|n x y z Hxy _ IH].
  - assert (h x x = 0) as -> by by apply h_zero. done.
  - apply Hok in Hxy as [Hadj _].
    destruct (adjacent4_h _ _ z Hadj); lia.
Qed.

Lemma walk_decreasing cf g :
  (∀ n p, cf !! n = Some p →
     ∃ gn gp, get_score g n = Finite gn ∧ get_score g p = Finite gp ∧ gp < gn) →
  ∀ walk c k, get_score g c = Finite k → is_walk cf c walk →
  length walk ≤ k
  ∧ (∀ p, p ∈ walk → ∃ kp, get_score g p = Finite kp ∧ kp < k)
  ∧ NoDup (c :: walk).
Proof.
  intros Hcf. induction walk as [|q walk IH]; intros c k Hc Hw; simpl in *.
  - split; [lia|]. split; [by intros p ?%elem_of_nil|]. apply NoDup_singleton.
  - destruct Hw as [Hq Hw].
    destruct (Hcf c q Hq) as (gn & gp & Hgn & Hgp & Hlt).
    rewrite Hc in Hgn. injection Hgn as <-.
    destruct (IH q gp Hgp Hw) as (Hlen & Hall & Hnd).
    split; [lia|]. split.
    + intros p [->|Hp]%elem_of_cons; [eauto|].
      destruct (Hall p Hp) as (kp & ? & ?). exists kp. split; [done|lia].
    + apply NoDup_cons_2; [|done].
      intros [->|Hp]%elem_of_cons.
      * rewrite Hc in Hgp. injection Hgp as ->. lia.
      * destruct (Hall c Hp) as (kp & Hkp & ?). rewrite Hc in Hkp.
        injection Hkp as ->. lia.
Qed.

Lemma walk_h cf s :
  (∀ n p, cf !! n = Some p → adjacent4 p n = true) →
  ∀ walk c, is_walk cf c walk → last (c :: walk) = Some s →
  h s c ≤ length walk.
Proof.
  intros Hcf. induction walk as [|q walk IH]; intros c Hw Hl; simpl in *.
  - injection Hl as ->. assert (h s s = 0) as -> by by apply h_zero. done.
  - destruct Hw as [Hq Hw]. specialize (IH q Hw Hl).
    destruct (adjacent4_h _ _ s (Hcf c q Hq)) as [H|H];
      rewrite !(h_sym _ s) in H; lia.
Qed.

End walks.

Section path_marks.
Implicit Types (lvl : list (list Node)) (c : coord) (walk : list coord).

Lemma mark_path_type nd :
  type nd ≠ START → type nd ≠ GOAL → type (mark_path nd) = PATH.
Proof.
  intros Hs Hg. unfold mark_path, is_start, is_goal.
  by rewrite !bool_decide_eq_false_2.
Qed.

Lemma mark_walk_keeps walk lvl c :
  node_type lvl c = Some PATH → node_type (mark_walk walk lvl) c = Some PATH.
Proof.
  revert lvl. induction walk as [|q walk IH]; intros lvl Hc; simpl; [done|].
  apply IH. unfold node_type in *. rewrite node_at_update_node.
  destruct (decide (q = c)) as [->|Hne]; [|done].
  destruct (node_at lvl c) as [nd|]; simpl in *; [|done].
  injection Hc as Hc. rewrite mark_path_type; by rewrite ?Hc.
Qed.

Lemma mark_walk_path walk lvl c t :
  c ∈ walk → node_type lvl c = Some t → t ≠ START → t ≠ GOAL →
  node_type (mark_walk walk lvl) c = Some PATH.
Proof.
  revert lvl. induction walk as [|q walk IH]; intros lvl Hin Hc Hs Hg;
    [by apply elem_of_nil in Hin|].
  simpl. destruct (decide (q = c)) as [->|Hne].
  - apply mark_walk_keeps. unfold node_type in *.
    rewrite node_at_update_node_eq.
    destruct (node_at lvl c) as [nd|]; simpl in *; [|done].
    injection Hc as Hc. rewrite mark_path_type; by rewrite ?Hc.
  - apply elem_of_cons in Hin as [?|Hin]; [done|].
    apply (IH _ Hin); [|done..].
    unfold node_type. by rewrite node_at_update_node_ne.
Qed.

Lemma mark_walk_other walk lvl c :
  c ∉ walk → node_at (mark_walk walk lvl) c = node_at lvl c.
Proof. intros Hc. by apply mark_walk_frame. Qed.

Lemma length_walk_frames walk lvl : length (walk_frames walk lvl) = length walk.
Proof.
  revert lvl. induction walk as [|q walk IH]; intros lvl; simpl; [done|].
  by rewrite IH.
Qed.

End path_marks.

Section find_path_more.
Variables (lvl : list (list Node)) (start goal : coord).
Hypothesis Hs : is_Some (node_at lvl start).

Lemma start_in_cells : start ∈ cells (update_all_neighbors lvl).
Proof. by apply elem_of_cells_update_all. Qed.

Lemma find_path_ends events :
  ∃ o st, find_path events (update_all_neighbors lvl) start goal = Some (o, st)
          ∧ post_marks (update_all_neighbors lvl) start goal o st
          ∧ (no_exit events → o ≠ Exited).
Proof.
  apply find_path_marks; [apply neighbors_ok_update_all|apply start_in_cells].
Qed.

(** The inner state of an outcome: the tables of the final state are the
    ones of a state that satisfies [inv] and [marks]. *)
Lemma post_marks_tables o st :
  post_marks (update_all_neighbors lvl) start goal o st →
  ∃ cur st1,
    inv (update_all_neighbors lvl) start goal cur st1
    ∧ marks (update_all_neighbors lvl) start goal st1
    ∧ gScore st = gScore st1 ∧ fScore st = fScore st1
    ∧ came_from st = came_from st1
    ∧ openNodes st = openNodes st1 ∧ openNodesHash st = openNodesHash st1.
Proof.
  destruct o as [path| |]; simpl.
  - intros (st1 & walk & (I & _) & M & _ & _ & _ & ->). by exists (Some goal), st1.
  - intros (I & M & _). by exists None, st.
  - intros (I & M). by exists None, st.
Qed.

End find_path_more.

(** X12.  The score tables go together: [fScore] is [gScore] plus the heuristic,
    and the priority of an entry of the queue is at least the [fScore] of
    its node (it is the one the node had when it was pushed). *)
Theorem fscore_and_priorities (events : list (list Event))
    (lvl : list (list Node)) (start goal : coord) :
  is_Some (node_at lvl start) →
  ∃ o st,
    find_path events (update_all_neighbors lvl) start goal = Some (o, st)
    ∧ (∀ c, get_score (fScore st) c
            = score_add (get_score (gScore st) c) (h c goal))
    ∧ (∀ e, e ∈ openNodes st →
         e = (Finite 0, 0, start)
         ∨ ∃ k p, get_score (gScore st) (entry_node e) = Finite k
                  ∧ entry_priority e = Finite p
                  ∧ k + h (entry_node e) goal ≤ p).
Proof.
  intros Hs.
  destruct (find_path_ends lvl start goal Hs events) as (o & st & Hf & Hp & _).
  exists o, st. split; [done|].
  apply post_marks_tables in Hp
    as (cur & st1 & _ & M & -> & -> & _ & -> & _).
  split; [apply M|apply M].
Qed.

Lemma fscore_and_priorities_witness :
  ∃ o st,
    find_path [] (update_all_neighbors (level_of (rows_text ["S#G"; "..."])))
      (0, 0) (0, 2) = Some (o, st)
    ∧ (∀ c, get_score (fScore st) c
            = score_add (get_score (gScore st) c) (h c (0, 2)))
    ∧ (∀ e, e ∈ openNodes st →
         e = (Finite 0, 0, (0, 0))
         ∨ ∃ k p, get_score (gScore st) (entry_node e) = Finite k
                  ∧ entry_priority e = Finite p
                  ∧ k + h (entry_node e) (0, 2) ≤ p).
Proof.
  apply (fscore_and_priorities [] (level_of (rows_text ["S#G"; "..."]))
           (0, 0) (0, 2)).
  eexists. reflexivity.
Defined.


(** X13.  A finite [gScore] is the length of a walk along the neighbour lists
    from start to the node, so it is at least their Manhattan distance. *)
Theorem gscore_is_walked (events : list (list Event))
    (lvl : list (list Node)) (start goal : coord) :
  is_Some (node_at lvl start) →
  ∃ o st,
    find_path events (update_all_neighbors lvl) start goal = Some (o, st)
    ∧ ∀ c k, get_score (gScore st) c = Finite k →
        nsteps (linked (update_all_neighbors lvl)) k start c ∧ h start c ≤ k.
Proof.
  intros Hs.
  destruct (find_path_ends lvl start goal Hs events) as (o & st & Hf & Hp & _).
  exists o, st. split; [done|].
  apply post_marks_tables in Hp as (cur & st1 & _ & M & -> & _).
  intros c k Hc. pose proof (marks_steps _ _ _ _ M c k Hc) as Hn.
  split; [done|]. eapply nsteps_h; [apply neighbors_ok_update_all|done].
Qed.

Lemma gscore_is_walked_witness :
  ∃ o st,
    find_path [] (update_all_neighbors (level_of (rows_text ["S#G"; "..."])))
      (0, 0) (0, 2) = Some (o, st)
    ∧ ∀ c k, get_score (gScore st) c = Finite k →
        nsteps (linked (update_all_neighbors
                          (level_of (rows_text ["S#G"; "..."])))) k (0, 0) c
        ∧ h (0, 0) c ≤ k.
Proof.
  apply (gscore_is_walked [] (level_of (rows_text ["S#G"; "..."]))
           (0, 0) (0, 2)).
  eexists. reflexivity.
Defined.


(** X14.  The marks tell the state of the search: off the path that was found,
    a node other than start that the search has reached is [OPEN] while it
    is in the queue and [CLOSED] otherwise, and a node that it has not
    reached is as it was. *)
Theorem marks_match_queue (events : list (list Event))
    (lvl : list (list Node)) (start goal : coord) :
  is_Some (node_at lvl start) →
  ∃ o st,
    find_path events (update_all_neighbors lvl) start goal = Some (o, st)
    ∧ (∀ c, c ∈ openNodesHash st ↔ c ∈ entry_node <$> openNodes st)
    ∧ ∀ c, c ≠ start → c ∉ outcome_path o →
        match get_score (gScore st) c with
        | Infinity =>
            node_at (level st) c = node_at (update_all_neighbors lvl) c
        | Finite _ =>
            node_type (level st) c
            = Some (if bool_decide (c ∈ openNodesHash st) then OPEN else CLOSED)
        end.
Proof.
  intros Hs.
  destruct (find_path_ends lvl start goal Hs events) as (o & st & Hf & Hp & _).
  exists o, st. split; [done|].
  assert (Hat : ∀ cur st1 c,
    inv (update_all_neighbors lvl) start goal cur st1 →
    marks (update_all_neighbors lvl) start goal st1 →
    c ≠ start → cur ≠ Some c →
    match get_score (gScore st1) c with
    | Infinity => node_at (level st1) c = node_at (update_all_neighbors lvl) c
    | Finite _ =>
        node_type (level st1) c
        = Some (if bool_decide (c ∈ openNodesHash st1) then OPEN else CLOSED)
    end).
  { intros cur st1 c I M Hcs Hcur.
    destruct (get_score (gScore st1) c) as [k|] eqn:Hk; [|by apply M].
    case_bool_decide as Hin; [by apply M|].
    by eapply (inv_closed _ _ _ _ _ I). }
  destruct o as [path| |]; simpl in Hp.
  - destruct Hp as (st1 & walk & (I & _) & M & Hw & Hl & -> & ->). simpl.
    split; [apply I|]. intros c Hcs Hc.
    rewrite elem_of_reverse in Hc.
    unfold node_type. rewrite mark_walk_other.
    2:{ intros Hin. apply Hc. by apply list_elem_of_further. }
    rewrite node_at_update_node_ne.
    2:{ intros <-. apply Hc, list_elem_of_here. }
    apply (Hat (Some goal)); [done..|].
    intros [= <-]. apply Hc, list_elem_of_here.
  - destruct Hp as (I & M & _). split; [apply I|].
    intros c Hcs _. by apply (Hat None).
  - destruct Hp as (I & M). split; [apply I|].
    intros c Hcs _. by apply (Hat None).
Qed.

Lemma marks_match_queue_witness :
  ∃ o st,
    find_path [] (update_all_neighbors (level_of (rows_text ["S#G"; "..."])))
      (0, 0) (0, 2) = Some (o, st)
    ∧ (∀ c, c ∈ openNodesHash st ↔ c ∈ entry_node <$> openNodes st)
    ∧ ∀ c, c ≠ (0, 0) → c ∉ outcome_path o →
        match get_score (gScore st) c with
        | Infinity =>
            node_at (level st) c
            = node_at (update_all_neighbors
                         (level_of (rows_text ["S#G"; "..."]))) c
        | Finite _ =>
            node_type (level st) c
            = Some (if bool_decide (c ∈ openNodesHash st) then OPEN else CLOSED)
        end.
Proof.
  apply (marks_match_queue [] (level_of (rows_text ["S#G"; "..."]))
           (0, 0) (0, 2)).
  eexists. reflexivity.
Defined.


(** X15.  When a path is found, the goal is marked [GOAL] and every node of the
    path between start and goal is marked [PATH]; start keeps its type
    [START] when it is not the goal. *)
Theorem found_marks (events : list (list Event))
    (lvl : list (list Node)) (start goal : coord) :
  is_Some (node_at lvl start) →
  node_type lvl start = Some START →
  ∃ o st,
    find_path events (update_all_neighbors lvl) start goal = Some (o, st)
    ∧ ∀ path, o = Found path →
        node_type (level st) goal = Some GOAL
        ∧ (start ≠ goal → node_type (level st) start = Some START)
        ∧ ∀ c, c ∈ path → c ≠ start → c ≠ goal →
            node_type (level st) c = Some PATH.
Proof.
  intros Hs Hty.
  destruct (find_path_ends lvl start goal Hs events) as (o & st & Hf & Hp & _).
  exists o, st. split; [done|]. intros path ->.
  pose proof (post_marks_post _ _ _ _ _ Hp) as Hpost.
  simpl in Hp. destruct Hp as (st1 & walk & Hm & M & Hw & Hl & -> & ->).
  destruct Hm as (I & Hc & kc & Hkc). simpl.
  destruct (walk_decreasing (came_from st1) (gScore st1)) with
    (walk := walk) (c := goal) (k := kc) as (_ & Hall & Hnd); [|done..|].
  { intros n q Hq. destruct (inv_came _ _ _ _ _ I n q Hq)
      as (gn & gp & ? & ? & ? & _). eauto. }
  apply NoDup_cons in Hnd as [Hgw _].
  split; [|split].
  - unfold node_type. rewrite mark_walk_other by done.
    rewrite node_at_update_node_eq.
    assert (is_Some (node_at (level st1) goal)) as [nd ->]; [|done].
    apply elem_of_cells. rewrite (inv_cells _ _ _ _ _ I).
    by apply (inv_bound _ _ _ _ _ I goal kc).
  - intros Hne.
    assert (Hty' : node_type (update_all_neighbors lvl) start = Some START)
      by by rewrite node_type_update_all_neighbors.
    destruct (post_frame (update_all_neighbors lvl) start goal
                (neighbors_ok_update_all lvl) _ _ start Hty' Hpost) as [Hat _];
      [by left|].
    simpl in Hat. unfold node_type. by rewrite Hat.
  - intros c Hin Hcs Hcg. rewrite elem_of_reverse in Hin.
    apply elem_of_cons in Hin as [?|Hin]; [done|].
    destruct (Hall c Hin) as (kp & Hkp & _).
    assert (∃ t, node_type (level st1) c = Some t ∧ t ≠ START ∧ t ≠ GOAL)
      as (t & Ht & Hts & Htg).
    { destruct (decide (c ∈ openNodesHash st1)) as [Ho|Ho].
      - exists OPEN. split; [by apply M|done].
      - exists CLOSED. split; [|done].
        apply (inv_closed _ _ _ _ _ I c kp); [done..|]. congruence. }
    apply (mark_walk_path walk _ c t); [done| |done..].
    unfold node_type. by rewrite node_at_update_node_ne.
Qed.

Lemma found_marks_witness :
  ∃ o st,
    find_path [] (update_all_neighbors (level_of (rows_text ["S#G"; "..."])))
      (0, 0) (0, 2) = Some (o, st)
    ∧ ∀ path, o = Found path →
        node_type (level st) (0, 2) = Some GOAL
        ∧ ((0, 0) ≠ (0, 2) → node_type (level st) (0, 0) = Some START)
        ∧ ∀ c, c ∈ path → c ≠ (0, 0) → c ≠ (0, 2) →
            node_type (level st) c = Some PATH.
Proof.
  apply (found_marks [] (level_of (rows_text ["S#G"; "..."])) (0, 0) (0, 2)).
  - eexists. reflexivity.
  - reflexivity.
Defined.


(** X16.  The path that is found visits no node twice; it has at least as many
    steps as the Manhattan distance from start to goal and at most as many
    as [gScore[goal]], which is less than the number of cells. *)
Theorem found_path_simple (events : list (list Event))
    (lvl : list (list Node)) (start goal : coord) :
  is_Some (node_at lvl start) →
  ∃ o st,
    find_path events (update_all_neighbors lvl) start goal = Some (o, st)
    ∧ ∀ path, o = Found path →
        NoDup path
        ∧ ∃ k, get_score (gScore st) goal = Finite k
               ∧ h start goal < length path ≤ S k
               ∧ k < length (cells (update_all_neighbors lvl)).
Proof.
  intros Hs.
  destruct (find_path_ends lvl start goal Hs events) as (o & st & Hf & Hp & _).
  exists o, st. split; [done|]. intros path ->.
  simpl in Hp. destruct Hp as (st1 & walk & Hm & M & Hw & Hl & -> & ->).
  destruct Hm as (I & Hc & kc & Hkc). simpl.
  destruct (walk_decreasing (came_from st1) (gScore st1)) with
    (walk := walk) (c := goal) (k := kc) as (Hlen & _ & Hnd); [|done..|].
  { intros n q Hq. destruct (inv_came _ _ _ _ _ I n q Hq)
      as (gn & gp & ? & ? & ? & _). eauto. }
  split; [by rewrite reverse_Permutation|].
  exists kc. split; [done|].
  rewrite length_reverse. simpl.
  pose proof (walk_h (came_from st1) start) as Hh.
  specialize (Hh) with (1 := λ n p Hq,
    match inv_came _ _ _ _ _ I n p Hq with
    | ex_intro _ _ (ex_intro _ _ (conj _ (conj _ (conj _ Hlk)))) =>
        proj1 (neighbors_ok_update_all lvl p n Hlk)
    end).
  specialize (Hh walk goal Hw Hl).
  destruct (inv_bound _ _ _ _ _ I goal kc Hkc) as [_ Hb].
  pose proof (discovered_le (update_all_neighbors lvl) (gScore st1)).
  lia.
Qed.

Lemma found_path_simple_witness :
  ∃ o st,
    find_path [] (update_all_neighbors (level_of (rows_text ["S#G"; "..."])))
      (0, 0) (0, 2) = Some (o, st)
    ∧ ∀ path, o = Found path →
        NoDup path
        ∧ ∃ k, get_score (gScore st) (0, 2) = Finite k
               ∧ h (0, 0) (0, 2) < length path ≤ S k
               ∧ k < length (cells (update_all_neighbors
                                      (level_of (rows_text ["S#G"; "..."])))).
Proof.
  apply (found_path_simple [] (level_of (rows_text ["S#G"; "..."]))
           (0, 0) (0, 2)).
  eexists. reflexivity.
Defined.


(** X17.  Without a quit event, [find_path] returns [True] exactly when the goal
    can be reached from start along the neighbour lists. *)
Theorem found_iff_reachable (events : list (list Event))
    (lvl : list (list Node)) (start goal : coord) :
  is_Some (node_at lvl start) →
  no_exit events →
  ∃ o st,
    find_path events (update_all_neighbors lvl) start goal = Some (o, st)
    ∧ ((∃ path, o = Found path)
       ↔ rtc (linked (update_all_neighbors lvl)) start goal)
    ∧ (o = NotFound ↔ ¬ rtc (linked (update_all_neighbors lvl)) start goal).
Proof.
  intros Hs Hne.
  destruct (find_path_spec (update_all_neighbors lvl) start goal
              (neighbors_ok_update_all lvl) (start_in_cells lvl start Hs) events)
    as (o & st & Hf & Hp & Hx).
  exists o, st. split; [done|]. specialize (Hx Hne).
  destruct o as [path| |]; [| |done].
  - pose proof (found_reachable _ _ _ _ _ Hp) as Hr. split.
    + split; [done|eauto].
    + split; [done|]. intros Hn. by destruct Hn.
  - pose proof (not_found_unreachable _ _ _ _ Hp) as Hr. split.
    + split; [by intros [path ?]|done].
    + done.
Qed.

Lemma found_iff_reachable_witness :
  ∃ o st,
    find_path [] (update_all_neighbors (level_of (rows_text ["S#G"; "..."])))
      (0, 0) (0, 2) = Some (o, st)
    ∧ ((∃ path, o = Found path)
       ↔ rtc (linked (update_all_neighbors
                        (level_of (rows_text ["S#G"; "..."]))))
           (0, 0) (0, 2))
    ∧ (o = NotFound
       ↔ ¬ rtc (linked (update_all_neighbors
                          (level_of (rows_text ["S#G"; "..."]))))
             (0, 0) (0, 2)).
Proof.
  apply (found_iff_reachable [] (level_of (rows_text ["S#G"; "..."]))
           (0, 0) (0, 2)).
  - eexists. reflexivity.
  - constructor.
Defined.


(* ===================================================================== *)
(** ** The display and the keyboard, further *)
(* ===================================================================== *)

Section display.
Implicit Types (st : State) (lvl : list (list Node)).

Lemma handle_events_false evs : handle_events evs false ≠ Some true.
Proof. induction evs as [|[|[]|] evs IH]; simpl; done. Qed.

Lemma relax_display goal cur n st :
  visualize (relax goal cur n st) = visualize st
  ∧ frames (relax goal cur n st) = frames st.
Proof.
  unfold relax. destruct (score_ltb _ _); [|done].
  by destruct (bool_decide _).
Qed.

Lemma expand_display goal cur l st :
  visualize (foldl (λ s n, relax goal cur n s) st l) = visualize st
  ∧ frames (foldl (λ s n, relax goal cur n s) st l) = frames st.
Proof.
  revert st. induction l as [|n l IH]; intros st; simpl; [done|].
  destruct (IH (relax goal cur n st)) as [-> ->]. apply relax_display.
Qed.

Lemma close_step_display start cur st :
  visualize (close_step start cur st) = visualize st
  ∧ frames (close_step start cur st) = frames st.
Proof. unfold close_step. by destruct (bool_decide _). Qed.

Lemma draw_step_display st :
  visualize (draw_step st) = visualize st
  ∧ frames (draw_step st)
    = frames st ++ (if visualize st then [snapshot (level st)] else [])
  ∧ level (draw_step st) = level st.
Proof.
  unfold draw_step. destruct (visualize st) eqn:E; simpl; [done|].
  by rewrite app_nil_r.
Qed.

Lemma iteration_display start goal cur st :
  visualize (close_step start cur (draw_step (expand goal cur st)))
  = visualize st
  ∧ frames (close_step start cur (draw_step (expand goal cur st)))
    = frames st
      ++ (if visualize st then [snapshot (level (expand goal cur st))] else []).
Proof.
  destruct (close_step_display start cur (draw_step (expand goal cur st)))
    as [-> ->].
  destruct (draw_step_display (expand goal cur st)) as (-> & -> & _).
  unfold expand.
  destruct (expand_display goal cur (node_neighbors (level st) cur) st)
    as [-> ->].
  done.
Qed.

Lemma reconstruct_path_drawn fuel cf cur lvl fr walk lvl' fr' :
  reconstruct_path fuel cf cur lvl fr = Some (walk, lvl', fr') →
  fr' = fr ++ walk_frames walk lvl.
Proof.
  revert cur lvl fr walk. induction fuel as [|fuel IH]; intros cur lvl fr walk;
    simpl; destruct (cf !! cur) as [prev|]; try done.
  - intros [= <- <- <-]. by rewrite app_nil_r.
  - destruct (reconstruct_path fuel cf prev _ _) as [[[w l] f]|] eqn:Hr; [|done].
    intros [= <- <- <-]. apply IH in Hr as ->. by rewrite <- (assoc_L (++)).
  - intros [= <- <- <-]. by rewrite app_nil_r.
Qed.

(** Once [visualize] is off, the loop draws no frame: the only frames
    are those of [reconstruct_path], one for every step of the path. *)
Lemma search_silent fuel events start goal st o st' :
  handle_events (default [] (head events)) (visualize st) ≠ Some true →
  search fuel events start goal st = Some (o, st') →
  length (frames st')
  = length (frames st) + (length (outcome_path o) - 1).
Proof.
  revert events st. induction fuel as [|fuel IH]; intros events st Hev; simpl.
  - destruct (get (openNodes st)) as [[[[p k] cur] q']|]; [done|].
    intros [= <- <-]. simpl. lia.
  - destruct (get (openNodes st)) as [[[[p k] cur] q']|].
    2:{ intros [= <- <-]. simpl. lia. }
    destruct (handle_events (default [] (head events)) (visualize st))
      as [[|]|] eqn:Hh; [done| |].
    2:{ intros [= <- <-]. simpl. lia. }
    case_bool_decide.
    + destruct (reconstruct_path _ _ _ _ _) as [[[walk l] f]|] eqn:Hr; [|done].
      intros [= <- <-]. apply reconstruct_path_drawn in Hr as ->. simpl.
      rewrite length_app, length_walk_frames, length_reverse. simpl. lia.
    + destruct (iteration_display start goal cur (pop_step false q' cur st))
        as [Hv Hf]. simpl in Hv, Hf. rewrite app_nil_r in Hf.
      intros Hs. apply IH in Hs.
      * by rewrite Hs, Hf.
      * rewrite Hv. apply handle_events_false.
Qed.

Lemma well_colored_update_node f c lvl :
  (∀ nd, color nd = NodeType_color (type nd) →
         color (f nd) = NodeType_color (type (f nd))) →
  well_colored lvl → well_colored (update_node f c lvl).
Proof.
  intros Hf Hw c' nd. rewrite node_at_update_node.
  destruct (decide (c = c')) as [->|Hne]; [|apply Hw].
  destruct (node_at lvl c') as [nd0|] eqn:E; simpl; [|done].
  intros [= <-]. by apply Hf, (Hw c').
Qed.

Lemma mark_path_colored nd :
  color nd = NodeType_color (type nd) →
  color (mark_path nd) = NodeType_color (type (mark_path nd)).
Proof. unfold mark_path. by destruct (_ && _). Qed.

Lemma well_colored_update_all lvl :
  well_colored lvl → well_colored (update_all_neighbors lvl).
Proof.
  intros Hw c nd. rewrite node_at_update_all_neighbors.
  destruct (node_at lvl c) as [nd0|] eqn:E; simpl; [|done].
  intros [= <-]. simpl. by apply (Hw c).
Qed.

Lemma relax_colored goal cur n st :
  well_colored (level st) → well_colored (level (relax goal cur n st)).
Proof.
  intros Hw. unfold relax. destruct (score_ltb _ _); [|done].
  destruct (bool_decide _); simpl; [done|].
  by apply well_colored_update_node.
Qed.

Lemma expand_colored goal cur l st :
  well_colored (level st) →
  well_colored (level (foldl (λ s n, relax goal cur n s) st l)).
Proof.
  revert st. induction l as [|n l IH]; intros st Hw; simpl; [done|].
  by apply IH, relax_colored.
Qed.

Lemma mark_walk_colored walk lvl :
  well_colored lvl → well_colored (mark_walk walk lvl).
Proof.
  revert lvl. induction walk as [|q walk IH]; intros lvl Hw; simpl; [done|].
  apply IH. apply well_colored_update_node; [apply mark_path_colored|done].
Qed.

Lemma search_colored fuel events start goal st o st' :
  well_colored (level st) →
  search fuel events start goal st = Some (o, st') →
  well_colored (level st').
Proof.
  revert events st. induction fuel as [|fuel IH]; intros events st Hw; simpl.
  - destruct (get (openNodes st)) as [[[[p k] cur] q']|]; [done|].
    by intros [= <- <-].
  - destruct (get (openNodes st)) as [[[[p k] cur] q']|].
    2:{ by intros [= <- <-]. }
    destruct (handle_events (default [] (head events)) (visualize st))
      as [vis|] eqn:Hh.
    2:{ by intros [= <- <-]. }
    case_bool_decide.
    + destruct (reconstruct_path _ _ _ _ _) as [[[walk l] f]|] eqn:Hr; [|done].
      intros [= <- <-]. simpl.
      apply reconstruct_path_is_walk in Hr as [_ ->].
      apply mark_walk_colored. by apply well_colored_update_node.
    + set (st2 := expand goal cur (pop_step vis q' cur st)).
      assert (well_colored (level st2)) as Hw2.
      { unfold st2, expand. by apply expand_colored. }
      destruct (draw_step_display st2) as (_ & _ & Hl).
      apply IH.
      unfold close_step. destruct (bool_decide (cur ≠ start)); simpl;
        rewrite ?Hl; [|done].
      by apply well_colored_update_node.
Qed.

(** The last frame that [reconstruct_path] draws on a walk shows the
    level as it leaves it. *)
Lemma last_walk_frames walk lvl :
  walk ≠ [] →
  last (walk_frames walk lvl) = Some (snapshot (mark_walk walk lvl)).
Proof.
  revert lvl. induction walk as [|q walk IH]; intros lvl Hne; [done|].
  simpl. destruct walk as [|q' walk']; [done|].
  rewrite <- (IH (update_node mark_path q lvl)) by done. done.
Qed.

Lemma search_last_frame fuel events start goal st path st' :
  search fuel events start goal st = Some (Found path, st') →
  2 ≤ length path →
  last (frames st') = Some (snapshot (level st')).
Proof.
  revert events st. induction fuel as [|fuel IH]; intros events st; simpl.
  - by destruct (get (openNodes st)) as [[[[p k] cur] q']|].
  - destruct (get (openNodes st)) as [[[[p k] cur] q']|]; [|done].
    destruct (handle_events (default [] (head events)) (visualize st))
      as [vis|] eqn:Hh; [|done].
    case_bool_decide; [|apply IH].
    destruct (reconstruct_path _ _ _ _ _) as [[[walk l] f]|] eqn:Hr; [|done].
    intros [= <- <-]. simpl.
    pose proof (reconstruct_path_drawn _ _ _ _ _ _ _ _ Hr) as ->.
    apply reconstruct_path_is_walk in Hr as [_ ->].
    rewrite length_reverse. simpl. intros Hlen.
    assert (walk ≠ []) as Hne by (intros ->; simpl in Hlen; lia).
    rewrite last_app, last_walk_frames by done. done.
Qed.

End display.

(** X18.  What [reconstruct_path] does, on any [cameFrom] and level for
    which its loop ends: it walks the chain of predecessors of [current],
    calls [draw] once for every step, marks the nodes of the chain [PATH]
    except those of type [START] or [GOAL], which it leaves alone, and
    touches no node off the chain. *)
Theorem reconstruct_path_effect (fuel : nat) (cameFrom : gmap coord coord)
    (current : coord) (lvl lvl' : list (list Node))
    (fr fr' : list (list (list Color))) (walk : list coord) :
  reconstruct_path fuel cameFrom current lvl fr = Some (walk, lvl', fr') →
  is_walk cameFrom current walk
  ∧ length fr' = length fr + length walk
  ∧ (∀ c, c ∉ walk → node_at lvl' c = node_at lvl c)
  ∧ (∀ c t, node_type lvl c = Some t → t = START ∨ t = GOAL →
       node_at lvl' c = node_at lvl c)
  ∧ (∀ c t, c ∈ walk → node_type lvl c = Some t → t ≠ START → t ≠ GOAL →
       node_type lvl' c = Some PATH).
Proof.
  intros Hr. pose proof (reconstruct_path_drawn _ _ _ _ _ _ _ _ Hr) as ->.
  apply reconstruct_path_is_walk in Hr as [Hw ->].
  split; [done|]. split; [by rewrite length_app, length_walk_frames|].
  split; [intros c Hc; by apply mark_walk_other|]. split.
  - intros c t Ht Hsg. apply mark_walk_frame. intros _.
    unfold node_type in Ht. destruct (node_at lvl c) as [nd|]; [|done].
    injection Ht as Ht. exists nd. split; [done|].
    unfold mark_path, is_start, is_goal.
    destruct Hsg as [-> | ->].
    + by rewrite (bool_decide_eq_true_2 (type nd = START)).
    + rewrite (bool_decide_eq_true_2 (type nd = GOAL)) by done.
      by rewrite andb_false_r.
  - intros c t. apply mark_walk_path.
Qed.

Lemma reconstruct_path_effect_witness :
  is_walk {[(0, 2) := (0, 1); (0, 1) := (0, 0)]} (0, 2) [(0, 1); (0, 0)]
  ∧ length (walk_frames [(0, 1); (0, 0)] (level_of "S.G"))
    = length ([] : list (list (list Color))) + length [(0, 1); (0, 0)]
  ∧ (∀ c, c ∉ [(0, 1); (0, 0)] →
       node_at (mark_walk [(0, 1); (0, 0)] (level_of "S.G")) c
       = node_at (level_of "S.G") c)
  ∧ (∀ c t, node_type (level_of "S.G") c = Some t → t = START ∨ t = GOAL →
       node_at (mark_walk [(0, 1); (0, 0)] (level_of "S.G")) c
       = node_at (level_of "S.G") c)
  ∧ (∀ c t, c ∈ [(0, 1); (0, 0)] → node_type (level_of "S.G") c = Some t →
       t ≠ START → t ≠ GOAL →
       node_type (mark_walk [(0, 1); (0, 0)] (level_of "S.G")) c = Some PATH).
Proof.
  apply (reconstruct_path_effect 2 {[(0, 2) := (0, 1); (0, 1) := (0, 0)]}
           (0, 2) (level_of "S.G") _ [] _ [(0, 1); (0, 0)]).
  reflexivity.
Defined.

(** X19.  The events of one iteration: the program exits when there is a
    [QUIT] event or the escape key among them, whatever else is pressed;
    otherwise [visualize] stays as it is unless the space bar is among
    them, which switches it off, and nothing switches it on again. *)
Theorem handle_events_spec (evs : list Event) (vis : bool) :
  handle_events evs vis
  = if quits evs then None else Some (vis && negb (space_pressed evs)).
Proof.
  revert vis. induction evs as [|[|[]|] evs IH]; intros vis; simpl;
    rewrite ?IH; try done.
  - by rewrite andb_true_r.
  - destruct (quits evs); [done|]. by rewrite andb_false_r.
Qed.

(** X20.  When the space bar is pressed in the first iteration, no frame of the
    search is drawn: [draw] is only called by [reconstruct_path], once
    for every step of the path. *)
Theorem skip_visualization (events : list (list Event))
    (lvl : list (list Node)) (start goal : coord) :
  is_Some (node_at lvl start) →
  handle_events (default [] (head events)) true = Some false →
  ∃ o st,
    find_path events (update_all_neighbors lvl) start goal = Some (o, st)
    ∧ length (frames st) = length (outcome_path o) - 1.
Proof.
  intros Hs Hev.
  destruct (find_path_spec (update_all_neighbors lvl) start goal
              (neighbors_ok_update_all lvl) (start_in_cells lvl start Hs) events)
    as (o & st & Hf & _).
  exists o, st. split; [done|].
  unfold find_path in Hf. apply search_silent in Hf; [done|].
  simpl. by rewrite Hev.
Qed.

Lemma skip_visualization_witness :
  ∃ o st,
    find_path [[KEYDOWN K_SPACE]]
      (update_all_neighbors (level_of (rows_text ["S#G"; "..."])))
      (0, 0) (0, 2) = Some (o, st)
    ∧ length (frames st) = length (outcome_path o) - 1.
Proof.
  apply (skip_visualization [[KEYDOWN K_SPACE]]
           (level_of (rows_text ["S#G"; "..."])) (0, 0) (0, 2)).
  - eexists. reflexivity.
  - reflexivity.
Defined.


(** The level that [make_level] returns has the colours of its types. *)
Lemma make_level_colored (size : nat * nat) (text : string)
    (lvl : list (list Node)) (start goal : option coord) :
  make_level size text = inr (lvl, start, goal) → well_colored lvl.
Proof.
  intros (_ & -> & _)%make_level_result c nd. rewrite node_at_chars.
  destruct (_ ≫= _) as [char|]; simpl; [|done]. by intros [= <-].
Qed.

(** X21.  The colours follow the types: when every node of the level has the
    colour of its type, so has every node of the level that [find_path]
    leaves; and when a path of at least one step is found, the last frame
    drawn is the picture of that level. *)
Theorem colours_follow_types (events : list (list Event))
    (lvl : list (list Node)) (start goal : coord) :
  is_Some (node_at lvl start) →
  well_colored lvl →
  ∃ o st,
    find_path events (update_all_neighbors lvl) start goal = Some (o, st)
    ∧ well_colored (level st)
    ∧ (∀ path, o = Found path → 2 ≤ length path →
         last (frames st) = Some (snapshot (level st))).
Proof.
  intros Hs Hw.
  destruct (find_path_spec (update_all_neighbors lvl) start goal
              (neighbors_ok_update_all lvl) (start_in_cells lvl start Hs) events)
    as (o & st & Hf & _).
  exists o, st. split; [done|]. unfold find_path in Hf. split.
  - eapply search_colored; [|exact Hf]. by apply well_colored_update_all.
  - intros path ->. by eapply search_last_frame.
Qed.

Lemma colours_follow_types_witness :
  ∃ o st,
    find_path [] (update_all_neighbors (level_of (rows_text ["S#G"; "..."])))
      (0, 0) (0, 2) = Some (o, st)
    ∧ well_colored (level st)
    ∧ (∀ path, o = Found path → 2 ≤ length path →
         last (frames st) = Some (snapshot (level st))).
Proof.
  apply (colours_follow_types [] (level_of (rows_text ["S#G"; "..."]))
           (0, 0) (0, 2)).
  - eexists. reflexivity.
  - apply (make_level_colored (0, 0) (rows_text ["S#G"; "..."]) _
             (Some (0, 0)) (Some (0, 2))).
    reflexivity.
Defined.


(** X22.  [make_level], [update_neighbors] and [find_path] together: for a text
    that [make_level] reads into a level with a start and a goal, the
    search returns; start and goal are different nodes, start keeps its
    node, and a path that is found leads from start to goal through cells
    of the level that are not obstacles. *)
Theorem run_search_result (events : list (list Event)) (size : nat * nat)
    (text : string) (lvl : list (list Node)) (start goal : coord) :
  make_level size text = inr (lvl, Some start, Some goal) →
  start ≠ goal
  ∧ ∃ o st,
      run_search events size text = Some (o, st)
      ∧ (no_exit events → o ≠ Exited)
      ∧ (∀ path, o = Found path → valid_path lvl start goal path = true)
      ∧ node_at (level st) start = node_at (update_all_neighbors lvl) start.
Proof.
  intros Hm. unfold run_search. rewrite Hm.
  apply make_level_result in Hm as (_ & -> & Hstart & Hgoal).
  symmetry in Hstart, Hgoal.
  apply last_elem_of in Hstart, Hgoal.
  set (lvl := map (map _) _).
  apply (symbol_type (length (text_lines text))
           (from_option length 0 (last (text_lines text))) _ START)
    in Hstart; [|by left].
  apply (symbol_type (length (text_lines text))
           (from_option length 0 (last (text_lines text))) _ GOAL)
    in Hgoal; [|by right].
  fold lvl in Hstart, Hgoal.
  assert (Hne : start ≠ goal) by (intros ->; congruence).
  split; [done|].
  assert (Hs : is_Some (node_at lvl start)) by by eapply typed_in_level.
  destruct (find_path_spec (update_all_neighbors lvl) start goal
              (neighbors_ok_update_all lvl) (start_in_cells lvl start Hs) events)
    as (o & st & Hf & Hp & Hx).
  exists o, st. split; [done|]. split; [done|]. split.
  - intros path ->. rewrite <- valid_path_update_all.
    eapply found_valid; [apply neighbors_ok_update_all| |done].
    rewrite passable_update_all_neighbors. apply passable_type.
    exists START. done.
  - apply (post_frame (update_all_neighbors lvl) start goal
             (neighbors_ok_update_all lvl) o st start); [|done|by left].
    by rewrite node_type_update_all_neighbors.
Qed.

Lemma run_search_result_witness :
  (0, 0) ≠ (0, 2)
  ∧ ∃ o st,
      run_search [] (0, 0) (rows_text ["S#G"; "..."]) = Some (o, st)
      ∧ (no_exit [] → o ≠ Exited)
      ∧ (∀ path, o = Found path →
           valid_path (level_of (rows_text ["S#G"; "..."])) (0, 0) (0, 2) path
           = true)
      ∧ node_at (level st) (0, 0)
        = node_at (update_all_neighbors (level_of (rows_text ["S#G"; "..."])))
            (0, 0).
Proof.
  apply (run_search_result [] (0, 0) (rows_text ["S#G"; "..."])
           (level_of (rows_text ["S#G"; "..."])) (0, 0) (0, 2)).
  reflexivity.
Defined.

(* ===================================================================== *)
(** ** What the search leaves alone, and what the errors mean *)
(* ===================================================================== *)

Section only_marks_facts.
Implicit Types (lvl : list (list Node)) (st : State).

Lemma only_marks_refl lvl : only_marks lvl lvl.
Proof.
  intros c. destruct (node_at lvl c); constructor. done.
Qed.

Lemma only_marks_update_node f c lvl' lvl :
  (∀ nd, same_but_mark (f nd) nd) →
  only_marks lvl' lvl → only_marks (update_node f c lvl') lvl.
Proof.
  intros Hf H c'. rewrite node_at_update_node. specialize (H c').
  destruct (decide (c = c')) as [->|Hne]; [|done].
  destruct H as [n' n (H1 & H2 & H3)|]; simpl; constructor.
  destruct (Hf n') as (G1 & G2 & G3). split; [|split]; congruence.
Qed.

Lemma mark_path_same nd : same_but_mark (mark_path nd) nd.
Proof. unfold mark_path. by destruct (_ && _). Qed.

Lemma relax_only_marks goal cur n st lvl :
  only_marks (level st) lvl → only_marks (level (relax goal cur n st)) lvl.
Proof.
  intros H. unfold relax. destruct (score_ltb _ _); [|done].
  destruct (bool_decide _); simpl; [done|].
  by apply only_marks_update_node.
Qed.

Lemma expand_only_marks goal cur l st lvl :
  only_marks (level st) lvl →
  only_marks (level (foldl (λ s n, relax goal cur n s) st l)) lvl.
Proof.
  revert st. induction l as [|n l IH]; intros st H; simpl; [done|].
  by apply IH, relax_only_marks.
Qed.

Lemma mark_walk_only_marks walk lvl' lvl :
  only_marks lvl' lvl → only_marks (mark_walk walk lvl') lvl.
Proof.
  revert lvl'. induction walk as [|q walk IH]; intros lvl' H; simpl; [done|].
  apply IH. apply only_marks_update_node; [apply mark_path_same|done].
Qed.

Lemma search_only_marks fuel events start goal st o st' lvl :
  only_marks (level st) lvl →
  search fuel events start goal st = Some (o, st') →
  only_marks (level st') lvl.
Proof.
  revert events st. induction fuel as [|fuel IH]; intros events st H; simpl.
  - destruct (get (openNodes st)) as [[[[p k] cur] q']|]; [done|].
    by intros [= <- <-].
  - destruct (get (openNodes st)) as [[[[p k] cur] q']|].
    2:{ by intros [= <- <-]. }
    destruct (handle_events (default [] (head events)) (visualize st))
      as [vis|] eqn:Hh.
    2:{ by intros [= <- <-]. }
    case_bool_decide.
    + destruct (reconstruct_path _ _ _ _ _) as [[[walk l] f]|] eqn:Hr; [|done].
      intros [= <- <-]. simpl.
      apply reconstruct_path_is_walk in Hr as [_ ->].
      apply mark_walk_only_marks. by apply only_marks_update_node.
    + apply IH.
      set (st2 := expand goal cur (pop_step vis q' cur st)).
      assert (only_marks (level st2) lvl) as H2.
      { unfold st2, expand. by apply expand_only_marks. }
      destruct (draw_step_display st2) as (_ & _ & Hl).
      unfold close_step. destruct (bool_decide (cur ≠ start)); simpl;
        rewrite ?Hl; [|done].
      by apply only_marks_update_node.
Qed.

End only_marks_facts.

(** X23.  [find_path] only changes marks: the level it leaves has the
    same positions as the level it was called on, and every node has
    its neighbour list and its totals as before; only types and colours
    change. *)
Theorem only_marks_change (events : list (list Event))
    (lvl : list (list Node)) (start goal : coord) :
  is_Some (node_at lvl start) →
  ∃ o st,
    find_path events (update_all_neighbors lvl) start goal = Some (o, st)
    ∧ only_marks (level st) (update_all_neighbors lvl).
Proof.
  intros Hs.
  destruct (find_path_spec (update_all_neighbors lvl) start goal
              (neighbors_ok_update_all lvl) (start_in_cells lvl start Hs) events)
    as (o & st & Hf & _).
  exists o, st. split; [done|].
  unfold find_path in Hf. eapply search_only_marks; [|exact Hf].
  apply only_marks_refl.
Qed.

Lemma only_marks_change_witness :
  ∃ o st,
    find_path [] (update_all_neighbors (level_of (rows_text ["S#G"; "..."])))
      (0, 0) (0, 2) = Some (o, st)
    ∧ only_marks (level st)
        (update_all_neighbors (level_of (rows_text ["S#G"; "..."]))).
Proof.
  apply (only_marks_change [] (level_of (rows_text ["S#G"; "..."]))
           (0, 0) (0, 2)).
  eexists. reflexivity.
Defined.

Section make_level_errors.
Implicit Types (line : list ascii) (lines : list (list ascii)).

Lemma read_line_cause size i j line row start goal e :
  read_line size i j line row start goal = inl e →
  (∃ char, e = InvalidCharacter char ∧ char ∈ line ∧ valid_char char = false)
  ∨ (e = InvalidWidth ∧ S COL_LIMIT < j + length line).
Proof.
  revert j row start goal.
  induction line as [|char line IH]; intros j row start goal; simpl; [done|].
  destruct (read_char char _) as [[[node is_s] is_g]|] eqn:Hr.
  - case_bool_decide as Hj.
    + intros [= <-]. right. split; [done|]. lia.
    + intros [(ch & -> & Hin & Hv)|[-> Hw]]%IH.
      * left. exists ch. split; [done|]. split; [|done].
        by apply list_elem_of_further.
      * right. split; [done|]. lia.
  - intros [= <-]. left. exists char. split; [done|].
    split; [apply list_elem_of_here|].
    destruct (valid_char char) eqn:Hv; [|done].
    destruct (read_char_valid char (Node_init size.1 size.2) Hv)
      as (? & ? & ? & Hr' & _). congruence.
Qed.

Lemma read_lines_cause size i lines lvl start goal last e :
  read_lines size i lines lvl start goal last = inl e →
  (∃ char line, e = InvalidCharacter char ∧ line ∈ lines ∧ char ∈ line
                ∧ valid_char char = false)
  ∨ (e = InvalidWidth ∧ Exists (λ line, S COL_LIMIT < length line) lines)
  ∨ (e = InvalidHeight ∧ S ROW_LIMIT < i + length lines).
Proof.
  revert i lvl start goal last.
  induction lines as [|line lines IH]; intros i lvl start goal last; simpl;
    [done|].
  destruct (read_line size i 0 line [] start goal)
    as [e'|[[row s] g]] eqn:Hr.
  - intros [= <-].
    apply read_line_cause in Hr as [(ch & -> & Hin & Hv)|[-> Hw]].
    + left. exists ch, line. split; [done|]. split; [apply list_elem_of_here|].
      done.
    + right. left. split; [done|]. by apply Exists_cons_hd.
  - case_bool_decide as Hi.
    + intros [= <-]. right. right. split; [done|]. lia.
    + intros [(ch & l & -> & Hl & Hin & Hv)|[[-> Hw]|[-> Hh]]]%IH.
      * left. exists ch, l. split; [done|]. split; [|done].
        by apply list_elem_of_further.
      * right. left. split; [done|]. by apply Exists_cons_tl.
      * right. right. split; [done|]. lia.
Qed.

End make_level_errors.

(** X24.  The errors of [make_level] tell the truth about the text: the
    character reported as invalid occurs in the text and is none of
    ['#'], ['S'], ['G'], ['.'] and the newline; the width error means a
    line of more than [COL_LIMIT + 1] characters and the height error
    more than [ROW_LIMIT + 1] lines; the unbound variable means the
    empty text. *)
Theorem make_level_error_cause (size : nat * nat) (text : string)
    (e : LevelError) :
  make_level size text = inl e → error_cause text e.
Proof.
  unfold make_level. fold (text_lines text).
  destruct (text_lines text) as [|line lines] eqn:Hl.
  { intros [= <-]. simpl. by apply text_lines_nil. }
  rewrite <- Hl.
  destruct (read_lines size 0 (text_lines text) [] None None 0)
    as [e'|[[[lvl' s] g] cols]] eqn:Hr; [|done].
  intros [= <-].
  apply read_lines_cause
    in Hr as [(ch & l & -> & Hin & Hc & Hv)|[[-> Hw]|[-> Hh]]]; simpl.
  - split; [|done]. rewrite <- text_lines_chars. apply list_elem_of_join. eauto.
  - done.
  - done.
Qed.

Lemma make_level_error_cause_witness :
  error_cause (rows_text ["S.G"; ".x."]) (InvalidCharacter "x").
Proof.
  apply (make_level_error_cause (0, 0) (rows_text ["S.G"; ".x."])
           (InvalidCharacter "x")).
  reflexivity.
Defined.
